(** * srw-gulp: the configuration resolution layer

    A shallow embedding of [src/config-builder.babel.js] (class
    [ConfigBuilder] and its private functions) and of the facade
    [ConfigFetcher] of [src/config-fetcher.babel.js], followed by the
    properties of the configuration layer.

    How the JavaScript is read:

    - Strings are sequences of 8-bit characters ([string]); this is exact for
      ASCII configuration text.
    - Configuration documents are JSON values ([json]); numbers are the
      integers.  An object lists its own properties in the order
      [Object.getOwnPropertyNames] reports them, with distinct keys.
    - [val[i]] reads own properties: the keys of an object, the indices and
      [length] of an array or of a string.  Members inherited from the
      built-in prototypes ([constructor], [toString], ...) are not part of
      the model: a statement about a path that may not resolve is made for
      the paths that read own properties only ([Js.reads_own]).
    - ToString is exact for the values [Js.printable] accepts: integers that
      a double holds exactly, and objects without a key [toString] of their
      own.
    - [this.configObject] is shared and mutated in place by
      [resolveReplacementsForObject].  A reference to an object or array
      inside it is the list of property names leading to it ([VRef]), and
      the functions thread the store explicitly ([M]).
    - Exceptions are values of [exn].  The call stack is bounded: a call of
      [lookup] or of [resolveReplacementsForObject], the two functions that
      recur, takes one of the [fuel] frames there are, and running out of
      frames is the engine's [RangeError].
    - The logger and the file system are collaborators: the logger records
      the calls it receives, the file system is a table of paths.
    - [DefaultLogger], the logger the runner gives the builder, is embedded
      with its formatter and its writers from the second document of
      [src/config-fetcher.babel.js].  What its writers hand to [console.log]
      and to [fs.write] is recorded; [sprintf], the clock and the styles
      that [colour] has are parameters, a style it does not have is not a
      function, and the opening of the log file is taken to have
      succeeded. *)

From Stdlib Require Import ZArith List Ascii String Bool Lia DecimalString.
From stdpp Require Import base option gmap strings list.

Local Set Warnings "-register-all".
Local Open Scope string_scope.
Local Open Scope list_scope.

(** ** Strings *)

Module Str.

Definition is_lower (c : ascii) : bool :=
  let n := nat_of_ascii c in (97 <=? n)%nat && (n <=? 122)%nat.
Definition is_upper (c : ascii) : bool :=
  let n := nat_of_ascii c in (65 <=? n)%nat && (n <=? 90)%nat.
Definition is_digit (c : ascii) : bool :=
  let n := nat_of_ascii c in (48 <=? n)%nat && (n <=? 57)%nat.

(** The class [\w] of a regular expression without the [u] flag. *)
Definition is_word (c : ascii) : bool :=
  is_lower c || is_upper c || is_digit c || Ascii.eqb c "_".

Fixpoint filter (f : ascii -> bool) (s : string) : string :=
  match s with
  | EmptyString => EmptyString
  | String c r => if f c then String c (filter f r) else filter f r
  end.

(** [s.replace(/\W/g, '')] *)
Definition strip_non_word (s : string) : string := filter is_word s.

(** [s.split('.')]: never empty, the empty string splits into [[""]]. *)
Fixpoint split_dot (s : string) : list string :=
  match s with
  | EmptyString => [EmptyString]
  | String c r =>
      if Ascii.eqb c "." then EmptyString :: split_dot r
      else match split_dot r with
           | [] => [String c EmptyString]
           | h :: t => String c h :: t
           end
  end.

Fixpoint starts_with (p s : string) : option string :=
  match p with
  | EmptyString => Some s
  | String a p' =>
      match s with
      | EmptyString => None
      | String b s' => if Ascii.eqb a b then starts_with p' s' else None
      end
  end.

Fixpoint concat_all (l : list string) : string :=
  match l with
  | [] => EmptyString
  | s :: r => s +:+ concat_all r
  end.

Fixpoint join (sep : string) (l : list string) : string :=
  match l with
  | [] => EmptyString
  | [s] => s
  | s :: r => s +:+ sep +:+ join sep r
  end.

Definition of_Z (z : Z) : string := NilZero.string_of_int (Z.to_int z).

Definition is_empty (s : string) : bool :=
  match s with EmptyString => true | _ => false end.

Fixpoint contains (p s : string) : bool :=
  match starts_with p s with
  | Some _ => true
  | None => match s with
            | EmptyString => false
            | String _ r => contains p r
            end
  end.

End Str.

(** ** JSON documents and JavaScript values *)

Inductive json : Type :=
| JNull
| JBool (b : bool)
| JNum (n : Z)
| JStr (s : string)
| JArr (l : list json)
| JObj (kvs : list (string * json)).

(** A reference into [this.configObject]: the property names from the root. *)
Definition path := list string.

Inductive jsvalue : Type :=
| VUndef
| VJson (j : json)      (* a primitive, or a structure of the caller's own *)
| VRef (p : path).      (* the object or array stored at [p] in the config *)

Module Js.

(** ToBoolean.  Objects and arrays are always true, the empty array too. *)
Definition truthy (j : json) : bool :=
  match j with
  | JNull => false
  | JBool b => b
  | JNum n => negb (n =? 0)%Z
  | JStr s => negb (Str.is_empty s)
  | JArr _ | JObj _ => true
  end.

Definition truthy_opt (o : option json) : bool :=
  match o with Some j => truthy j | None => false end.

Definition truthy_value (v : jsvalue) : bool :=
  match v with
  | VUndef => false
  | VJson j => truthy j
  | VRef _ => true
  end.

(** ToString of a value that is not [undefined]: [Array.prototype.join]
    prints [null] elements as the empty string. *)
Fixpoint to_string (j : json) : string :=
  match j with
  | JNull => "null"
  | JBool true => "true"
  | JBool false => "false"
  | JNum n => Str.of_Z n
  | JStr s => s
  | JArr l =>
      Str.join ","
        (List.map (fun e => match e with JNull => "" | _ => to_string e end) l)
  | JObj _ => "[object Object]"
  end.

(** Where [to_string] is the text the program gets.  Numbers are printed
    digit by digit, which is what the program does for the integers a double
    holds exactly; from [1e21] on it prints an exponent.  An object is
    printed as [[object Object]] by the method it inherits; a document that
    gives it a key [toString] of its own hides that method, and turning the
    object into text throws.  [printable j] holds when neither is the case
    in [j] nor in an element that is printed with it. *)
Fixpoint printable (j : json) : bool :=
  match j with
  | JNum n => (Z.abs n <=? 9007199254740992)%Z
  | JArr l => forallb printable l
  | JObj kvs => negb (existsb (String.eqb "toString") (List.map fst kvs))
  | _ => true
  end.

(** An array index is the canonical decimal spelling of a number. *)
Fixpoint digits_value (acc : nat) (s : string) : option nat :=
  match s with
  | EmptyString => Some acc
  | String c r =>
      if Str.is_digit c
      then digits_value (10 * acc + (nat_of_ascii c - 48)) r
      else None
  end.

Definition array_index (k : string) : option nat :=
  match k with
  | EmptyString => None
  | String c r =>
      if Ascii.eqb c "0" then (if Str.is_empty r then Some 0%nat else None)
      else digits_value 0 k
  end.

Fixpoint assoc (k : string) (kvs : list (string * json)) : option json :=
  match kvs with
  | [] => None
  | (k', v) :: r => if String.eqb k k' then Some v else assoc k r
  end.

Fixpoint string_nth (n : nat) (s : string) : option ascii :=
  match s, n with
  | EmptyString, _ => None
  | String c _, O => Some c
  | String _ r, S n' => string_nth n' r
  end.

(** [o[k]] for [o] other than [null]; [None] is [undefined]. *)
Definition get_prop (o : json) (k : string) : option json :=
  match o with
  | JObj kvs => assoc k kvs
  | JArr l =>
      if String.eqb k "length" then Some (JNum (Z.of_nat (List.length l)))
      else match array_index k with
           | Some n => nth_error l n
           | None => None
           end
  | JStr s =>
      if String.eqb k "length" then Some (JNum (Z.of_nat (String.length s)))
      else match array_index k with
           | Some n =>
               match string_nth n s with
               | Some c => Some (JStr (String c EmptyString))
               | None => None
               end
           | None => None
           end
  | _ => None
  end.

(** [Object.getOwnPropertyNames(o)] *)
Definition own_property_names (o : json) : list string :=
  match o with
  | JObj kvs => List.map fst kvs
  | JArr l => List.map (fun n => Str.of_Z (Z.of_nat n)) (seq 0 (List.length l))
                ++ ["length"]
  | _ => []
  end.

Definition is_object (j : json) : bool :=
  match j with JArr _ | JObj _ => true | _ => false end.

Definition is_array (j : json) : bool :=
  match j with JArr _ => true | _ => false end.

Definition is_string (j : json) : bool :=
  match j with JStr _ => true | _ => false end.

(** The node reached from [root] along own properties. *)
Fixpoint get_path (root : json) (p : path) : option json :=
  match p with
  | [] => Some root
  | k :: r =>
      match get_prop root k with
      | Some j => get_path j r
      | None => None
      end
  end.

(** The members an object inherits: those of [Object.prototype] in the
    language and its Annex B, and the ones engines have had besides. *)
Definition object_members : list string :=
  ["constructor"; "hasOwnProperty"; "isPrototypeOf"; "propertyIsEnumerable";
   "toLocaleString"; "toString"; "valueOf"; "toSource"; "watch"; "unwatch";
   "eval"].

(** Whether [o[k]], for a [k] that is not an own property of [o], may find
    an inherited member.  An object inherits the members above and names
    that begin with two underscores ([__proto__], [__defineGetter__], ...).
    An array, a string, a number or a boolean inherits from a prototype
    whose members differ between engines and that libraries extend
    ([colour] adds its styles to strings), so every name but an index
    counts. *)
Definition may_inherit (o : json) (k : string) : bool :=
  match o with
  | JNull => false
  | JObj _ =>
      existsb (String.eqb k) object_members
      || match Str.starts_with "__" k with Some _ => true | None => false end
  | _ => match array_index k with Some _ => false | None => true end
  end.

(** [reads_own root fragments]: the walk along [fragments] from [root], as
    far as it goes, reads own properties only: where a fragment names no own
    property of the node it is read from, it names no inherited member
    either.  For such a walk [get_prop] is what [val[i]] finds. *)
Fixpoint reads_own (root : json) (fragments : list string) : bool :=
  match fragments with
  | [] => true
  | k :: r =>
      match get_prop root k with
      | Some v => if truthy v then reads_own v r else true
      | None => negb (may_inherit root k)
      end
  end.

Fixpoint assoc_set (k : string) (x : json) (kvs : list (string * json))
  : list (string * json) :=
  match kvs with
  | [] => []
  | (k', v) :: r =>
      if String.eqb k k' then (k', x) :: r else (k', v) :: assoc_set k x r
  end.

Fixpoint list_set (n : nat) (x : json) (l : list json) : list json :=
  match l, n with
  | [], _ => []
  | _ :: r, O => x :: r
  | a :: r, S n' => a :: list_set n' x r
  end.

(** [o[k] = x] for an own property [k] of an object or array [o]. *)
Definition set_prop (o : json) (k : string) (f : json -> json) : json :=
  match o with
  | JObj kvs =>
      match assoc k kvs with
      | Some v => JObj (assoc_set k (f v) kvs)
      | None => o
      end
  | JArr l =>
      match array_index k with
      | Some n =>
          match nth_error l n with
          | Some v => JArr (list_set n (f v) l)
          | None => o
          end
      | None => o
      end
  | _ => o
  end.

(** The store after the node at [p] has been replaced by [x]. *)
Fixpoint set_path (root : json) (p : path) (x : json) : json :=
  match p with
  | [] => x
  | k :: r => set_prop root k (fun child => set_path child r x)
  end.

End Js.

(** ** The regular expressions of the builder *)

Module Regex.

(** The class [[a-z\.-]] under the [i] flag. *)
Definition is_path_char (c : ascii) : bool :=
  Str.is_lower c || Str.is_upper c || Ascii.eqb c "." || Ascii.eqb c "-".

(** The longest run of class characters at the head of [s], and what follows. *)
Fixpoint take_path (s : string) : string * string :=
  match s with
  | EmptyString => (EmptyString, EmptyString)
  | String c r =>
      if is_path_char c
      then let (g, rest) := take_path r in (String c g, rest)
      else (EmptyString, s)
  end.

(** A match of [\$\{([a-z\.-]+)\}] that starts at the head of [s]: group 1.
    The class excludes the closing brace, so the greedy run is the only
    candidate. *)
Definition match_here (s : string) : option string :=
  match Str.starts_with "${" s with
  | Some r =>
      let (g, rest) := take_path r in
      if Str.is_empty g then None
      else match Str.starts_with "}" rest with
           | Some _ => Some g
           | None => None
           end
  | None => None
  end.

(** [new RegExp('\\$\{([a-z\.-]+)\}', 'i').exec(s)]: the leftmost match as
    the pair of [search[0]] and [search[1]]; [None] is [null]. *)
Fixpoint exec (s : string) : option (string * string) :=
  match match_here s with
  | Some g => Some ("${" +:+ g +:+ "}", g)
  | None =>
      match s with
      | EmptyString => None
      | String _ r => exec r
      end
  end.

(** The punctuation of [/[-\\^$*+?.()|[\]{}]/]. *)
Definition is_special (c : ascii) : bool :=
  existsb (Ascii.eqb c) (list_ascii_of_string "-\^$*+?.()|[]{}").

(** The characters that are syntax in a pattern. *)
Definition is_syntax (c : ascii) : bool :=
  existsb (Ascii.eqb c) (list_ascii_of_string "\^$.*+?()[]{}|").

(** A pattern in which every character stands for itself: it is made of
    characters that are not syntax and of punctuation behind a backslash,
    an escape that denotes the character escaped. *)
Fixpoint is_literal_pattern (p : string) : bool :=
  match p with
  | EmptyString => true
  | String c r =>
      if Ascii.eqb c "\"
      then match r with
           | EmptyString => false
           | String c' r' => is_special c' && is_literal_pattern r'
           end
      else negb (is_syntax c) && is_literal_pattern r
  end.

(** The source text of [new RegExp(p, 'g')] for a pattern [p] made of plain
    characters and backslash-escaped punctuation: the literal it matches. *)
Fixpoint literal_of_pattern (p : string) : string :=
  match p with
  | EmptyString => EmptyString
  | String c r =>
      if Ascii.eqb c "\"
      then match r with
           | EmptyString => EmptyString
           | String c' r' => String c' (literal_of_pattern r')
           end
      else String c (literal_of_pattern r)
  end.

(** GetSubstitution for a pattern without capture groups: [$$], [$&],
    [$`] and [$'] are replacement patterns, any other [$] stands for
    itself. *)
Fixpoint get_substitution (matched before after templ : string) : string :=
  match templ with
  | EmptyString => EmptyString
  | String c r =>
      if Ascii.eqb c "$"
      then match r with
           | EmptyString => String c EmptyString
           | String d r' =>
               if Ascii.eqb d "$"
               then String "$" (get_substitution matched before after r')
               else if Ascii.eqb d "&"
               then matched +:+ get_substitution matched before after r'
               else if Ascii.eqb d "`"
               then before +:+ get_substitution matched before after r'
               else if Ascii.eqb d "'"
               then after +:+ get_substitution matched before after r'
               else String c (get_substitution matched before after r)
           end
      else String c (get_substitution matched before after r)
  end.

(** [s.replace(new RegExp(p, 'g'), templ)] where [p] denotes the non-empty
    literal [lit]: every occurrence, left to right and without overlap, is
    replaced by the substitution of [templ].  [skip] counts the characters
    of the current occurrence still to pass over, [before] is the text of
    [s] already passed. *)
Fixpoint replace_scan (lit templ : string) (skip : nat) (before s : string)
  : string :=
  match s with
  | EmptyString => EmptyString
  | String c r =>
      match skip with
      | S k => replace_scan lit templ k (before +:+ String c EmptyString) r
      | O =>
          match Str.starts_with lit s with
          | Some after =>
              get_substitution lit before after templ
                +:+ replace_scan lit templ (String.length lit - 1)
                     (before +:+ String c EmptyString) r
          | None =>
              String c (replace_scan lit templ 0 (before +:+ String c EmptyString) r)
          end
      end
  end.

Definition replace_all (lit templ s : string) : string :=
  replace_scan lit templ 0 EmptyString s.

End Regex.

(** ** [JSON.stringify] *)

Module Json.

Definition dquote : string := String "034"%char EmptyString.

Definition hex_digit (n : nat) : ascii :=
  if (n <? 10)%nat then ascii_of_nat (48 + n) else ascii_of_nat (87 + n).

(** QuoteJSONString, one character. *)
Definition escape_char (c : ascii) : string :=
  let n := nat_of_ascii c in
  if (n =? 34)%nat then "\" +:+ dquote
  else if (n =? 92)%nat then "\\"
  else if (n =? 8)%nat then "\b"
  else if (n =? 12)%nat then "\f"
  else if (n =? 10)%nat then "\n"
  else if (n =? 13)%nat then "\r"
  else if (n =? 9)%nat then "\t"
  else if (n <? 32)%nat
  then "\u00" +:+ String (hex_digit (n / 16)) (String (hex_digit (n mod 16)) EmptyString)
  else String c EmptyString.

Fixpoint escape (s : string) : string :=
  match s with
  | EmptyString => EmptyString
  | String c r => escape_char c +:+ escape r
  end.

Definition quote (s : string) : string := dquote +:+ escape s +:+ dquote.

Fixpoint stringify (j : json) : string :=
  match j with
  | JNull => "null"
  | JBool true => "true"
  | JBool false => "false"
  | JNum n => Str.of_Z n
  | JStr s => quote s
  | JArr l => "[" +:+ Str.join "," (List.map stringify l) +:+ "]"
  | JObj kvs =>
      "{" +:+ Str.join ","
               (List.map (fun kv => quote (fst kv) +:+ ":" +:+ stringify (snd kv)) kvs)
          +:+ "}"
  end.

End Json.

(** ** Exceptions, the logger, and the state of a builder *)

Record exn : Type := Exn { e_name : string; e_message : string }.

(** [new Error('Resolution error for index (' + idx + ') at fragment ' + i)] *)
Definition ResolutionError (idx i : string) : exn :=
  Exn "Error" ("Resolution error for index (" +:+ idx +:+ ") at fragment " +:+ i).

Definition TypeError (msg : string) : exn := Exn "TypeError" msg.

Definition ReferenceError (ident : string) : exn :=
  Exn "ReferenceError" (ident +:+ " is not defined").

(** The call stack is exhausted. *)
Definition StackOverflow : exn :=
  Exn "RangeError" "Maximum call stack size exceeded".

(** The methods of the logger, with the severity [DefaultLogger] gives to
    its writers. *)
Inductive level : Type := Debug | Info | Warning | Error | Critical | Emergency.

Definition severity (l : level) : Z :=
  match l with
  | Debug => -1
  | Info => 0
  | Warning => 1
  | Error => 2
  | Critical => 3
  | Emergency => 4
  end.

Record log_event : Type :=
  Log { log_level : level; log_message : string; log_replacements : list string }.

Record state : Type := State {
  configObject : json;
  configCached : gmap string jsvalue;
  logged : list log_event          (* the calls received by [this.logger] *)
}.

Inductive outcome (A : Type) : Type :=
| Return (a : A)
| Throw (e : exn).
Arguments Return {A} a.
Arguments Throw {A} e.

(** A computation: it ends by returning or by throwing, and the state it
    leaves behind is there in both cases. *)
Definition M (A : Type) : Type := state -> outcome A * state.

Definition ret {A} (a : A) : M A := fun st => (Return a, st).

Definition throw {A} (e : exn) : M A := fun st => (Throw e, st).

Definition bind {A B} (m : M A) (k : A -> M B) : M B :=
  fun st =>
    match m st with
    | (Return a, st') => k a st'
    | (Throw e, st') => (Throw e, st')
    end.

Definition try_catch {A} (m : M A) (handler : exn -> M A) : M A :=
  fun st =>
    match m st with
    | (Return a, st') => (Return a, st')
    | (Throw e, st') => handler e st'
    end.

Declare Scope js_scope.
Delimit Scope js_scope with js.
Notation "x <- m ;; k" := (bind m (fun x => k))
  (at level 100, m at next level, right associativity) : js_scope.
Notation "m ;;; k" := (bind m (fun _ => k))
  (at level 100, right associativity) : js_scope.
Local Open Scope js_scope.

Definition get_config : M json := fun st => (Return (configObject st), st).

Definition set_config (j : json) : M unit :=
  fun st => (Return tt, State j (configCached st) (logged st)).

Definition get_cache : M (gmap string jsvalue) :=
  fun st => (Return (configCached st), st).

Definition set_cache (c : gmap string jsvalue) : M unit :=
  fun st => (Return tt, State (configObject st) c (logged st)).

Definition log (l : level) (message : string) (replacements : list string)
  : M unit :=
  fun st =>
    (Return tt,
     State (configObject st) (configCached st)
           (logged st ++ [Log l message replacements])).

(** [for (x of xs) body(x)], also [xs.forEach(body)]. *)
Fixpoint for_each {A} (xs : list A) (body : A -> M unit) : M unit :=
  match xs with
  | [] => ret tt
  | x :: r => body x ;;; for_each r body
  end.

(** [xs.map(f)] *)
Fixpoint map_m {A B} (f : A -> M B) (xs : list A) : M (list B) :=
  match xs with
  | [] => ret []
  | x :: r => y <- f x ;; ys <- map_m f r ;; ret (y :: ys)
  end.

(** The node a reference designates.  A reference is made by [resolveValue]
    from a node that exists, and the shape of the tree never changes, so the
    error below is never thrown ([references_are_kept]). *)
Definition deref (p : path) : M json :=
  root <- get_config ;;
  match Js.get_path root p with
  | Some j => ret j
  | None => throw (TypeError "dangling reference")
  end.

(** [v.toString()]: [null] has no method. *)
Definition toString (v : json) : M string :=
  match v with
  | JNull => throw (TypeError "Cannot read property 'toString' of null")
  | _ => ret (Js.to_string v)
  end.

(** ToString of a value, as [+] and [String.prototype.replace] apply it. *)
Definition string_of_value (v : jsvalue) : M string :=
  match v with
  | VUndef => ret "undefined"
  | VJson j => ret (Js.to_string j)
  | VRef p => j <- deref p ;; ret (Js.to_string j)
  end.

(** [a + b] where one operand is a string, an array or an object: every
    sum of the builder adds to a value returned by [value], which is one of
    these, so [+] concatenates. *)
Definition js_add (a b : jsvalue) : M jsvalue :=
  sa <- string_of_value a ;;
  sb <- string_of_value b ;;
  ret (VJson (JStr (sa +:+ sb))).

(** ** [ConfigBuilder] *)

Module ConfigBuilder.

Definition configFileDefault : string := "./.gulp/default-config.json".

(** The state the constructor sets up before it loads a file. *)
Definition initial : state := State (JObj []) ∅ [].

Definition regexQuote (val : string) : string :=
  Str.concat_all
    (List.map (fun c => if Regex.is_special c
                        then String "\" (String c EmptyString)
                        else String c EmptyString)
              (list_ascii_of_string val)).

(** *** Cache keys *)

Definition buildIndex (ctx : option string) (idx : string) : string :=
  match ctx with
  | Some c => if Js.truthy (JStr c) then c +:+ "." +:+ idx else idx
  | None => idx
  end.

(** ['__' + i + '_' + JSON.stringify(k)]; an argument left out is
    [undefined], which [JSON.stringify] returns as it is. *)
Definition cache_fragment (i : nat) (k : option json) : string :=
  "__" +:+ Str.of_Z (Z.of_nat i) +:+ "_"
    +:+ match k with Some j => Json.stringify j | None => "undefined" end.

Fixpoint cache_fragments (i : nat) (args : list (option json)) (key : string)
  : string :=
  match args with
  | [] => key
  | k :: r => cache_fragments (S i) r (key +:+ cache_fragment i k)
  end.

Definition buildCacheIndex (args : list (option json)) : string :=
  Str.strip_non_word (cache_fragments 0 args "cache").

Definition lookupCachedValue (idx : string) (opt : option json) : M jsvalue :=
  let key := buildCacheIndex [Some (JStr idx); opt] in
  cached <- get_cache ;;
  match cached !! key with
  | Some v => if Js.truthy_value v then ret v else ret (VJson JNull)
  | None => ret (VJson JNull)
  end.

Definition assignCachedValue (idx : string) (opt : option json) (val : jsvalue)
  : M unit :=
  let key := buildCacheIndex [Some (JStr idx); opt] in
  cached <- get_cache ;;
  set_cache (<[key := val]> cached).

(** *** Lookup *)

(** [val = val[i]]: [null] has no properties. *)
Definition read_property (val : json) (i : string) : exn + option json :=
  match val with
  | JNull => inl (TypeError ("Cannot read property '" +:+ i +:+ "' of null"))
  | _ => inr (Js.get_prop val i)
  end.

(** The body of [forEach] in [resolveValue], from the node [val] found at
    [at_] on: the node at the end of the path and where it is. *)
Fixpoint resolveValue_from (idx : string) (val : json) (at_ : path)
  (fragments : list string) : exn + (json * path) :=
  match fragments with
  | [] => inr (val, at_)
  | i :: rest =>
      match read_property val i with
      | inl e => inl e
      | inr (Some v) =>
          if Js.truthy v then resolveValue_from idx v (at_ ++ [i]) rest
          else inl (ResolutionError idx i)
      | inr None => inl (ResolutionError idx i)
      end
  end.

Definition resolveValue (idx : string) : M (json * path) :=
  root <- get_config ;;
  match resolveValue_from idx root [] (Str.split_dot idx) with
  | inl e => throw e
  | inr node => ret node
  end.

Definition maxIterations : nat := 20.

Definition write_at (p : path) (x : json) : M unit :=
  root <- get_config ;;
  set_config (Js.set_path root p x).

Section Replacements.

(** [this::lookup] and [this::resolveReplacementsForObject], called from one
    frame further down the stack. *)
Variable lookup_rec : string -> M jsvalue.
Variable object_rec : path -> M jsvalue.

(** The [while (true)] loop of [resolveReplacementsForScalar].  A match has
    two entries, so [search.length < 2] is false; [i++ > maxIterations]
    lets [i = 0 .. maxIterations] through.  [gas] is [maxIterations + 1 - i]
    and is what the recursion descends on. *)
Fixpoint scalar_loop (gas i : nat) (parsed : string) : M string :=
  match Regex.exec parsed with
  | None => ret parsed
  | Some (token, target) =>
      if (maxIterations <? i)%nat then ret parsed
      else
        match gas with
        | O => ret parsed
        | S gas' =>
            replace <- lookup_rec target ;;
            parsed' <-
              (if Js.truthy_value replace
               then templ <- string_of_value replace ;;
                    ret (Regex.replace_all
                           (Regex.literal_of_pattern (regexQuote token))
                           templ parsed)
               else ret parsed) ;;
            scalar_loop gas' (S i) parsed'
        end
  end.

Definition resolveReplacementsForScalar (val : json) : M string :=
  parsed <- toString val ;;
  scalar_loop (S maxIterations) 0 parsed.

Definition resolveReplacementsForArray (val : json) : M json :=
  match val with
  | JArr l =>
      l' <- map_m resolveReplacementsForScalar l ;;
      ret (JArr (List.map JStr l'))
  | _ => throw (TypeError "val.map is not a function")
  end.

(** The body of [resolveReplacementsForObject] for the node at [at_], which
    is read again at every property because the lookups in between write to
    the same tree.  A nested object is the same object after the recursive
    call, so [val[property] = ...] stores what is there. *)
Definition resolveReplacementsForObject_body (at_ : path) : M jsvalue :=
  val <- deref at_ ;;
  for_each (Js.own_property_names val) (fun property =>
    val <- deref at_ ;;
    match Js.get_prop val property with
    | Some v =>
        if Js.is_object v
        then object_rec (at_ ++ [property]) ;;; ret tt
        else if Js.is_array v
        then v' <- resolveReplacementsForArray v ;;
             write_at (at_ ++ [property]) v'
        else if Js.is_string v
        then s <- resolveReplacementsForScalar v ;;
             write_at (at_ ++ [property]) (JStr s)
        else ret tt
    | None => ret tt
    end) ;;;
  ret (VRef at_).

(** [val] is the node [resolveValue] found at [at_]. *)
Definition resolveReplacements (val : json) (at_ : path) : M jsvalue :=
  if Js.is_object val then object_rec at_
  else if Js.is_array val
  then v' <- resolveReplacementsForArray val ;; ret (VJson v')
  else s <- resolveReplacementsForScalar val ;; ret (VJson (JStr s)).

End Replacements.

Definition resolving : string := "Resolving " +:+ Json.dquote +:+ "%s" +:+ Json.dquote.

(** [fuel] is the number of frames left on the stack; a call of [lookup] or
    of [resolveReplacementsForObject] takes one. *)
Fixpoint lookup (fuel : nat) (idx : string) : M jsvalue :=
  match fuel with
  | O => throw StackOverflow
  | S fuel' =>
      log Debug resolving [idx] ;;;
      node <- resolveValue idx ;;
      resolveReplacements (lookup fuel') (resolveReplacementsForObject fuel')
        (fst node) (snd node)
  end
with resolveReplacementsForObject (fuel : nat) (at_ : path) : M jsvalue :=
  match fuel with
  | O => throw StackOverflow
  | S fuel' =>
      resolveReplacementsForObject_body
        (lookup fuel') (resolveReplacementsForObject fuel') at_
  end.

(** *** Decoration *)

(** [opt && opt.k] when it is truthy. *)
Definition option_field (opt : option json) (k : string) : option json :=
  match opt with
  | Some o =>
      if Js.truthy o
      then match Js.get_prop o k with
           | Some v => if Js.truthy v then Some v else None
           | None => None
           end
      else None
  | None => None
  end.

Definition applyOptionsOnScalar (val : jsvalue) (opt : option json) : M jsvalue :=
  val <- match option_field opt "pre" with
         | Some pre => js_add (VJson pre) val
         | None => ret val
         end ;;
  val <- match option_field opt "post" with
         | Some post => js_add val (VJson post)
         | None => ret val
         end ;;
  ret val.

(** The structure a value stands for: its own, or what the store holds. *)
Definition contents (val : jsvalue) : M (option json) :=
  match val with
  | VUndef => ret None
  | VJson j => ret (Some j)
  | VRef p => j <- deref p ;; ret (Some j)
  end.

Definition applyOptionsOnArray (val : jsvalue) (opt : option json) : M jsvalue :=
  c <- contents val ;;
  match c with
  | Some (JArr l) =>
      l' <- map_m (fun v => s <- toString v ;;
                            r <- applyOptionsOnScalar (VJson (JStr s)) opt ;;
                            string_of_value r) l ;;
      ret (VJson (JArr (List.map JStr l')))
  | _ => throw (TypeError "val.map is not a function")
  end.

Definition applyOptions (val : jsvalue) (opt : option json) : M jsvalue :=
  c <- contents val ;;
  match c with
  | Some (JArr _) => applyOptionsOnArray val opt
  | _ => applyOptionsOnScalar val opt
  end.

(** *** The public methods *)

Definition value (fuel : nat) (ctx : option string) (idx : string)
  (opt : option json) : M jsvalue :=
  let idx := buildIndex ctx idx in
  val <- lookupCachedValue idx opt ;;
  if Js.truthy_value val then ret val
  else
    val <- lookup fuel idx ;;
    val <- applyOptions val opt ;;
    assignCachedValue idx opt val ;;;
    ret val.

(** The loop of [build] from the accumulator [value] on. *)
Fixpoint build_from (fuel : nat) (ctx : option string) (indexes : list string)
  (acc : jsvalue) : M jsvalue :=
  match indexes with
  | [] => ret acc
  | idx :: rest =>
      v <- value fuel ctx idx None ;;
      acc' <- js_add acc v ;;
      build_from fuel ctx rest acc'
  end.

Definition build (fuel : nat) (ctx : option string) (indexes : list string)
  : M jsvalue :=
  build_from fuel ctx indexes VUndef.

(** *** Loading *)

(** What the file system holds at a path. *)
Inductive fs_node : Type :=
| NoEntry                    (* nothing there *)
| NotRegular                 (* a directory or another special file *)
| Unreadable                 (* a regular file that cannot be read *)
| Malformed (msg : string)   (* a regular file that is not JSON *)
| Document (j : json).       (* a regular file holding the document [j] *)

Definition filesystem : Type := string -> fs_node.

(** [fs.statSync(file).isFile()] *)
Definition statSync_isFile (fs : filesystem) (file : string) : M bool :=
  match fs file with
  | NoEntry =>
      throw (Exn "Error" ("ENOENT: no such file or directory, stat '" +:+ file +:+ "'"))
  | NotRegular => ret false
  | _ => ret true
  end.

Definition readAndParseConfig (fs : filesystem) (file : string) : M json :=
  match fs file with
  | NoEntry =>
      throw (Exn "Error" ("ENOENT: no such file or directory, open '" +:+ file +:+ "'"))
  | NotRegular =>
      throw (Exn "Error" "EISDIR: illegal operation on a directory, read")
  | Unreadable =>
      throw (Exn "Error" ("EACCES: permission denied, open '" +:+ file +:+ "'"))
  | Malformed msg => throw (Exn "SyntaxError" msg)
  | Document j => ret j
  end.

Definition loaded_message : string :=
  "Loaded %s configuration file: " +:+ Json.dquote +:+ "%s" +:+ Json.dquote.

Definition unable_message : string :=
  "Unable to load %s config file " +:+ Json.dquote +:+ "%s" +:+ Json.dquote
    +:+ ": [%s] %s".

Definition loadConfigFile (fs : filesystem) (file context : string) : M bool :=
  try_catch
    (j <- readAndParseConfig fs file ;;
     set_config j ;;;
     log Info loaded_message [context; file] ;;;
     ret true)
    (fun e =>
       log Error unable_message [context; file; e_name e; e_message e] ;;;
       ret false).

(** [file] is [None] when the caller passes nothing, which the default
    parameter turns into [false]. *)
Definition loadConfig (fs : filesystem) (file : option string) : M unit :=
  file <- match file with
          | None => ret "./.gulp.json"
          | Some f =>
              is_file <- statSync_isFile fs f ;;
              ret (if is_file then f else "./.gulp.json")
          end ;;
  loaded <- loadConfigFile fs file "user" ;;
  if loaded then ret tt
  else
    loaded <- loadConfigFile fs configFileDefault "default" ;;
    if loaded then ret tt
    else log Emergency "Could not load user config or default config files." [].

(** [new ConfigBuilder(configFile, logger)] *)
Definition construct (fs : filesystem) (configFile : option string)
  : outcome unit * state :=
  loadConfig fs configFile initial.

End ConfigBuilder.

(** ** [ConfigFetcher] *)

Module ConfigFetcher.

(** The reader is the builder; its state is the state threaded here. *)

Definition glob (fuel : nat) (index : string) (options : option json) : M jsvalue :=
  ConfigBuilder.value fuel (Some "globs") index options.

Definition path (fuel : nat) (index : string) (options : option json) : M jsvalue :=
  ConfigBuilder.value fuel (Some "paths") index options.

Definition file (fuel : nat) (index : string) (options : option json) : M jsvalue :=
  ConfigBuilder.value fuel (Some "files") index options.

Definition option (fuel : nat) (index : string) (options : Datatypes.option json)
  : M jsvalue :=
  ConfigBuilder.value fuel (Some "options") index options.

(** The elements an argument of [Array.prototype.concat] contributes: those
    of an array, or the argument itself. *)
Definition spread (item : jsvalue) : M (list jsvalue) :=
  c <- ConfigBuilder.contents item ;;
  match c, item with
  | Some (JArr l), VRef p =>
      ret (List.map (fun ie => if Js.is_object (snd ie)
                               then VRef (p ++ [Str.of_Z (Z.of_nat (fst ie))])
                               else VJson (snd ie))
                    (combine (seq 0 (List.length l)) l))
  | Some (JArr l), _ => ret (List.map VJson l)
  | _, _ => ret [item]
  end.

(** [Array.prototype.concat(...items)] *)
Definition concat (items : list jsvalue) : M (list jsvalue) :=
  parts <- map_m spread items ;;
  ret (List.concat parts).

(** [indexes.map(accessor.bind(this))]: [map] hands the callback an element
    and its position, which the accessor takes for its options. *)
Definition map_accessor
  (accessor : string -> Datatypes.option json -> M jsvalue)
  (indexes : list string) : M (list jsvalue) :=
  map_m (fun ie => accessor (snd ie) (Some (JNum (Z.of_nat (fst ie)))))
        (combine (seq 0 (List.length indexes)) indexes).

Definition globs (fuel : nat) (indexes : list string) : M (list jsvalue) :=
  results <- map_accessor (glob fuel) indexes ;;
  concat results.

Definition paths (fuel : nat) (indexes : list string) : M (list jsvalue) :=
  results <- map_accessor (path fuel) indexes ;;
  concat results.

Definition files (fuel : nat) (indexes : list string) : M (list jsvalue) :=
  results <- map_accessor (file fuel) indexes ;;
  concat results.

(** The value of an identifier in a scope; a name that no scope binds is a
    ReferenceError in module code. *)
Fixpoint identifier (scope : list (string * jsvalue)) (name : string)
  : M jsvalue :=
  match scope with
  | [] => throw (ReferenceError name)
  | (n, v) :: r => if String.eqb n name then ret v else identifier r name
  end.

(** [options (idx, opt)]: the parameters are the only bindings of the
    method, and the module declares nothing but the class. *)
Definition options (fuel : nat) (idx opt : jsvalue) : M (list jsvalue) :=
  let scope := [("idx", idx); ("opt", opt)] in
  idxs <- identifier scope "idxs" ;;
  c <- ConfigBuilder.contents idxs ;;
  match c with
  | Some (JArr l) =>
      results <- map_accessor (option fuel) (List.map Js.to_string l) ;;
      concat results
  | _ => throw (TypeError "idxs.map is not a function")
  end.

Definition buildGlob (fuel : nat) (indexes : list string) : M jsvalue :=
  ConfigBuilder.build fuel (Some "globs") indexes.

Definition buildPath (fuel : nat) (indexes : list string) : M jsvalue :=
  ConfigBuilder.build fuel (Some "paths") indexes.

Definition buildFile (fuel : nat) (indexes : list string) : M jsvalue :=
  ConfigBuilder.build fuel (Some "files") indexes.

Definition buildOption (fuel : nat) (indexes : list string) : M jsvalue :=
  ConfigBuilder.build fuel (Some "options") indexes.

End ConfigFetcher.

(** ** Comparing a number with a value *)

Module Compare.

(** White space of the ASCII range. *)
Definition is_space (c : ascii) : bool :=
  let n := nat_of_ascii c in
  ((9 <=? n)%nat && (n <=? 13)%nat) || (n =? 32)%nat.

(** A character that a string spelling a number can hold: white space, a
    digit, a sign, the point, a letter of an exponent, of a radix prefix, of
    a hexadecimal digit or of [Infinity]; a byte beyond ASCII may be part of
    white space. *)
Definition is_numeric_char (c : ascii) : bool :=
  is_space c || Str.is_digit c
  || existsb (Ascii.eqb c) (list_ascii_of_string "+-.eExXoObBaAcCdDfFInity")
  || (128 <=? nat_of_ascii c)%nat.

Fixpoint all_numeric (s : string) : bool :=
  match s with
  | EmptyString => true
  | String c r => is_numeric_char c && all_numeric r
  end.

Fixpoint all_space (s : string) : bool :=
  match s with
  | EmptyString => true
  | String c r => is_space c && all_space r
  end.

Fixpoint drop_space (s : string) : string :=
  match s with
  | EmptyString => EmptyString
  | String c r => if is_space c then drop_space r else s
  end.

(** Digits, then white space to the end. *)
Fixpoint read_digits (acc : Z) (s : string) : option Z :=
  match s with
  | EmptyString => Some acc
  | String c r =>
      if Str.is_digit c
      then read_digits (10 * acc + (Z.of_nat (nat_of_ascii c) - 48)) r
      else if all_space s then Some acc else None
  end.

Definition read_unsigned (s : string) : option Z :=
  match s with
  | String c _ => if Str.is_digit c then read_digits 0 s else None
  | EmptyString => None
  end.

(** ToNumber of a string; [None] is [NaN].  A string with a character that
    no number is spelt with is [NaN]; white space alone is zero; a decimal
    integer is its value.  The other spellings (fractions, exponents, radix
    prefixes, [Infinity]) denote numbers that are not integers of the model
    and are not covered. *)
Definition string_to_number (s : string) : option Z :=
  if all_numeric s
  then match drop_space s with
       | EmptyString => Some 0%Z
       | String c r =>
           if Ascii.eqb c "-" then option_map Z.opp (read_unsigned r)
           else if Ascii.eqb c "+" then read_unsigned r
           else read_unsigned (String c r)
       end
  else None.

(** ToNumber, after ToPrimitive for an array or an object. *)
Definition to_number (v : json) : option Z :=
  match v with
  | JNull => Some 0%Z
  | JBool b => Some (if b then 1 else 0)%Z
  | JNum n => Some n
  | JStr s => string_to_number s
  | JArr _ | JObj _ => string_to_number (Js.to_string v)
  end.

(** [level >= v] for a number [level]: false when [v] is not a number. *)
Definition ge (level : Z) (v : json) : bool :=
  match to_number v with
  | Some r => (r <=? level)%Z
  | None => false
  end.

End Compare.

(** ** [DefaultLogger], its formatter and its writers *)

Module DefaultLogger.

(** [WriterStdIO] and [WriterFile] *)
Inductive sink : Type := StdIO | File.

(** A writer.  [output] is what it has handed on: the lines given to
    [console.log], or the data given to [fs.write] for [handle]. *)
Record writer : Type := Writer {
  target : sink;
  closed : bool;
  levelRequired : json;
  handle_open : bool;
  output : list string
}.

Definition isOpen (w : writer) : bool := negb (closed w).

Definition isClosed (w : writer) : bool := closed w.

Definition setLogOpen (w : writer) : writer :=
  Writer (target w) false (levelRequired w) (handle_open w) (output w).

Definition setLogClosed (w : writer) : writer :=
  Writer (target w) true (levelRequired w) (handle_open w) (output w).

Definition meetsRequirement (w : writer) (level : Z) : bool :=
  Compare.ge level (levelRequired w).

Definition setRequirement (w : writer) (level : json) : writer :=
  Writer (target w) (closed w) level (handle_open w) (output w).

(** [new WriterStdIO(levelRequired = -1)] *)
Definition WriterStdIO (levelRequired : option json) : writer :=
  setLogOpen
    (setRequirement (Writer StdIO false JNull false [])
       (match levelRequired with Some l => l | None => JNum (-1) end)).

(** [new WriterFile(levelRequired = -1, filePath)], once [openFile] has
    opened the handle; which file that is, is not part of the model. *)
Definition WriterFile (levelRequired : option json) : writer :=
  setLogOpen
    (Writer File false (match levelRequired with Some l => l | None => JNum (-1) end)
       true []).

Definition WriterStdIO_write (w : writer) (message : string) (level : Z) : writer :=
  if negb (isOpen w) then w
  else if negb (meetsRequirement w level) then w
  else Writer (target w) (closed w) (levelRequired w) (handle_open w)
              (output w ++ [message]).

(** [fs.write(this.handle, text + "\n")] *)
Definition writeLine (w : writer) (text : string) : writer :=
  Writer (target w) (closed w) (levelRequired w) (handle_open w)
         (output w ++ [text +:+ String "010"%char EmptyString]).

Definition WriterFile_write (w : writer) (message : string) (level : Z) : writer :=
  if negb (isOpen w) then w
  else if negb (meetsRequirement w level) then w
  else writeLine w message.

(** [writer.write(message, level)] *)
Definition write (w : writer) (message : string) (level : Z) : writer :=
  match target w with
  | StdIO => WriterStdIO_write w message level
  | File => WriterFile_write w message level
  end.

(** [fs.closeSync(this.handle)] *)
Definition closeFile (w : writer) : outcome writer :=
  if handle_open w
  then Return (Writer (target w) (closed w) (levelRequired w) false (output w))
  else Throw (Exn "Error" "EBADF: bad file descriptor, close").

(** [writer.close()] *)
Definition close (w : writer) : outcome writer :=
  match target w with
  | StdIO => Return (setLogClosed w)
  | File => closeFile w
  end.

(** The logger with the proxy and the formatter it owns.  [readings] counts
    the times the clock has been read. *)
Record logger : Type := Logger {
  verbosity : Z;
  color : bool;
  writers : list writer;
  readings : nat
}.

Definition setVerbosity (lg : logger) (level : Z) : logger :=
  Logger level (color lg) (writers lg) (readings lg).

Definition isSilent (lg : logger) : bool := (verbosity lg <? -2)%Z.

Definition isVeryQuiet (lg : logger) : bool := (verbosity lg <? -1)%Z.

Definition isQuiet (lg : logger) : bool := (verbosity lg <? 0)%Z.

Definition isVerbose (lg : logger) : bool := (0 <? verbosity lg)%Z.

Definition isVeryVerbose (lg : logger) : bool := (1 <? verbosity lg)%Z.

Definition isDebug (lg : logger) : bool := (2 <? verbosity lg)%Z.

(** [new DefaultLogger(verbosity = 0, logFile = "/tmp/gulp-runner.log")]:
    the file writer is given [logFile] as its first argument. *)
Definition construct (verbosity : option Z) (logFile : option string) : logger :=
  let verbosity := match verbosity with Some v => v | None => 0%Z end in
  let logFile := match logFile with Some f => f | None => "/tmp/gulp-runner.log" end in
  Logger verbosity true [WriterStdIO None; WriterFile (Some (JStr logFile))] 0.

(** [s.slice(-n)]: the last [n] characters, all of [s] if it has fewer. *)
Fixpoint drop (n : nat) (s : string) : string :=
  match n, s with
  | S n', String _ r => drop n' r
  | _, _ => s
  end.

Definition slice_from_end (n : nat) (s : string) : string :=
  drop (String.length s - n) s.

(** [a[i]] as text: [undefined] outside the array. *)
Definition element (a : list string) (i : Z) : string :=
  if (i <? 0)%Z then "undefined" else nth (Z.to_nat i) a "undefined".

Definition strings : list string :=
  ["DEBUG"; "INFO"; "WARN"; "ERROR"; "CRIT"; "EMERGENCY"].

Definition symbols : list string :=
  ["---"; "---"; "-!-"; "!!!"; "-#-"; "###"].

(** The name of a level as it is printed. *)
Definition label (level : Z) : string :=
  slice_from_end 5 ("     " +:+ element strings (level + 1)).

Section Formatter.

(** The libraries the formatter calls: [sprintf] of sprintf-js, which
    throws for a format it cannot read or an argument of the wrong kind; the
    clock read through [dateFormat(new Date(), 'HH:MM:ss')], where [clock n]
    is the text of the [n]-th reading; and [colors style text] for the call
    [colors.style(text)] of a style that [colour] has as a function of a
    text: [white], [gray], [magenta], [blue], [yellow], [red]. *)
Variable sprintf : string -> list string -> outcome string.
Variable clock : nat -> string.
Variable colors : string -> string -> string.

Definition formatMessage (color : bool) (message : string)
  (replacements : list string) : outcome string :=
  match sprintf message replacements with
  | Return message => Return (if color then colors "white" message else message)
  | Throw e => Throw e
  end.

Definition formatTime (color : bool) (reading : nat) : string :=
  let time := clock reading in
  if color then colors "gray" time else time.

(** The call of something that is [undefined]. *)
Definition not_a_function (callee : string) : exn :=
  TypeError (callee +:+ " is not a function").

(** A style of [colour] is a function of a text and has no member [bold]:
    [colors.red.bold] and [colors.yellow.bold] are [undefined], and the
    calls made of them for the levels [3] and [4] throw. *)
Definition colorizeLevel (text : string) (level : Z) : outcome string :=
  if (level =? -1)%Z then Return (colors "magenta" text)
  else if (level =? 0)%Z then Return (colors "blue" text)
  else if (level =? 1)%Z then Return (colors "yellow" text)
  else if (level =? 2)%Z then Return (colors "red" text)
  else if (level =? 3)%Z then Throw (not_a_function "colors.red.bold")
  else if (level =? 4)%Z then Throw (not_a_function "colors.yellow.bold")
  else Return (colors "gray" text).

Definition formatLevel (color : bool) (level : Z) : outcome string :=
  match sprintf "%s %s" [element symbols (level + 1); label level] with
  | Return out => if color then colorizeLevel out level else Return out
  | Throw e => Throw e
  end.

(** [formatter.format(message, level, ...replacements)] at a reading of the
    clock.  The arguments of [sprintf] are evaluated from the left: the
    time has been read when the level is formatted, and the level is
    formatted before the message. *)
Definition format (color : bool) (reading : nat) (message : string) (level : Z)
  (replacements : list string) : outcome string :=
  let time := formatTime color reading in
  match formatLevel color level with
  | Return name =>
      match formatMessage color message replacements with
      | Return text => sprintf "[%s] %s %s" [time; name; text]
      | Throw e => Throw e
      end
  | Throw e => Throw e
  end.

(** The loop of [WriterProxy.write]: the message is formatted anew for every
    writer, before the writer is called.  With the writers as the loop
    leaves them comes the number of readings of the clock so far. *)
Fixpoint write_each (color : bool) (reading : nat) (ws : list writer)
  (message : string) (level : Z) (replacements : list string)
  : outcome unit * (list writer * nat) :=
  match ws with
  | [] => (Return tt, ([], reading))
  | w :: r =>
      match format color reading message level replacements with
      | Return text =>
          let (o, rest) := write_each color (S reading) r message level replacements in
          (o, (write w text level :: fst rest, snd rest))
      | Throw e => (Throw e, (w :: r, S reading))
      end
  end.

(** [this.writer.write(message, level, ...replacements)] *)
Definition WriterProxy_write (lg : logger) (message : string) (level : Z)
  (replacements : list string) : outcome unit * logger :=
  let (o, after) :=
    write_each (color lg) (readings lg) (writers lg) message level replacements in
  (o, Logger (verbosity lg) (color lg) (fst after) (snd after)).

Definition debug (lg : logger) (message : string) (replacements : list string)
  : outcome unit * logger :=
  if isVerbose lg then WriterProxy_write lg message (-1) replacements
  else (Return tt, lg).

Definition info (lg : logger) (message : string) (replacements : list string)
  : outcome unit * logger :=
  if negb (isQuiet lg) then WriterProxy_write lg message 0 replacements
  else (Return tt, lg).

Definition warning (lg : logger) (message : string) (replacements : list string)
  : outcome unit * logger :=
  if negb (isQuiet lg) then WriterProxy_write lg message 1 replacements
  else (Return tt, lg).

Definition error (lg : logger) (message : string) (replacements : list string)
  : outcome unit * logger :=
  if negb (isSilent lg) then WriterProxy_write lg message 2 replacements
  else (Return tt, lg).

Definition critical (lg : logger) (message : string) (replacements : list string)
  : outcome unit * logger :=
  if negb (isSilent lg) then WriterProxy_write lg message 3 replacements
  else (Return tt, lg).

Definition emergency (lg : logger) (message : string) (replacements : list string)
  : outcome unit * logger :=
  WriterProxy_write lg message 4 replacements.

(** A call that a builder makes of its logger, made of this logger. *)
Definition receive (lg : logger) (e : log_event) : outcome unit * logger :=
  match log_level e with
  | Debug => debug lg (log_message e) (log_replacements e)
  | Info => info lg (log_message e) (log_replacements e)
  | Warning => warning lg (log_message e) (log_replacements e)
  | Error => error lg (log_message e) (log_replacements e)
  | Critical => critical lg (log_message e) (log_replacements e)
  | Emergency => emergency lg (log_message e) (log_replacements e)
  end.

(** The calls a builder makes of its logger, made of this logger one after
    the other until one throws. *)
Fixpoint replay (lg : logger) (events : list log_event) : outcome unit * logger :=
  match events with
  | [] => (Return tt, lg)
  | e :: r =>
      match receive lg e with
      | (Return _, lg') => replay lg' r
      | (Throw x, lg') => (Throw x, lg')
      end
  end.

End Formatter.

(** The loop of [WriterProxy.close]: it ends where a writer throws, with
    the writers before that one closed. *)
Fixpoint close_each (ws : list writer) : option exn * list writer :=
  match ws with
  | [] => (None, [])
  | w :: r =>
      match close w with
      | Return w' => let (e, r') := close_each r in (e, w' :: r')
      | Throw e => (Some e, w :: r)
      end
  end.

(** [this.writer.close()] *)
Definition WriterProxy_close (lg : logger) : outcome unit * logger :=
  let (e, ws) := close_each (writers lg) in
  (match e with None => Return tt | Some e => Throw e end,
   Logger (verbosity lg) (color lg) ws (readings lg)).

End DefaultLogger.

(** * Properties *)

Import ConfigBuilder.

(** A builder that holds the document [j], with nothing cached or logged. *)
Definition holding (j : json) : state := State j ∅ [].

(** ** Running the builder *)

(** The state after the logger has received one more call. *)
Definition logging (st : state) (e : log_event) : state :=
  State (configObject st) (configCached st) (logged st ++ [e]).

(** Two continuations that agree give the same computation. *)
Lemma bind_ext {A B : Type} (m : M A) (k1 k2 : A -> M B) (st : state) :
  (forall a st', k1 a st' = k2 a st') -> bind m k1 st = bind m k2 st.
Proof.
  intros H. unfold bind. destruct (m st) as [[a | e] st']; [ apply H | reflexivity ].
Qed.

Lemma resolveValue_run (idx : string) (st : state) :
  resolveValue idx st
  = match resolveValue_from idx (configObject st) [] (Str.split_dot idx) with
    | inl e => (Throw e, st)
    | inr node => (Return node, st)
    end.
Proof.
  unfold resolveValue, bind, get_config.
  now destruct (resolveValue_from idx (configObject st) [] (Str.split_dot idx)).
Qed.

(** One frame of [lookup]: the call is logged, then the path is walked. *)
Lemma lookup_S (fuel : nat) (idx : string) (st : state) :
  lookup (S fuel) idx st
  = match resolveValue_from idx (configObject st) [] (Str.split_dot idx) with
    | inl e => (Throw e, logging st (Log Debug resolving [idx]))
    | inr node =>
        resolveReplacements (lookup fuel) (resolveReplacementsForObject fuel)
          (fst node) (snd node) (logging st (Log Debug resolving [idx]))
    end.
Proof.
  simpl. unfold bind at 1. unfold log.
  unfold bind at 1. rewrite resolveValue_run. simpl.
  now destruct (resolveValue_from idx (configObject st) [] (Str.split_dot idx)).
Qed.

Lemma lookupCachedValue_run (idx : string) (opt : option json) (st : state) :
  lookupCachedValue idx opt st
  = (match configCached st !! buildCacheIndex [Some (JStr idx); opt] with
     | Some v => if Js.truthy_value v then Return v else Return (VJson JNull)
     | None => Return (VJson JNull)
     end, st).
Proof.
  unfold lookupCachedValue, bind, get_cache.
  destruct (configCached st !! _) as [v | ]; [ | reflexivity ].
  now destruct (Js.truthy_value v).
Qed.

Lemma assignCachedValue_run (idx : string) (opt : option json) (v : jsvalue) (st : state) :
  assignCachedValue idx opt v st
  = (Return tt,
     State (configObject st)
           (<[buildCacheIndex [Some (JStr idx); opt] := v]> (configCached st))
           (logged st)).
Proof. reflexivity. Qed.

(** The loop with a pass left. *)
Lemma scalar_loop_S (lookup_rec : string -> M jsvalue) (gas i : nat) (parsed : string) :
  scalar_loop lookup_rec (S gas) i parsed
  = match Regex.exec parsed with
    | None => ret parsed
    | Some (token, target) =>
        if (maxIterations <? i)%nat then ret parsed
        else
          replace <- lookup_rec target ;;
          parsed' <-
            (if Js.truthy_value replace
             then templ <- string_of_value replace ;;
                  ret (Regex.replace_all
                         (Regex.literal_of_pattern (regexQuote token))
                         templ parsed)
             else ret parsed) ;;
          scalar_loop lookup_rec gas (S i) parsed'
    end.
Proof. reflexivity. Qed.

(** The loop without a pass left. *)
Lemma scalar_loop_no_gas (lookup_rec : string -> M jsvalue) (i : nat) (parsed : string) :
  scalar_loop lookup_rec 0 i parsed = ret parsed.
Proof.
  simpl. destruct (Regex.exec parsed) as [[token target] | ]; [ | reflexivity ].
  now destruct (maxIterations <? i)%nat.
Qed.

Lemma scalar_loop_O (lookup_rec : string -> M jsvalue) (i : nat) (parsed : string) :
  (maxIterations < i)%nat ->
  forall gas, scalar_loop lookup_rec gas i parsed = ret parsed.
Proof.
  intros Hi gas. apply Nat.ltb_lt in Hi.
  destruct gas; simpl; destruct (Regex.exec parsed) as [[token target] | ];
    try reflexivity; now rewrite Hi.
Qed.

(** The recursion never runs out of [gas] before [i] passes the bound: any
    amount that covers the passes left gives the same loop. *)
Lemma scalar_loop_gas (lookup_rec : string -> M jsvalue) (gas : nat) :
  forall (gas' i : nat) (parsed : string) (st : state),
    (maxIterations < i + gas)%nat ->
    (maxIterations < i + gas')%nat ->
    scalar_loop lookup_rec gas i parsed st = scalar_loop lookup_rec gas' i parsed st.
Proof.
  induction gas as [ | gas IH]; intros gas' i parsed st Hgas Hgas'.
  - rewrite !scalar_loop_O by lia. reflexivity.
  - destruct gas' as [ | gas'].
    + rewrite !scalar_loop_O by lia. reflexivity.
    + rewrite !scalar_loop_S.
      destruct (Regex.exec parsed) as [[token target] | ]; [ | reflexivity ].
      destruct (maxIterations <? i)%nat; [ reflexivity | ].
      apply bind_ext. intros replace st1.
      apply bind_ext. intros parsed' st2.
      apply IH; lia.
Qed.

(** ** Frames *)

(** [extends m m']: whatever [m] does without running out of frames, [m']
    does too. *)
Definition extends {A : Type} (m m' : M A) : Prop :=
  forall st r st', m st = (r, st') -> r <> Throw StackOverflow -> m' st = (r, st').

Create HintDb frames.

Lemma extends_refl {A : Type} (m : M A) : extends m m.
Proof. intros st r st' H _. exact H. Qed.

Lemma extends_bind {A B : Type} (m m' : M A) (k k' : A -> M B) :
  extends m m' ->
  (forall a, extends (k a) (k' a)) ->
  extends (bind m k) (bind m' k').
Proof.
  intros Hm Hk st r st' Hrun Hr. unfold bind in *.
  destruct (m st) as [o s1] eqn:Hmst. destruct o as [a | e].
  - rewrite (Hm st (Return a) s1 Hmst) by discriminate. now apply Hk.
  - inversion Hrun; subst.
    rewrite (Hm st (Throw e) st' Hmst); [ reflexivity | ].
    intros Heq. apply Hr. now inversion Heq.
Qed.

Lemma extends_for_each {A : Type} (body body' : A -> M unit) (xs : list A) :
  (forall x, extends (body x) (body' x)) ->
  extends (for_each xs body) (for_each xs body').
Proof.
  intros H. induction xs as [ | x r IH]; cbn [for_each];
    [ apply extends_refl | ].
  apply extends_bind; [ apply H | intros _; exact IH ].
Qed.

Lemma extends_map_m {A B : Type} (f f' : A -> M B) (xs : list A) :
  (forall x, extends (f x) (f' x)) ->
  extends (map_m f xs) (map_m f' xs).
Proof.
  intros H. induction xs as [ | x r IH]; cbn [map_m]; [ apply extends_refl | ].
  apply extends_bind; [ apply H | intros y ].
  apply extends_bind; [ exact IH | intros ys; apply extends_refl ].
Qed.

(** Two sides that are the same term need no argument; the hint looks at
    the terms and does not unfold them. *)
#[local] Hint Extern 0 (extends ?m ?m') =>
  (constr_eq m m'; apply extends_refl) : frames.

(** Extending a computation step by step: the first part is left as a goal
    unless it is the same on both sides. *)
Ltac extend_bind :=
  apply extends_bind; [ auto with frames | intro ].

Section MoreFrames.

Variables lookup_rec lookup_rec' : string -> M jsvalue.
Variables object_rec object_rec' : path -> M jsvalue.
Hypothesis lookup_extends : forall idx, extends (lookup_rec idx) (lookup_rec' idx).
Hypothesis object_extends : forall p, extends (object_rec p) (object_rec' p).

Lemma extends_scalar_loop (gas : nat) :
  forall (i : nat) (parsed : string),
    extends (scalar_loop lookup_rec gas i parsed)
            (scalar_loop lookup_rec' gas i parsed).
Proof.
  induction gas as [ | gas IH]; intros i parsed.
  - rewrite !scalar_loop_no_gas. apply extends_refl.
  - rewrite !scalar_loop_S.
    destruct (Regex.exec parsed) as [[token target] | ]; [ | apply extends_refl ].
    destruct (maxIterations <? i)%nat; [ apply extends_refl | ].
    extend_bind. extend_bind. apply IH.
Qed.

Lemma extends_scalar (val : json) :
  extends (resolveReplacementsForScalar lookup_rec val)
          (resolveReplacementsForScalar lookup_rec' val).
Proof.
  unfold resolveReplacementsForScalar. extend_bind. apply extends_scalar_loop.
Qed.

Lemma extends_array (val : json) :
  extends (resolveReplacementsForArray lookup_rec val)
          (resolveReplacementsForArray lookup_rec' val).
Proof.
  unfold resolveReplacementsForArray.
  destruct val; auto with frames.
  extend_bind; [ apply extends_map_m, extends_scalar | apply extends_refl ].
Qed.

Lemma extends_object_body (at_ : path) :
  extends (resolveReplacementsForObject_body lookup_rec object_rec at_)
          (resolveReplacementsForObject_body lookup_rec' object_rec' at_).
Proof.
  unfold resolveReplacementsForObject_body.
  extend_bind. extend_bind; [ | apply extends_refl ].
  apply extends_for_each. intros property.
  extend_bind.
  match goal with |- context [Js.get_prop ?val property] =>
    destruct (Js.get_prop val property) as [v | ]; [ | apply extends_refl ] end.
  destruct (Js.is_object v).
  { extend_bind. apply extends_refl. }
  destruct (Js.is_array v).
  { extend_bind; [ apply extends_array | apply extends_refl ]. }
  destruct (Js.is_string v); [ | apply extends_refl ].
  extend_bind; [ apply extends_scalar | apply extends_refl ].
Qed.

Lemma extends_resolveReplacements (val : json) (at_ : path) :
  extends (resolveReplacements lookup_rec object_rec val at_)
          (resolveReplacements lookup_rec' object_rec' val at_).
Proof.
  unfold resolveReplacements.
  destruct (Js.is_object val); [ apply object_extends | ].
  destruct (Js.is_array val).
  - extend_bind; [ apply extends_array | apply extends_refl ].
  - extend_bind; [ apply extends_scalar | apply extends_refl ].
Qed.

End MoreFrames.

(** A frame more changes nothing for a call that did not run out. *)
Lemma one_more_frame (fuel : nat) :
  (forall idx, extends (lookup fuel idx) (lookup (S fuel) idx))
  /\ (forall p, extends (resolveReplacementsForObject fuel p)
                        (resolveReplacementsForObject (S fuel) p)).
Proof.
  induction fuel as [ | fuel [IHl IHo]].
  - split; intros x st r st' Hrun Hr; inversion Hrun; subst; congruence.
  - split.
    + intros idx.
      change (extends
                (log Debug resolving [idx] ;;;
                 node <- resolveValue idx ;;
                 resolveReplacements (lookup fuel) (resolveReplacementsForObject fuel)
                   (fst node) (snd node))
                (log Debug resolving [idx] ;;;
                 node <- resolveValue idx ;;
                 resolveReplacements (lookup (S fuel))
                   (resolveReplacementsForObject (S fuel))
                   (fst node) (snd node))).
      extend_bind. extend_bind.
      now apply extends_resolveReplacements.
    + intros p.
      change (extends
                (resolveReplacementsForObject_body (lookup fuel)
                   (resolveReplacementsForObject fuel) p)
                (resolveReplacementsForObject_body (lookup (S fuel))
                   (resolveReplacementsForObject (S fuel)) p)).
      now apply extends_object_body.
Qed.

(** The result of a lookup that did not exhaust the stack is its result on
    every deeper stack. *)
Lemma lookup_more_frames (fuel fuel' : nat) (idx : string) :
  (fuel <= fuel')%nat -> extends (lookup fuel idx) (lookup fuel' idx).
Proof.
  induction 1 as [ | fuel' _ IH]; [ apply extends_refl | ].
  intros st r st' Hrun Hr.
  apply (proj1 (one_more_frame fuel') idx); auto.
Qed.

(** Likewise for [value]: the frames only matter to the lookup it makes. *)
Lemma value_more_frames (fuel fuel' : nat) (ctx : option string) (idx : string)
  (opt : option json) :
  (fuel <= fuel')%nat -> extends (value fuel ctx idx opt) (value fuel' ctx idx opt).
Proof.
  intros Hle. unfold value. extend_bind.
  match goal with |- context [Js.truthy_value ?v] => destruct (Js.truthy_value v) end;
    [ apply extends_refl | ].
  extend_bind; [ now apply lookup_more_frames | apply extends_refl ].
Qed.

(** ** References *)

(** The configuration with the text of every string taken out.  Expansion
    writes strings over strings, so this is what it leaves alone. *)
Fixpoint skeleton (j : json) : json :=
  match j with
  | JStr _ => JStr ""
  | JArr l => JArr (List.map skeleton l)
  | JObj kvs => JObj (List.map (fun kv => (fst kv, skeleton (snd kv))) kvs)
  | _ => j
  end.

Definition shape (st : state) : json := skeleton (configObject st).

(** [p] leads to an object or an array of the configuration. *)
Definition is_node (st : state) (p : path) : Prop :=
  exists j, Js.get_path (configObject st) p = Some j /\ Js.is_object j = true.

Definition dangling : exn := TypeError "dangling reference".

Lemma is_object_skeleton (j : json) : Js.is_object (skeleton j) = Js.is_object j.
Proof. now destruct j. Qed.

Lemma is_string_skeleton (j : json) : Js.is_string (skeleton j) = Js.is_string j.
Proof. now destruct j. Qed.

Lemma assoc_skeleton (k : string) (kvs : list (string * json)) :
  Js.assoc k (List.map (fun kv => (fst kv, skeleton (snd kv))) kvs)
  = option_map skeleton (Js.assoc k kvs).
Proof.
  induction kvs as [ | [k' v] kvs IH]; [ reflexivity | ].
  cbn [List.map Js.assoc fst snd]. now destruct (String.eqb k k').
Qed.

Lemma nth_error_skeleton (n : nat) (l : list json) :
  nth_error (List.map skeleton l) n = option_map skeleton (nth_error l n).
Proof.
  revert n. induction l as [ | a l IH]; intros [ | n]; simpl; auto.
Qed.

(** The properties of an object or array, up to the text of strings. *)
Lemma get_prop_skeleton (o : json) (k : string) :
  Js.is_object o = true ->
  Js.get_prop (skeleton o) k = option_map skeleton (Js.get_prop o k).
Proof.
  destruct o as [ | b | n | s | l | kvs]; try discriminate; intros _.
  - cbn [skeleton Js.get_prop]. rewrite length_map.
    destruct (String.eqb k "length"); [ reflexivity | ].
    destruct (Js.array_index k) as [n | ]; [ apply nth_error_skeleton | reflexivity ].
  - apply assoc_skeleton.
Qed.

Lemma get_prop_same_shape (o o' : json) (k : string) (v : json) :
  skeleton o = skeleton o' ->
  Js.is_object o = true ->
  Js.get_prop o k = Some v ->
  exists v', Js.get_prop o' k = Some v' /\ skeleton v = skeleton v'.
Proof.
  intros Hshape Ho Hget.
  assert (Ho' : Js.is_object o' = true)
    by (rewrite <- is_object_skeleton, <- Hshape, is_object_skeleton; exact Ho).
  pose proof (get_prop_skeleton o k Ho) as H.
  pose proof (get_prop_skeleton o' k Ho') as H'.
  rewrite Hshape, H', Hget in H.
  destruct (Js.get_prop o' k) as [v' | ]; [ | discriminate ].
  exists v'. split; [ reflexivity | ]. simpl in H. congruence.
Qed.

(** Nothing below a primitive is an object. *)
Lemma below_primitive (p : path) :
  forall (root j : json),
    Js.is_object root = false ->
    Js.get_path root p = Some j ->
    Js.is_object j = false.
Proof.
  induction p as [ | k r IH]; intros root j Hroot Hget.
  - simpl in Hget. congruence.
  - cbn [Js.get_path] in Hget.
    destruct (Js.get_prop root k) as [v | ] eqn:Hk; [ | discriminate ].
    apply (IH v j); [ | exact Hget ].
    destruct root as [ | b | n | s | l | kvs]; try discriminate; try (simpl in Hk; discriminate).
    cbn [Js.get_prop] in Hk.
    destruct (String.eqb k "length"); [ now inversion Hk | ].
    destruct (Js.array_index k) as [n | ]; [ | discriminate ].
    destruct (Js.string_nth n s); [ now inversion Hk | discriminate ].
Qed.

Lemma get_path_same_shape (p : path) :
  forall (root root' j : json),
    skeleton root = skeleton root' ->
    Js.get_path root p = Some j ->
    Js.is_object j = true ->
    exists j', Js.get_path root' p = Some j' /\ skeleton j = skeleton j'.
Proof.
  induction p as [ | k r IH]; intros root root' j Hshape Hget Hj.
  - simpl in Hget. inversion Hget; subst. exists root'. now split.
  - cbn [Js.get_path] in Hget |- *.
    destruct (Js.get_prop root k) as [v | ] eqn:Hk; [ | discriminate ].
    destruct (Js.is_object root) eqn:Hroot.
    + destruct (get_prop_same_shape root root' k v Hshape Hroot Hk) as (v' & Hk' & Hv).
      rewrite Hk'. now apply (IH v v' j).
    + assert (Js.is_object j = false); [ | congruence ].
      apply (below_primitive (k :: r) root j Hroot).
      cbn [Js.get_path]. now rewrite Hk.
Qed.

(** A reference that leads somewhere keeps doing so as long as the shape of
    the configuration is what it was. *)
Lemma is_node_same_shape (st st' : state) (p : path) :
  shape st = shape st' -> is_node st p -> is_node st' p.
Proof.
  intros Hshape (j & Hget & Hj).
  destruct (get_path_same_shape p _ _ j Hshape Hget Hj) as (j' & Hget' & Hs).
  exists j'. split; [ exact Hget' | ].
  now rewrite <- is_object_skeleton, <- Hs, is_object_skeleton.
Qed.

Lemma get_path_snoc (p : path) (k : string) :
  forall root : json,
    Js.get_path root (p ++ [k])
    = match Js.get_path root p with
      | Some j => Js.get_prop j k
      | None => None
      end.
Proof.
  induction p as [ | a r IH]; intros root; cbn [app Js.get_path].
  - now destruct (Js.get_prop root k).
  - destruct (Js.get_prop root a); [ apply IH | reflexivity ].
Qed.

Lemma assoc_set_skeleton (k : string) (x v : json) (kvs : list (string * json)) :
  Js.assoc k kvs = Some v ->
  skeleton x = skeleton v ->
  List.map (fun kv => (fst kv, skeleton (snd kv))) (Js.assoc_set k x kvs)
  = List.map (fun kv => (fst kv, skeleton (snd kv))) kvs.
Proof.
  intros Hget Hx. induction kvs as [ | [k' w] kvs IH]; [ reflexivity | ].
  cbn [Js.assoc Js.assoc_set] in Hget |- *.
  destruct (String.eqb k k').
  - inversion Hget; subst. cbn [List.map fst snd]. now rewrite Hx.
  - cbn [List.map fst snd]. now rewrite (IH Hget).
Qed.

Lemma list_set_skeleton (n : nat) (x v : json) (l : list json) :
  nth_error l n = Some v ->
  skeleton x = skeleton v ->
  List.map skeleton (Js.list_set n x l) = List.map skeleton l.
Proof.
  revert n. induction l as [ | a l IH]; intros [ | n] Hget Hx;
    simpl in Hget |- *; try discriminate.
  - inversion Hget; subst. now rewrite Hx.
  - now rewrite (IH n Hget Hx).
Qed.

(** Writing a string where a string is leaves the shape alone. *)
Lemma skeleton_set_path (p : path) (s : string) :
  forall root : json,
    (forall j, Js.get_path root p = Some j -> Js.is_string j = true) ->
    skeleton (Js.set_path root p (JStr s)) = skeleton root.
Proof.
  induction p as [ | k r IH]; intros root Hstr.
  - cbn [Js.set_path]. specialize (Hstr root eq_refl).
    destruct root; try discriminate. reflexivity.
  - cbn [Js.set_path]. unfold Js.set_prop.
    destruct root as [ | b | n | t | l | kvs]; try reflexivity.
    + destruct (Js.array_index k) as [n | ] eqn:Hidx; [ | reflexivity ].
      destruct (nth_error l n) as [v | ] eqn:Hn; [ | reflexivity ].
      cbn [skeleton]. f_equal.
      apply (list_set_skeleton n _ v l Hn). apply IH. intros j Hj. apply Hstr.
      cbn [Js.get_path Js.get_prop].
      destruct (String.eqb_spec k "length") as [-> | _]; [ discriminate | ].
      now rewrite Hidx, Hn.
    + destruct (Js.assoc k kvs) as [v | ] eqn:Hk; [ | reflexivity ].
      cbn [skeleton]. f_equal.
      apply (assoc_set_skeleton k _ v kvs Hk). apply IH. intros j Hj. apply Hstr.
      cbn [Js.get_path Js.get_prop]. now rewrite Hk.
Qed.

(** [keeps Q m st]: run from [st], the computation [m] leaves the shape of
    the configuration as it is and does not find a reference dangling; what
    it returns satisfies [Q] in the state it leaves. *)
Definition keeps {A : Type} (Q : A -> state -> Prop) (m : M A) (st : state) : Prop :=
  forall r st',
    m st = (r, st') ->
    shape st' = shape st
    /\ match r with
       | Return a => Q a st'
       | Throw e => e <> dangling
       end.

Lemma keeps_ret {A : Type} (Q : A -> state -> Prop) (a : A) (st : state) :
  Q a st -> keeps Q (ret a) st.
Proof. intros H r st' Hrun. inversion Hrun; subst. now split. Qed.

Lemma keeps_throw {A : Type} (Q : A -> state -> Prop) (e : exn) (st : state) :
  e <> dangling -> keeps Q (throw e) st.
Proof. intros H r st' Hrun. inversion Hrun; subst. now split. Qed.

Lemma keeps_bind {A B : Type} (Q : A -> state -> Prop) (R : B -> state -> Prop)
  (m : M A) (k : A -> M B) (st : state) :
  keeps Q m st ->
  (forall a st1, shape st1 = shape st -> Q a st1 -> keeps R (k a) st1) ->
  keeps R (bind m k) st.
Proof.
  intros Hm Hk r st' Hrun. unfold bind in Hrun.
  destruct (m st) as [o st1] eqn:Hmst. destruct (Hm o st1 Hmst) as [Hs Ho].
  destruct o as [a | e].
  - destruct (Hk a st1 Hs Ho r st' Hrun) as [Hs' Hr]. split; [ congruence | exact Hr ].
  - inversion Hrun; subst. now split.
Qed.

Lemma keeps_weaken {A : Type} (Q Q' : A -> state -> Prop) (m : M A) (st : state) :
  keeps Q m st ->
  (forall a st', shape st' = shape st -> Q a st' -> Q' a st') ->
  keeps Q' m st.
Proof.
  intros Hm HQ r st' Hrun. destruct (Hm r st' Hrun) as [Hs Hr].
  split; [ exact Hs | ]. destruct r; auto.
Qed.

Definition anything {A : Type} (_ : A) (_ : state) : Prop := True.

Lemma keeps_for_each {A : Type} (body : A -> M unit) (xs : list A) :
  forall st : state,
    (forall x st1, shape st1 = shape st -> keeps anything (body x) st1) ->
    keeps anything (for_each xs body) st.
Proof.
  induction xs as [ | x r IH]; intros st Hbody; cbn [for_each].
  - now apply keeps_ret.
  - apply (keeps_bind anything); [ now apply Hbody | ].
    intros _ st1 Hs _. apply IH. intros y st2 Hs2. apply Hbody. congruence.
Qed.

Lemma keeps_map_m {A B : Type} (f : A -> M B) (xs : list A) :
  forall st : state,
    (forall x st1, shape st1 = shape st -> keeps anything (f x) st1) ->
    keeps anything (map_m f xs) st.
Proof.
  induction xs as [ | x r IH]; intros st Hf; cbn [map_m].
  - now apply keeps_ret.
  - apply (keeps_bind anything); [ now apply Hf | ].
    intros y st1 Hs _. apply (keeps_bind anything).
    + apply IH. intros z st2 Hs2. apply Hf. congruence.
    + intros ys st2 _ _. now apply keeps_ret.
Qed.

(** Reading through a reference that leads to a node. *)
Lemma keeps_deref (p : path) (st : state) :
  is_node st p ->
  keeps (fun j st' => Js.get_path (configObject st') p = Some j
                      /\ Js.is_object j = true) (deref p) st.
Proof.
  intros (j & Hget & Hj) r st' Hrun.
  unfold deref, bind, get_config in Hrun. rewrite Hget in Hrun.
  inversion Hrun; subst. now split.
Qed.

Lemma keeps_write_string (p : path) (s : string) (st : state) :
  (forall j, Js.get_path (configObject st) p = Some j -> Js.is_string j = true) ->
  keeps anything (write_at p (JStr s)) st.
Proof.
  intros Hstr r st' Hrun. unfold write_at, bind, get_config, set_config in Hrun.
  inversion Hrun; subst. split; [ | exact I ].
  unfold shape. cbn [configObject]. now apply skeleton_set_path.
Qed.

(** A value that is a reference leads to a node. *)
Definition valid (v : jsvalue) (st : state) : Prop :=
  match v with
  | VRef p => is_node st p
  | _ => True
  end.

Lemma keeps_string_of_value (v : jsvalue) (st : state) :
  valid v st -> keeps anything (string_of_value v) st.
Proof.
  intros Hv. destruct v as [ | j | p]; cbn [string_of_value].
  - now apply keeps_ret.
  - now apply keeps_ret.
  - eapply keeps_bind; [ apply keeps_deref; exact Hv | ].
    intros j st1 _ _. now apply keeps_ret.
Qed.

Lemma keeps_log (l : level) (message : string) (replacements : list string)
  (st : state) :
  keeps anything (log l message replacements) st.
Proof. intros r st' Hrun. inversion Hrun; subst. now split. Qed.

Lemma keeps_toString (v : json) (st : state) : keeps anything (toString v) st.
Proof.
  destruct v; try (now apply keeps_ret). apply keeps_throw. discriminate.
Qed.

(** Where the walk of [resolveValue] ends is where it says. *)
Lemma resolveValue_from_path (root : json) (idx : string) (fragments : list string) :
  forall (val : json) (at_ : path) (v : json) (p : path),
    Js.get_path root at_ = Some val ->
    resolveValue_from idx val at_ fragments = inr (v, p) ->
    Js.get_path root p = Some v.
Proof.
  induction fragments as [ | i rest IH]; intros val at_ v p Hat Hwalk.
  - simpl in Hwalk. now inversion Hwalk; subst.
  - cbn [resolveValue_from] in Hwalk.
    destruct val; cbn [read_property] in Hwalk; try discriminate;
      match type of Hwalk with
      | context [Js.get_prop ?o i] =>
          destruct (Js.get_prop o i) as [w | ] eqn:Hi; [ | discriminate ];
          destruct (Js.truthy w); [ | discriminate ];
          apply (IH w (at_ ++ [i]) v p); [ | exact Hwalk ];
          now rewrite get_path_snoc, Hat
      end.
Qed.

Lemma resolveValue_from_error (idx : string) (fragments : list string) :
  forall (val : json) (at_ : path) (e : exn),
    resolveValue_from idx val at_ fragments = inl e -> e <> dangling.
Proof.
  induction fragments as [ | i rest IH]; intros val at_ e Hwalk; [ discriminate | ].
  cbn [resolveValue_from] in Hwalk.
  destruct (read_property val i) as [e' | [w | ]] eqn:Hread.
  - inversion Hwalk; subst. destruct val; try discriminate.
    cbn [read_property] in Hread. inversion Hread. discriminate.
  - destruct (Js.truthy w); [ now apply (IH w (at_ ++ [i])) | ].
    inversion Hwalk. discriminate.
  - inversion Hwalk. discriminate.
Qed.

Lemma keeps_resolveValue (idx : string) (st : state) :
  keeps (fun node st' => Js.get_path (configObject st') (snd node) = Some (fst node))
        (resolveValue idx) st.
Proof.
  intros r st' Hrun. rewrite resolveValue_run in Hrun.
  destruct (resolveValue_from idx (configObject st) [] (Str.split_dot idx))
    as [e | [v p]] eqn:Hwalk; inversion Hrun; subst; (split; [ reflexivity | ]).
  - now apply (resolveValue_from_error idx _ _ _ _ Hwalk).
  - now apply (resolveValue_from_path _ idx _ _ [] v p eq_refl Hwalk).
Qed.

Section KeptByExpansion.

Variable lookup_rec : string -> M jsvalue.
Variable object_rec : path -> M jsvalue.
Hypothesis lookup_keeps : forall idx st, keeps valid (lookup_rec idx) st.
Hypothesis object_keeps : forall p st, is_node st p -> keeps valid (object_rec p) st.

Lemma keeps_scalar_loop (gas : nat) :
  forall (i : nat) (parsed : string) (st : state),
    keeps anything (scalar_loop lookup_rec gas i parsed) st.
Proof.
  induction gas as [ | gas IH]; intros i parsed st.
  - rewrite scalar_loop_no_gas. now apply keeps_ret.
  - rewrite scalar_loop_S.
    destruct (Regex.exec parsed) as [[token target] | ]; [ | now apply keeps_ret ].
    destruct (maxIterations <? i)%nat; [ now apply keeps_ret | ].
    apply (keeps_bind valid); [ apply lookup_keeps | ].
    intros replace st1 _ Hvalid.
    apply (keeps_bind anything); [ | intros; apply IH ].
    destruct (Js.truthy_value replace); [ | now apply keeps_ret ].
    apply (keeps_bind anything); [ now apply keeps_string_of_value | ].
    intros. now apply keeps_ret.
Qed.

Lemma keeps_scalar (val : json) (st : state) :
  keeps anything (resolveReplacementsForScalar lookup_rec val) st.
Proof.
  unfold resolveReplacementsForScalar.
  apply (keeps_bind anything); [ apply keeps_toString | ].
  intros. apply keeps_scalar_loop.
Qed.

Lemma keeps_array (val : json) (st : state) :
  keeps anything (resolveReplacementsForArray lookup_rec val) st.
Proof.
  unfold resolveReplacementsForArray.
  destruct val; try (apply keeps_throw; discriminate).
  apply (keeps_bind anything).
  - apply keeps_map_m. intros. apply keeps_scalar.
  - intros. now apply keeps_ret.
Qed.

(** The string found at a property of a node is a string in every state of
    the same shape. *)
Lemma string_stays (st st' : state) (at_ : path) (val : json) (property : string)
  (v : json) :
  shape st = shape st' ->
  Js.get_path (configObject st) at_ = Some val ->
  Js.is_object val = true ->
  Js.get_prop val property = Some v ->
  Js.is_string v = true ->
  forall j, Js.get_path (configObject st') (at_ ++ [property]) = Some j ->
            Js.is_string j = true.
Proof.
  intros Hshape Hat Hval Hprop Hv j Hj.
  destruct (get_path_same_shape at_ _ _ val Hshape Hat Hval) as (val' & Hat' & Hs).
  destruct (get_prop_same_shape val val' property v Hs Hval Hprop) as (v' & Hprop' & Hsv).
  rewrite get_path_snoc, Hat', Hprop' in Hj. inversion Hj; subst.
  now rewrite <- is_string_skeleton, <- Hsv, is_string_skeleton.
Qed.

Lemma keeps_object_body (at_ : path) (st : state) :
  is_node st at_ ->
  keeps valid (resolveReplacementsForObject_body lookup_rec object_rec at_) st.
Proof.
  intros Hnode. unfold resolveReplacementsForObject_body.
  eapply keeps_bind; [ now apply keeps_deref | ].
  intros val st0 Hs0 _. cbv beta.
  apply (keeps_bind anything).
  - apply keeps_for_each. intros property st1 Hs1.
    assert (Hnode1 : is_node st1 at_)
      by (apply (is_node_same_shape st); [ congruence | exact Hnode ]).
    eapply keeps_bind; [ now apply keeps_deref | ].
    intros val1 st2 Hs2 [Hat2 Hval1]. cbv beta.
    destruct (Js.get_prop val1 property) as [v | ] eqn:Hprop; [ | now apply keeps_ret ].
    destruct (Js.is_object v) eqn:Hobj.
    + apply (keeps_bind valid).
      * apply object_keeps. exists v. split; [ | exact Hobj ].
        now rewrite get_path_snoc, Hat2.
      * intros. now apply keeps_ret.
    + destruct (Js.is_array v) eqn:Harr; [ destruct v; discriminate | ].
      destruct (Js.is_string v) eqn:Hstr; [ | now apply keeps_ret ].
      apply (keeps_bind anything); [ apply keeps_scalar | ].
      intros s st3 Hs3 _. apply keeps_write_string.
      apply (string_stays st2 st3 at_ val1 property v); auto.
  - intros _ st1 Hs1 _. apply keeps_ret.
    apply (is_node_same_shape st); [ congruence | exact Hnode ].
Qed.

Lemma keeps_resolveReplacements (val : json) (at_ : path) (st : state) :
  Js.get_path (configObject st) at_ = Some val ->
  keeps valid (resolveReplacements lookup_rec object_rec val at_) st.
Proof.
  intros Hat. unfold resolveReplacements.
  destruct (Js.is_object val) eqn:Hobj.
  - apply object_keeps. now exists val.
  - destruct (Js.is_array val) eqn:Harr; [ destruct val; discriminate | ].
    apply (keeps_bind anything); [ apply keeps_scalar | ].
    intros. now apply keeps_ret.
Qed.

End KeptByExpansion.

(** Expansion never finds a reference dangling: a lookup leaves the shape
    of the configuration as it found it, does not throw for a reference,
    and a reference it returns leads to an object or array. *)
Lemma references_are_kept (fuel : nat) :
  (forall idx st, keeps valid (lookup fuel idx) st)
  /\ (forall p st, is_node st p -> keeps valid (resolveReplacementsForObject fuel p) st).
Proof.
  induction fuel as [ | fuel [IHl IHo]].
  - split; intros; apply keeps_throw; discriminate.
  - split.
    + intros idx st.
      change (keeps valid
                (log Debug resolving [idx] ;;;
                 node <- resolveValue idx ;;
                 resolveReplacements (lookup fuel) (resolveReplacementsForObject fuel)
                   (fst node) (snd node)) st).
      apply (keeps_bind anything); [ apply keeps_log | ].
      intros _ st1 _ _. eapply keeps_bind; [ apply keeps_resolveValue | ].
      intros node st2 _ Hnode. cbv beta in Hnode.
      now apply keeps_resolveReplacements.
    + intros p st Hp.
      change (keeps valid
                (resolveReplacementsForObject_body (lookup fuel)
                   (resolveReplacementsForObject fuel) p) st).
      now apply keeps_object_body.
Qed.

(** ** Traversal *)

(** [traverses r fragments v]: following [fragments] from [r] finds a
    property at every step, each with a truthy value, and ends at [v]. *)
Inductive traverses : json -> list string -> json -> Prop :=
| traverses_nil r : traverses r [] r
| traverses_cons r i v rest w :
    Js.get_prop r i = Some v ->
    Js.truthy v = true ->
    traverses v rest w ->
    traverses r (i :: rest) w.

(** What [!val] accepts: no property, or one of the four falsy values a
    document can hold.  No array is among them. *)
Definition absent_or_falsy (o : option json) : Prop :=
  o = None \/ o = Some JNull \/ o = Some (JBool false)
  \/ o = Some (JNum 0) \/ o = Some (JStr "").

Lemma truthy_opt_false (o : option json) :
  Js.truthy_opt o = false <-> absent_or_falsy o.
Proof.
  unfold absent_or_falsy. split.
  - destruct o as [j | ]; [ | auto ].
    destruct j as [ | b | n | s | l | kvs]; simpl; intros H; try discriminate.
    + auto.
    + subst b. auto.
    + destruct (n =? 0)%Z eqn:E; [ | discriminate ].
      apply Z.eqb_eq in E. subst n. auto 6.
    + destruct s; [ auto 6 | discriminate ].
  - intros [-> | [-> | [-> | [-> | ->]]]]; reflexivity.
Qed.

Lemma truthy_not_null (v : json) : Js.truthy v = true -> v <> JNull.
Proof. intros H ->. discriminate. Qed.

Lemma traverses_get_path (r : json) (fragments : list string) (v : json) :
  traverses r fragments v -> Js.get_path r fragments = Some v.
Proof.
  induction 1 as [ | r i v rest w Hget _ _ IH]; simpl; [ reflexivity | ].
  now rewrite Hget.
Qed.

Lemma traverses_snoc (r : json) (before : list string) (u : json) (i : string) (v : json) :
  traverses r before u -> Js.get_prop u i = Some v -> Js.truthy v = true ->
  traverses r (before ++ [i]) v.
Proof.
  induction 1 as [ | r j x rest w Hget Ht _ IH]; intros Hi Hv; simpl.
  - econstructor; eauto using traverses_nil.
  - econstructor; eauto.
Qed.

(** The walk of [resolveValue], from any node but [null]. *)
Lemma resolveValue_from_spec (idx : string) (fragments : list string) :
  forall (val : json) (at_ : path),
    val <> JNull ->
    match resolveValue_from idx val at_ fragments with
    | inr (v, p) => p = at_ ++ fragments /\ traverses val fragments v
    | inl e =>
        exists before i after u,
          fragments = before ++ i :: after
          /\ traverses val before u
          /\ absent_or_falsy (Js.get_prop u i)
          /\ e = ResolutionError idx i
    end.
Proof.
  induction fragments as [ | i rest IH]; intros val at_ Hval; simpl.
  - split; [ now rewrite app_nil_r | constructor ].
  - assert (Hread : read_property val i = inr (Js.get_prop val i))
      by (destruct val; simpl; congruence).
    rewrite Hread.
    destruct (Js.get_prop val i) as [v | ] eqn:Hget.
    + destruct (Js.truthy v) eqn:Hv.
      * specialize (IH v (at_ ++ [i]) (truthy_not_null v Hv)).
        destruct (resolveValue_from idx v (at_ ++ [i]) rest) as [e | [w p]].
        -- destruct IH as (before & j & after & u & -> & Hwalk & Hfalsy & ->).
           exists (i :: before), j, after, u.
           split; [ reflexivity | ]. split; [ econstructor; eauto | ].
           split; [ assumption | reflexivity ].
        -- destruct IH as [-> Hwalk]. split.
           ++ now rewrite <- app_assoc.
           ++ econstructor; eauto.
      * exists [], i, rest, val.
        split; [ reflexivity | ]. split; [ constructor | ].
        split; [ | reflexivity ].
        apply truthy_opt_false. now rewrite Hget.
    + exists [], i, rest, val.
      split; [ reflexivity | ]. split; [ constructor | ].
      split; [ | reflexivity ].
      rewrite Hget. left. reflexivity.
Qed.

(** The read at which a walk that reads own properties stops is one. *)
Lemma reads_own_at (r : json) (before : list string) (u : json) :
  traverses r before u ->
  forall (i : string) (after : list string),
    Js.reads_own r (before ++ i :: after) = true -> Js.reads_own u [i] = true.
Proof.
  induction 1 as [ | r j v rest w Hget Hv _ IH]; intros i after Hown.
  - cbn [app Js.reads_own] in *.
    destruct (Js.get_prop r i) as [v | ]; [ now destruct (Js.truthy v) | exact Hown ].
  - cbn [app Js.reads_own] in Hown. rewrite Hget, Hv in Hown. now apply (IH i after).
Qed.

(** C6, as the code has it: [resolveValue] follows the fragments of the
    dotted path from the root of the configuration, one at a time.  Either
    every fragment names a property with a truthy value, and the value at
    the end of the path is returned, whatever it is; or the traversal stops
    at the first fragment whose value is absent, [null], [false], [0] or the
    empty string, with an error whose message names the path and that
    fragment.  An array is never falsy: the empty sequence is traversed and
    returned like any other value.  The configuration is left as it was.
    This is so for a path that reads own properties: a fragment that names
    no property of the document where it is read, but a member the node
    inherits ([constructor], [toString], ...), finds that member. *)
Theorem resolveValue_traversal (st : state) (idx : string) :
  configObject st <> JNull ->
  Js.reads_own (configObject st) (Str.split_dot idx) = true ->
  (exists v,
      resolveValue idx st = (Return (v, Str.split_dot idx), st)
      /\ traverses (configObject st) (Str.split_dot idx) v
      /\ Js.get_path (configObject st) (Str.split_dot idx) = Some v)
  \/ (exists before i after u,
         Str.split_dot idx = before ++ i :: after
         /\ traverses (configObject st) before u
         /\ absent_or_falsy (Js.get_prop u i)
         /\ Js.reads_own u [i] = true
         /\ resolveValue idx st = (Throw (ResolutionError idx i), st)
         /\ e_message (ResolutionError idx i)
            = "Resolution error for index (" +:+ idx +:+ ") at fragment " +:+ i).
Proof.
  intros Hroot Hown.
  pose proof (resolveValue_from_spec idx (Str.split_dot idx) (configObject st) [] Hroot) as H.
  unfold resolveValue, bind, get_config.
  destruct (resolveValue_from idx (configObject st) [] (Str.split_dot idx)) as [e | [v p]].
  - right. destruct H as (before & i & after & u & Hsplit & Hwalk & Hfalsy & ->).
    exists before, i, after, u. rewrite Hsplit in Hown.
    repeat split; auto. now apply (reads_own_at _ _ _ Hwalk i after).
  - left. destruct H as [-> Hwalk]. exists v. simpl.
    repeat split; auto using traverses_get_path.
Qed.

Lemma resolveValue_traversal_witness :
  (exists v,
      resolveValue "a.b" (holding (JObj [("a", JObj [("b", JStr "x")])]))
      = (Return (v, ["a"; "b"]), holding (JObj [("a", JObj [("b", JStr "x")])]))
      /\ traverses (JObj [("a", JObj [("b", JStr "x")])]) ["a"; "b"] v
      /\ Js.get_path (JObj [("a", JObj [("b", JStr "x")])]) ["a"; "b"] = Some v)
  \/ (exists before i after u,
         ["a"; "b"] = before ++ i :: after
         /\ traverses (JObj [("a", JObj [("b", JStr "x")])]) before u
         /\ absent_or_falsy (Js.get_prop u i)
         /\ Js.reads_own u [i] = true
         /\ resolveValue "a.b" (holding (JObj [("a", JObj [("b", JStr "x")])]))
            = (Throw (ResolutionError "a.b" i),
               holding (JObj [("a", JObj [("b", JStr "x")])]))
         /\ e_message (ResolutionError "a.b" i)
            = "Resolution error for index (" +:+ "a.b" +:+ ") at fragment " +:+ i).
Proof.
  apply (resolveValue_traversal (holding (JObj [("a", JObj [("b", JStr "x")])])) "a.b").
  - simpl. discriminate.
  - reflexivity.
Defined.

(** C6, as stated, fails on an empty sequence: [![]] is false, so the
    traversal does not throw on it and the empty array is returned. *)
Lemma resolveValue_empty_sequence_is_returned :
  Js.truthy (JArr []) = true
  /\ resolveValue "a" (holding (JObj [("a", JArr [])]))
     = (Return (JArr [], ["a"]), holding (JObj [("a", JArr [])]))
  /\ forall i, fst (resolveValue "a" (holding (JObj [("a", JArr [])])))
               <> Throw (ResolutionError "a" i).
Proof.
  repeat split. intros i H. vm_compute in H. discriminate.
Qed.

(** ** Placeholders *)

Lemma split_dot_not_nil (s : string) : Str.split_dot s <> [].
Proof.
  destruct s as [ | c r]; simpl; [ discriminate | ].
  destruct (Ascii.eqb c "."); [ discriminate | ].
  destruct (Str.split_dot r); discriminate.
Qed.

(** A path that resolves does so in a configuration that is not [null]. *)
Lemma resolves_not_null (idx : string) (root : json) (node : json * path) :
  resolveValue_from idx root [] (Str.split_dot idx) = inr node -> root <> JNull.
Proof.
  intros H ->. pose proof (split_dot_not_nil idx) as Hne.
  destruct (Str.split_dot idx); [ congruence | discriminate ].
Qed.

(** When the lookup of the first placeholder throws, so does the expansion
    of the string: nothing in the loop catches. *)
Lemma scalar_first_lookup_throws (lookup_rec : string -> M jsvalue)
  (s token target : string) (e : exn) (st st' : state) :
  Regex.exec s = Some (token, target) ->
  lookup_rec target st = (Throw e, st') ->
  resolveReplacementsForScalar lookup_rec (JStr s) st = (Throw e, st').
Proof.
  intros Hexec Hthrow.
  unfold resolveReplacementsForScalar, toString, bind, ret. simpl.
  rewrite Hexec. simpl. unfold bind. now rewrite Hthrow.
Qed.

Lemma lookup_string_first_lookup_throws (fuel : nat) (idx s token target : string)
  (at_ : path) (e : exn) (st st' : state) :
  resolveValue_from idx (configObject st) [] (Str.split_dot idx) = inr (JStr s, at_) ->
  Regex.exec s = Some (token, target) ->
  lookup fuel target (logging st (Log Debug resolving [idx])) = (Throw e, st') ->
  lookup (S fuel) idx st = (Throw e, st').
Proof.
  intros Hwalk Hexec Hthrow. rewrite lookup_S, Hwalk. simpl.
  unfold resolveReplacements. simpl. unfold bind.
  now rewrite (scalar_first_lookup_throws _ _ _ _ _ _ _ Hexec Hthrow).
Qed.

(** A string whose placeholder names a path that the configuration does
    not have, and one whose placeholder names a path that resolves to no
    text: [b] expands to the text of the empty sequence [a]. *)
Definition missing_target : json := JObj [("s", JStr "x-${missing}-y")].

Definition empty_target : json :=
  JObj [("a", JArr []); ("b", JStr "${a}"); ("c", JStr "x${b}y")].

(** C1: a placeholder whose target does not resolve is not skipped.  The
    lookup of the target throws the resolution error, and nothing between
    [resolveValue] and [value] catches it: the request for [s] ends with that
    error, after the two lookups the logger has heard of, with no string
    returned and nothing cached.  The guard [if (replace)] that leaves a
    token in place is reached only when the lookup returns, with a falsy
    value: the token [${b}] stays in [c] because [b] resolves to the empty
    text. *)
Theorem placeholder_miss_is_thrown (fuel : nat) :
  value (S (S fuel)) None "s" None (holding missing_target)
  = (Throw (ResolutionError "missing" "missing"),
     State missing_target ∅
           [Log Debug resolving ["s"]; Log Debug resolving ["missing"]])
  /\ (forall out st',
        value (S (S fuel)) None "s" None (holding missing_target)
        <> (Return out, st'))
  /\ fst (value (S (S (S (S fuel)))) None "c" None (holding empty_target))
     = Return (VJson (JStr "x${b}y")).
Proof.
  assert (H : value (S (S fuel)) None "s" None (holding missing_target)
              = (Throw (ResolutionError "missing" "missing"),
                 State missing_target ∅
                       [Log Debug resolving ["s"]; Log Debug resolving ["missing"]]))
    by (vm_compute; reflexivity).
  split; [ exact H | ]. split.
  - intros out st' Hret. rewrite H in Hret. discriminate.
  - vm_compute. reflexivity.
Qed.

(** *** Cyclic placeholders *)

Definition cyclic : json := JObj [("a", JStr "${b}"); ("b", JStr "${a}")].

(** Each lookup of [a] starts a loop of its own, whose first pass looks up
    [b], whose first pass looks up [a]: no loop reaches a second pass, and
    the counter [i] of none of them leaves [0].  The logger hears of one
    lookup for every frame there was. *)
Lemma lookup_cyclic (fuel : nat) :
  forall st : state,
    configObject st = cyclic ->
    (exists st',
        lookup fuel "a" st = (Throw StackOverflow, st')
        /\ List.length (logged st') = (List.length (logged st) + fuel)%nat)
    /\ (exists st',
           lookup fuel "b" st = (Throw StackOverflow, st')
           /\ List.length (logged st') = (List.length (logged st) + fuel)%nat).
Proof.
  induction fuel as [ | fuel IH]; intros st Hcfg.
  - split; exists st; (split; [ reflexivity | lia ]).
  - split.
    + destruct (IH (logging st (Log Debug resolving ["a"])) Hcfg)
        as [_ (st' & Hb & Hlen)].
      exists st'. split.
      * apply (lookup_string_first_lookup_throws fuel "a" "${b}" "${b}" "b" ["a"]);
          [ rewrite Hcfg; reflexivity | reflexivity | exact Hb ].
      * rewrite Hlen. cbn [logging logged]. rewrite length_app. simpl. lia.
    + destruct (IH (logging st (Log Debug resolving ["b"])) Hcfg)
        as [(st' & Ha & Hlen) _].
      exists st'. split.
      * apply (lookup_string_first_lookup_throws fuel "b" "${a}" "${a}" "a" ["b"]);
          [ rewrite Hcfg; reflexivity | reflexivity | exact Ha ].
      * rewrite Hlen. cbn [logging logged]. rewrite length_app. simpl. lia.
Qed.

(** C2 on the code: with the configuration [{a: "${b}", b: "${a}"}],
    resolving [a] never returns.  Whatever the depth of the call stack, the
    lookups of [a] and [b] call each other until the stack is exhausted, one
    lookup to a frame, and the RangeError leaves [value]; the bound of the
    loop is never reached. *)
Theorem cyclic_placeholders_exhaust_the_stack (fuel : nat) :
  exists st',
    value fuel None "a" None (holding cyclic) = (Throw StackOverflow, st')
    /\ List.length (logged st') = fuel.
Proof.
  destruct (lookup_cyclic fuel (holding cyclic) eq_refl) as [(st' & Ha & Hlen) _].
  exists st'. split; [ | exact Hlen ].
  assert (Hc : lookupCachedValue "a" None (holding cyclic)
               = (Return (VJson JNull), holding cyclic)) by reflexivity.
  unfold value. cbn [buildIndex]. unfold bind at 1. rewrite Hc.
  cbv beta iota delta [Js.truthy_value Js.truthy].
  unfold bind at 1. rewrite Ha. reflexivity.
Qed.

(** Where the bound of the loop does stop an expansion: [a] resolves to
    the replacement pattern for the matched text, so every pass puts the
    token back.  The loop gives up after [maxIterations + 1] lookups of [a]
    and the token is returned. *)
Lemma iteration_bound_example :
  fst (value 5 None "b" None (holding (JObj [("a", JStr "$&"); ("b", JStr "${a}")])))
  = Return (VJson (JStr "${a}"))
  /\ List.length
       (logged (snd (value 5 None "b" None
                       (holding (JObj [("a", JStr "$&"); ("b", JStr "${a}")])))))
     = S (S maxIterations).
Proof. split; vm_compute; reflexivity. Qed.

(** *** Substitution *)

Lemma special_backslash (c : ascii) :
  Regex.is_special c = false -> Ascii.eqb c "\" = false.
Proof.
  intros H. destruct (Ascii.eqb_spec c "\") as [-> | ]; [ discriminate | reflexivity ].
Qed.

Lemma regexQuote_cons (c : ascii) (r : string) :
  regexQuote (String c r)
  = if Regex.is_special c then String "\" (String c (regexQuote r))
    else String c (regexQuote r).
Proof.
  unfold regexQuote. simpl. now destruct (Regex.is_special c).
Qed.

(** The pattern built from a quoted token denotes the token itself. *)
Lemma regexQuote_literal (s : string) :
  Regex.literal_of_pattern (regexQuote s) = s.
Proof.
  induction s as [ | c r IH]; [ reflexivity | ].
  rewrite regexQuote_cons.
  destruct (Regex.is_special c) eqn:Hc.
  - simpl. now rewrite IH.
  - simpl. rewrite (special_backslash c Hc). now rewrite IH.
Qed.

Fixpoint has_dollar (s : string) : bool :=
  match s with
  | EmptyString => false
  | String c r => Ascii.eqb c "$" || has_dollar r
  end.

(** A replacement without [$] is inserted as it is. *)
Lemma get_substitution_plain (matched before after templ : string) :
  has_dollar templ = false ->
  Regex.get_substitution matched before after templ = templ.
Proof.
  induction templ as [ | c r IH]; simpl; [ reflexivity | ].
  destruct (Ascii.eqb c "$"); simpl; [ discriminate | ].
  intros H. now rewrite IH.
Qed.

(** Replacing every occurrence of [lit] by the text [text] as it is. *)
Fixpoint replace_textually (lit text : string) (skip : nat) (s : string) : string :=
  match s with
  | EmptyString => EmptyString
  | String c r =>
      match skip with
      | S k => replace_textually lit text k r
      | O =>
          match Str.starts_with lit s with
          | Some _ => text +:+ replace_textually lit text (String.length lit - 1) r
          | None => String c (replace_textually lit text 0 r)
          end
      end
  end.

Lemma replace_scan_plain (lit templ : string) (s : string) :
  has_dollar templ = false ->
  forall (skip : nat) (before : string),
    Regex.replace_scan lit templ skip before s = replace_textually lit templ skip s.
Proof.
  intros Hplain. induction s as [ | c r IH]; intros skip before; [ reflexivity | ].
  cbn [Regex.replace_scan replace_textually].
  destruct skip as [ | k]; [ | apply IH ].
  destruct (Str.starts_with lit (String c r)) as [after | ].
  - now rewrite get_substitution_plain, IH.
  - now rewrite IH.
Qed.

(** A resolved text without [$] replaces the occurrences of the token
    textually. *)
Lemma replace_all_plain (lit templ s : string) :
  has_dollar templ = false ->
  Regex.replace_all lit templ s = replace_textually lit templ 0 s.
Proof. intros H. now apply replace_scan_plain. Qed.

(** One pass of the loop: the first placeholder is looked up through the
    whole pipeline, and the text of a truthy result is substituted, as a
    replacement template, for every occurrence of the token. *)
Lemma scalar_pass (lookup_rec : string -> M jsvalue) (s token target templ : string)
  (v : jsvalue) (st st' : state) :
  Regex.exec s = Some (token, target) ->
  lookup_rec target st = (Return v, st') ->
  Js.truthy_value v = true ->
  string_of_value v st' = (Return templ, st') ->
  resolveReplacementsForScalar lookup_rec (JStr s) st
  = scalar_loop lookup_rec maxIterations 1 (Regex.replace_all token templ s) st'.
Proof.
  intros Hexec Hlookup Hv Htempl.
  unfold resolveReplacementsForScalar, toString. unfold bind at 1. unfold ret at 1.
  cbn [Js.to_string]. rewrite scalar_loop_S.
  change (maxIterations <? 0)%nat with false. cbv iota.
  rewrite Hexec. unfold bind at 1. rewrite Hlookup.
  rewrite Hv. unfold bind at 1. unfold bind at 1. rewrite Htempl.
  unfold ret at 1. now rewrite regexQuote_literal.
Qed.

Definition simple : json :=
  JObj [("a", JStr "foo"); ("b", JStr "prefix-${a}-suffix")].

Definition chained : json :=
  JObj [("a", JStr "${b}"); ("b", JStr "${c}"); ("c", JStr "leaf")].

(** The two expansions that C7 gives as examples. *)
Lemma placeholder_expansion_examples (fuel : nat) :
  fst (value (S (S fuel)) None "b" None (holding simple))
  = Return (VJson (JStr "prefix-foo-suffix"))
  /\ fst (value (S (S (S fuel))) None "a" None (holding chained))
     = Return (VJson (JStr "leaf")).
Proof. split; reflexivity. Qed.

Definition dollars : json := JObj [("a", JStr "x$$y"); ("b", JStr "${a}")].

(** C7 on the code: the text a placeholder resolves to is handed to
    [String.prototype.replace] as a replacement template, so it does not
    always replace the token textually.  With [{a: "x$$y", b: "${a}"}],
    [a] resolves to [x$$y] and [b], which is the placeholder for [a] and
    nothing else, resolves to [x$y]. *)
Theorem replacement_patterns_are_interpreted (fuel : nat) :
  fst (value (S fuel) None "a" None (holding dollars))
  = Return (VJson (JStr "x$$y"))
  /\ fst (value (S (S fuel)) None "b" None (holding dollars))
     = Return (VJson (JStr "x$y"))
  /\ Regex.replace_all "${a}" "x$$y" "${a}" = "x$y".
Proof. repeat split. Qed.

(** ** Cache keys *)

Lemma append_nil (b : string) : "" +:+ b = b.
Proof. reflexivity. Qed.

Lemma append_cons (x : ascii) (a b : string) :
  String x a +:+ b = String x (a +:+ b).
Proof. reflexivity. Qed.

Lemma append_assoc (a b c : string) : (a +:+ b) +:+ c = a +:+ (b +:+ c).
Proof.
  induction a as [ | x a IH]; [ reflexivity | ].
  rewrite !append_cons. now rewrite IH.
Qed.

Lemma append_inv_head (a b c : string) : a +:+ b = a +:+ c -> b = c.
Proof.
  induction a as [ | x a IH]; [ now rewrite !append_nil | ].
  rewrite !append_cons. intros H. injection H as H. auto.
Qed.

Lemma filter_append (f : ascii -> bool) (a b : string) :
  Str.filter f (a +:+ b) = Str.filter f a +:+ Str.filter f b.
Proof.
  induction a as [ | x a IH]; [ reflexivity | ].
  rewrite append_cons. simpl. destruct (f x); [ | exact IH ].
  rewrite append_cons. now rewrite IH.
Qed.

(** What [JSON.stringify] contributes to a key for the options. *)
Definition serialized (opt : option json) : string :=
  match opt with
  | Some j => Json.stringify j
  | None => "undefined"
  end.

(** The key of a path and its options: only the word characters of the
    two serialized arguments are left in it. *)
Lemma buildCacheIndex_pair (idx : string) (opt : option json) :
  buildCacheIndex [Some (JStr idx); opt]
  = ("cache__0_" +:+ Str.strip_non_word (Json.quote idx))
      +:+ "__1_" +:+ Str.strip_non_word (serialized opt).
Proof.
  unfold buildCacheIndex, Str.strip_non_word. simpl cache_fragments.
  unfold cache_fragment, serialized.
  change (Str.of_Z (Z.of_nat 0)) with "0".
  change (Str.of_Z (Z.of_nat 1)) with "1".
  cbn [Json.stringify].
  rewrite !filter_append.
  change (Str.filter Str.is_word "cache") with "cache".
  change (Str.filter Str.is_word "__") with "__".
  change (Str.filter Str.is_word "0") with "0".
  change (Str.filter Str.is_word "1") with "1".
  change (Str.filter Str.is_word "_") with "_".
  rewrite !append_assoc. reflexivity.
Qed.

Lemma cache_keys_equal_iff (idx : string) (o1 o2 : option json) :
  buildCacheIndex [Some (JStr idx); o1] = buildCacheIndex [Some (JStr idx); o2]
  <-> Str.strip_non_word (serialized o1) = Str.strip_non_word (serialized o2).
Proof.
  rewrite !buildCacheIndex_pair. split.
  - intros H. apply append_inv_head in H. now apply append_inv_head in H.
  - now intros ->.
Qed.

(** Options that differ in other characters only share one entry. *)
Lemma cache_entries_shared (idx : string) (o1 o2 : option json)
  (v : jsvalue) (st : state) :
  Str.strip_non_word (serialized o1) = Str.strip_non_word (serialized o2) ->
  Js.truthy_value v = true ->
  fst (lookupCachedValue idx o2 (snd (assignCachedValue idx o1 v st))) = Return v.
Proof.
  intros Hsame Hv. apply (cache_keys_equal_iff idx) in Hsame.
  rewrite assignCachedValue_run, lookupCachedValue_run. cbn [fst snd configCached].
  rewrite Hsame, lookup_insert_eq. now rewrite Hv.
Qed.

(** C3: options that differ do not always get entries of their own.  The
    key is built from [JSON.stringify] of the options, which tells any two
    options apart, and is then stripped of every character that is not a
    letter, a digit or an underscore: the options [{pre: "["}] and
    [{pre: "("}] differ, their keys are the same, and the value decorated
    for the first request is what the second request is given. *)
Theorem cache_keys_collide (fuel : nat) :
  JObj [("pre", JStr "[")] <> JObj [("pre", JStr "(")]
  /\ Json.stringify (JObj [("pre", JStr "[")]) <> Json.stringify (JObj [("pre", JStr "(")])
  /\ buildCacheIndex [Some (JStr "x"); Some (JObj [("pre", JStr "[")])]
     = buildCacheIndex [Some (JStr "x"); Some (JObj [("pre", JStr "(")])]
  /\ fst (value (S fuel) None "x" (Some (JObj [("pre", JStr "[")]))
            (holding (JObj [("x", JStr "mid")])))
     = Return (VJson (JStr "[mid"))
  /\ fst (value (S fuel) None "x" (Some (JObj [("pre", JStr "(")]))
            (snd (value (S fuel) None "x" (Some (JObj [("pre", JStr "[")]))
                    (holding (JObj [("x", JStr "mid")])))))
     = Return (VJson (JStr "[mid")).
Proof.
  split; [ discriminate | ]. split; [ vm_compute; discriminate | ].
  split; [ vm_compute; reflexivity | ]. split; vm_compute; reflexivity.
Qed.

(** ** Loading *)

(** The file the first attempt reads: the caller's path when it names a
    regular file, the conventional [./.gulp.json] otherwise. *)
Definition user_source (fs : filesystem) (file : option string) : string :=
  match file with
  | Some f => match fs f with NotRegular => "./.gulp.json" | _ => f end
  | None => "./.gulp.json"
  end.

(** The level of a logged call and the file it reports, if any. *)
Definition attempt (e : log_event) : level * string :=
  (log_level e, nth 1 (log_replacements e) "").

Lemma loadConfigFile_run (fs : filesystem) (file context : string) (st : state) :
  loadConfigFile fs file context st
  = match fs file with
    | Document j =>
        (Return true,
         State j (configCached st)
               (logged st ++ [Log Info loaded_message [context; file]]))
    | _ =>
        (Return false,
         State (configObject st) (configCached st)
               (logged st ++ [Log Error unable_message
                                [context; file;
                                 match fst (readAndParseConfig fs file st) with
                                 | Throw e => e_name e
                                 | Return _ => ""
                                 end;
                                 match fst (readAndParseConfig fs file st) with
                                 | Throw e => e_message e
                                 | Return _ => ""
                                 end]]))
    end.
Proof.
  unfold loadConfigFile, try_catch, readAndParseConfig, bind.
  destruct (fs file); reflexivity.
Qed.



Definition sample_files : filesystem :=
  fun p =>
    if String.eqb p "broken.json" then Malformed "Unexpected end of JSON input"
    else if String.eqb p "./.gulp.json" then Document (JObj [("source", JStr "conventional")])
    else if String.eqb p configFileDefault then Document (JObj [("source", JStr "bundled")])
    else NoEntry.



(** A primary path with nothing behind it is not recovered from:
    [fs.statSync] throws before any file is read. *)
Lemma load_missing_primary_throws :
  fst (construct sample_files (Some "absent.json"))
  = Throw (Exn "Error" "ENOENT: no such file or directory, stat 'absent.json'").
Proof. reflexivity. Qed.

(** ** Decoration *)

Lemma append_nil_r (a : string) : a +:+ "" = a.
Proof.
  induction a as [ | x a IH]; [ reflexivity | ].
  rewrite append_cons. now rewrite IH.
Qed.

(** The text put in front of a scalar: that of [opt.pre] when the options
    and the field are truthy, nothing otherwise.  Likewise behind it. *)
Definition prefix_of (opt : option json) : string :=
  match option_field opt "pre" with
  | Some pre => Js.to_string pre
  | None => ""
  end.

Definition suffix_of (opt : option json) : string :=
  match option_field opt "post" with
  | Some post => Js.to_string post
  | None => ""
  end.

Definition decorated (opt : option json) (s : string) : string :=
  prefix_of opt +:+ s +:+ suffix_of opt.

Lemma applyOptionsOnScalar_string (s : string) (opt : option json) (st : state) :
  applyOptionsOnScalar (VJson (JStr s)) opt st
  = (Return (VJson (JStr (decorated opt s))), st).
Proof.
  unfold applyOptionsOnScalar, decorated, prefix_of, suffix_of.
  destruct (option_field opt "pre") as [pre | ];
    destruct (option_field opt "post") as [post | ];
    cbv beta iota delta [bind js_add string_of_value ret]; cbn [Js.to_string].
  - now rewrite append_assoc.
  - now rewrite append_nil_r.
  - reflexivity.
  - now rewrite append_nil, append_nil_r.
Qed.

Lemma applyOptionsOnArray_elements (l : list string) (opt : option json) (st : state) :
  map_m (fun v => s <- toString v ;;
                  r <- applyOptionsOnScalar (VJson (JStr s)) opt ;;
                  string_of_value r) (List.map JStr l) st
  = (Return (List.map (decorated opt) l), st).
Proof.
  induction l as [ | e l IH]; [ reflexivity | ].
  cbn [List.map map_m]. unfold bind at 1. unfold bind at 1.
  unfold toString at 1. unfold ret at 1. cbn [Js.to_string].
  unfold bind at 1. rewrite applyOptionsOnScalar_string.
  unfold string_of_value at 1. unfold ret at 1. cbn [Js.to_string].
  unfold bind at 1. rewrite IH. reflexivity.
Qed.

Lemma map_map_JStr (f : string -> string) (l : list string) :
  List.map JStr (List.map f l) = List.map (fun e => JStr (f e)) l.
Proof. induction l as [ | e l IH]; simpl; congruence. Qed.

(** C8: a resolved scalar [s] comes out as [pre + s + post], where a field
    that is absent or falsy contributes nothing; a resolved sequence, which
    is the array stored at some place [p] of the configuration, comes out as
    a new array whose elements are those of the sequence, each decorated in
    the same way. *)
Theorem applyOptions_decorates (opt : option json) (s : string) (l : list string)
  (p : path) (st : state) :
  Js.get_path (configObject st) p = Some (JArr (List.map JStr l)) ->
  applyOptions (VJson (JStr s)) opt st
  = (Return (VJson (JStr (prefix_of opt +:+ s +:+ suffix_of opt))), st)
  /\ applyOptions (VRef p) opt st
     = (Return (VJson (JArr (List.map
                               (fun e => JStr (prefix_of opt +:+ e +:+ suffix_of opt))
                               l))), st).
Proof.
  intros Hp. split.
  - unfold applyOptions, contents. unfold bind at 1. unfold ret at 1.
    apply applyOptionsOnScalar_string.
  - assert (Hc : contents (VRef p) st = (Return (Some (JArr (List.map JStr l))), st)).
    { unfold contents, deref, bind, get_config. now rewrite Hp. }
    unfold applyOptions. unfold bind at 1. rewrite Hc.
    unfold applyOptionsOnArray. unfold bind at 1. rewrite Hc.
    unfold bind at 1. rewrite applyOptionsOnArray_elements.
    unfold ret. now rewrite map_map_JStr.
Qed.

Lemma applyOptions_decorates_witness :
  applyOptions (VJson (JStr "mid"))
    (Some (JObj [("pre", JStr "["); ("post", JStr "]")]))
    (holding (JObj [("x", JArr [JStr "a"; JStr "b"])]))
  = (Return (VJson (JStr "[mid]")), holding (JObj [("x", JArr [JStr "a"; JStr "b"])]))
  /\ applyOptions (VRef ["x"])
       (Some (JObj [("pre", JStr "["); ("post", JStr "]")]))
       (holding (JObj [("x", JArr [JStr "a"; JStr "b"])]))
     = (Return (VJson (JArr [JStr "[a]"; JStr "[b]"])),
        holding (JObj [("x", JArr [JStr "a"; JStr "b"])])).
Proof.
  apply (applyOptions_decorates (Some (JObj [("pre", JStr "["); ("post", JStr "]")]))
           "mid" ["a"; "b"] ["x"] (holding (JObj [("x", JArr [JStr "a"; JStr "b"])]))).
  reflexivity.
Defined.

(** The two decorations that C8 gives as examples, through [value]. *)
Lemma decoration_examples (fuel : nat) :
  fst (value (S fuel) None "x" (Some (JObj [("pre", JStr "["); ("post", JStr "]")]))
         (holding (JObj [("x", JStr "mid")])))
  = Return (VJson (JStr "[mid]"))
  /\ fst (value (S (S fuel)) None "x" (Some (JObj [("pre", JStr "["); ("post", JStr "]")]))
            (holding (JObj [("x", JArr [JStr "a"; JStr "b"])])))
     = Return (VJson (JArr [JStr "[a]"; JStr "[b]"])).
Proof. split; vm_compute; reflexivity. Qed.

(** With fields that are truthy strings the decoration is the two strings. *)
Lemma decorated_strings (pre post s : string) :
  pre <> "" -> post <> "" ->
  decorated (Some (JObj [("pre", JStr pre); ("post", JStr post)])) s
  = pre +:+ s +:+ post.
Proof.
  intros Hpre Hpost. unfold decorated, prefix_of, suffix_of, option_field.
  cbn [Js.truthy Js.get_prop Js.assoc]. simpl String.eqb.
  destruct pre; [ congruence | ]. destruct post; [ congruence | ]. reflexivity.
Qed.

(** ** Memoization *)

Lemma decorated_not_empty (opt : option json) (c : ascii) (s : string) :
  Js.truthy_value (VJson (JStr (decorated opt (String c s)))) = true.
Proof.
  unfold decorated. cbn [Js.truthy_value Js.truthy].
  destruct (prefix_of opt); reflexivity.
Qed.

(** A request answered from a truthy entry of the cache: no lookup is made
    and the state is what it was. *)
Lemma value_cached (fuel : nat) (ctx : option string) (idx : string)
  (opt : option json) (v : jsvalue) (st : state) :
  configCached st !! buildCacheIndex [Some (JStr (buildIndex ctx idx)); opt] = Some v ->
  Js.truthy_value v = true ->
  value fuel ctx idx opt st = (Return v, st).
Proof.
  intros Hhit Hv. unfold value. unfold bind at 1.
  rewrite lookupCachedValue_run, Hhit, Hv. cbv iota. now rewrite Hv.
Qed.

(** C9: in a configuration that holds [{a: {b: "x"}}] and has nothing
    cached, resolving [a.b], given whole or as the key [b] under the
    namespace [a], looks the path up once and returns [x], decorated if
    options are given.  Resolving it again with the same options returns
    the same value and leaves the state as it is: the logger, which hears of
    every lookup, receives nothing, and the answer does not depend on the
    frames available because none is used. *)
Theorem memoized_round_trip (kvs kvs' : list (string * json))
  (ctx : option string) (idx : string) (opt : option json) (fuel fuel' : nat) :
  buildIndex ctx idx = "a.b" ->
  Js.assoc "a" kvs = Some (JObj kvs') ->
  Js.assoc "b" kvs' = Some (JStr "x") ->
  exists st1,
    value (S fuel) ctx idx opt (holding (JObj kvs))
    = (Return (VJson (JStr (prefix_of opt +:+ "x" +:+ suffix_of opt))), st1)
    /\ configObject st1 = JObj kvs
    /\ logged st1 = [Log Debug resolving ["a.b"]]
    /\ value fuel' ctx idx opt st1
       = (Return (VJson (JStr (prefix_of opt +:+ "x" +:+ suffix_of opt))), st1).
Proof.
  intros Hidx Ha Hb.
  assert (Hwalk : resolveValue_from "a.b" (JObj kvs) [] (Str.split_dot "a.b")
                  = inr (JStr "x", ["a"; "b"])).
  { change (Str.split_dot "a.b") with ["a"; "b"].
    cbn [resolveValue_from read_property Js.get_prop]. rewrite Ha.
    cbn [Js.truthy resolveValue_from read_property Js.get_prop]. rewrite Hb.
    reflexivity. }
  assert (Hlookup : forall st, configObject st = JObj kvs ->
            lookup (S fuel) "a.b" st
            = (Return (VJson (JStr "x")), logging st (Log Debug resolving ["a.b"]))).
  { intros st Hst. rewrite lookup_S, Hst, Hwalk. reflexivity. }
  eexists. split; [ | split; [ | split ] ].
  - unfold value. rewrite Hidx. cbv zeta. unfold bind at 1.
    rewrite lookupCachedValue_run. cbn [holding configCached].
    rewrite lookup_empty. cbv beta iota delta [Js.truthy_value Js.truthy].
    unfold bind at 1. rewrite (Hlookup (holding (JObj kvs)) eq_refl).
    unfold bind at 1. unfold applyOptions. unfold bind at 1.
    unfold contents at 1. unfold ret at 1.
    rewrite applyOptionsOnScalar_string.
    unfold bind at 1. rewrite assignCachedValue_run. reflexivity.
  - reflexivity.
  - reflexivity.
  - apply value_cached.
    + rewrite Hidx. cbn [configCached logging holding]. apply lookup_insert_eq.
    + apply decorated_not_empty.
Qed.

Lemma memoized_round_trip_witness :
  exists st1,
    value 1 (Some "a") "b" None (holding (JObj [("a", JObj [("b", JStr "x")])]))
    = (Return (VJson (JStr "x")), st1)
    /\ configObject st1 = JObj [("a", JObj [("b", JStr "x")])]
    /\ logged st1 = [Log Debug resolving ["a.b"]]
    /\ value 0 (Some "a") "b" None st1 = (Return (VJson (JStr "x")), st1).
Proof.
  apply (memoized_round_trip [("a", JObj [("b", JStr "x")])] [("b", JStr "x")]
           (Some "a") "b" None 0 0); reflexivity.
Defined.

(** ** [build] *)

(** A key resolved under the namespace, without options, as text. *)
Definition resolved_text (fuel : nat) (ctx : option string) (idx : string)
  : M string :=
  v <- value fuel ctx idx None ;;
  string_of_value v.

(** The concatenation the claim describes: the texts of the keys, resolved
    in order, behind the text of an accumulator that starts undefined. *)
Definition concatenation (fuel : nat) (ctx : option string)
  (indexes : list string) : M jsvalue :=
  texts <- map_m (resolved_text fuel ctx) indexes ;;
  ret (VJson (JStr ("undefined" +:+ Str.concat_all texts))).

Lemma js_add_text (a : jsvalue) (acc : string) (v : jsvalue) (st : state) :
  string_of_value a st = (Return acc, st) ->
  js_add a v st
  = match string_of_value v st with
    | (Return s, st') => (Return (VJson (JStr (acc +:+ s))), st')
    | (Throw e, st') => (Throw e, st')
    end.
Proof.
  intros Ha. unfold js_add. unfold bind at 1. rewrite Ha.
  unfold bind at 1. now destruct (string_of_value v st) as [[s | e] st'].
Qed.

Lemma build_step (fuel : nat) (ctx : option string) (idx : string)
  (rest : list string) (a : jsvalue) (acc : string) (st : state) :
  (forall s, string_of_value a s = (Return acc, s)) ->
  build_from fuel ctx (idx :: rest) a st
  = match resolved_text fuel ctx idx st with
    | (Return s, st') => build_from fuel ctx rest (VJson (JStr (acc +:+ s))) st'
    | (Throw e, st') => (Throw e, st')
    end.
Proof.
  intros Ha. cbn [build_from]. unfold resolved_text. unfold bind at 1 3.
  destruct (value fuel ctx idx None st) as [[v | e] st1]; [ | reflexivity ].
  unfold bind at 1. rewrite (js_add_text a acc v st1 (Ha st1)).
  now destruct (string_of_value v st1) as [[s | e] st2].
Qed.

Lemma build_from_string (fuel : nat) (ctx : option string) (indexes : list string) :
  forall (acc : string) (st : state),
    build_from fuel ctx indexes (VJson (JStr acc)) st
    = (texts <- map_m (resolved_text fuel ctx) indexes ;;
       ret (VJson (JStr (acc +:+ Str.concat_all texts)))) st.
Proof.
  induction indexes as [ | idx rest IH]; intros acc st.
  - cbv beta iota delta [build_from map_m bind ret Str.concat_all].
    now rewrite append_nil_r.
  - rewrite (build_step fuel ctx idx rest (VJson (JStr acc)) acc st)
      by reflexivity.
    cbn [map_m]. unfold bind at 1 2.
    destruct (resolved_text fuel ctx idx st) as [[s | e] st1]; [ | reflexivity ].
    rewrite IH. unfold bind at 1 2.
    destruct (map_m (resolved_text fuel ctx) rest st1) as [[texts | e] st2];
      [ | reflexivity ].
    unfold ret. cbn [Str.concat_all]. now rewrite append_assoc.
Qed.

(** C5: for a list of keys that is not empty, [build] returns what the
    concatenation of the resolved texts behind an undefined accumulator
    returns, ends in the same state, and throws what it throws; so every
    value it returns is a string that starts with [undefined]. *)
Theorem build_concatenates (fuel : nat) (ctx : option string) (idx : string)
  (rest : list string) (st : state) :
  build fuel ctx (idx :: rest) st = concatenation fuel ctx (idx :: rest) st
  /\ forall v st',
       build fuel ctx (idx :: rest) st = (Return v, st') ->
       exists texts,
         List.length texts = List.length (idx :: rest)
         /\ v = VJson (JStr ("undefined" +:+ Str.concat_all texts)).
Proof.
  assert (Heq : build fuel ctx (idx :: rest) st = concatenation fuel ctx (idx :: rest) st).
  { unfold build, concatenation.
    rewrite (build_step fuel ctx idx rest VUndef "undefined" st) by reflexivity.
    cbn [map_m]. unfold bind at 1 2.
    destruct (resolved_text fuel ctx idx st) as [[s | e] st1]; [ | reflexivity ].
    rewrite build_from_string. unfold bind at 1 2.
    destruct (map_m (resolved_text fuel ctx) rest st1) as [[texts | e] st2];
      [ | reflexivity ].
    unfold ret. cbn [Str.concat_all]. now rewrite append_assoc. }
  split; [ exact Heq | ].
  intros v st' Hret. rewrite Heq in Hret. unfold concatenation in Hret.
  assert (Hlen : forall l s s' texts,
            map_m (resolved_text fuel ctx) l s = (Return texts, s') ->
            List.length texts = List.length l).
  { induction l as [ | k l IHl]; intros s s' texts H.
    - cbv in H. now inversion H.
    - cbn [map_m] in H. cbv beta iota delta [bind ret] in H.
      destruct (resolved_text fuel ctx k s) as [[t | e] s1]; [ | discriminate ].
      destruct (map_m (resolved_text fuel ctx) l s1) as [[ts | e] s2] eqn:Hl;
        [ | discriminate ].
      inversion H. subst. simpl. f_equal. eapply IHl. exact Hl. }
  cbv beta iota delta [bind ret] in Hret.
  destruct (map_m (resolved_text fuel ctx) (idx :: rest) st) as [[texts | e] s1] eqn:Hm;
    [ | discriminate ].
  exists texts. split; [ eapply Hlen; exact Hm | ]. now inversion Hret.
Qed.

Definition sample : json :=
  JObj [("paths",
         JObj [("root", JStr "web");
               ("css", JStr "${paths.root}/css");
               ("all", JArr [JStr "${paths.root}/a"; JStr "b"])])].

(** The builder on three keys: the array is coerced with commas. *)
Lemma build_example (fuel : nat) :
  fst (build (S (S (S fuel))) (Some "paths") ["root"; "css"; "all"] (holding sample))
  = Return (VJson (JStr "undefinedwebweb/cssweb/a,b")).
Proof. vm_compute. reflexivity. Qed.

(** ** The facade *)

(** C10: whatever its arguments and the state of the reader,
    [ConfigFetcher.options] throws a ReferenceError for [idxs], which is
    neither of its parameters, and returns nothing; the reader is not
    called.  The accessors [globs], [paths] and [files], which map over
    their own parameter, return the values they collect. *)
Theorem options_throws_reference_error (fuel : nat) (idx opt : jsvalue) (st : state) :
  ConfigFetcher.options fuel idx opt st = (Throw (ReferenceError "idxs"), st)
  /\ e_name (ReferenceError "idxs") = "ReferenceError"
  /\ fst (ConfigFetcher.paths (S (S (S fuel))) ["css"; "all"] (holding sample))
     = Return [VJson (JStr "web/css"); VJson (JStr "web/a"); VJson (JStr "b")]
  /\ fst (ConfigFetcher.globs (S (S (S fuel))) ["css"; "all"]
            (holding (JObj [("globs", JObj [("css", JStr "*.css"); ("all", JArr [JStr "*"])])])))
     = Return [VJson (JStr "*.css"); VJson (JStr "*")]
  /\ fst (ConfigFetcher.files (S (S (S fuel))) ["css"; "all"]
            (holding (JObj [("files", JObj [("css", JStr "a.css"); ("all", JArr [JStr "b"])])])))
     = Return [VJson (JStr "a.css"); VJson (JStr "b")].
Proof.
  split; [ reflexivity | ]. split; [ reflexivity | ].
  split; [ vm_compute; reflexivity | ]. split; vm_compute; reflexivity.
Qed.

(** * Further properties of the builder *)

(** ** What a computation does to the state *)

Section Steps.

(** A relation between the state before and the state after, closed under
    doing nothing and under doing one thing after another. *)
Variable R : state -> state -> Prop.
Hypothesis R_refl : forall st, R st st.
Hypothesis R_trans : forall st1 st2 st3, R st1 st2 -> R st2 st3 -> R st1 st3.

Definition steps {A : Type} (m : M A) : Prop :=
  forall st r st', m st = (r, st') -> R st st'.

Lemma steps_ret {A : Type} (a : A) : steps (ret a).
Proof. intros st r st' H. inversion H; subst. apply R_refl. Qed.

Lemma steps_throw {A : Type} (e : exn) : steps (@throw A e).
Proof. intros st r st' H. inversion H; subst. apply R_refl. Qed.

Lemma steps_bind {A B : Type} (m : M A) (k : A -> M B) :
  steps m -> (forall a, steps (k a)) -> steps (bind m k).
Proof.
  intros Hm Hk st r st' Hrun. unfold bind in Hrun.
  destruct (m st) as [o st1] eqn:Hmst. specialize (Hm st o st1 Hmst).
  destruct o as [a | e].
  - apply (R_trans st st1 st'); [ exact Hm | now apply (Hk a st1 r st') ].
  - now inversion Hrun; subst.
Qed.

Lemma steps_for_each {A : Type} (body : A -> M unit) (xs : list A) :
  (forall x, steps (body x)) -> steps (for_each xs body).
Proof.
  intros Hbody. induction xs as [ | x r IH]; cbn [for_each].
  - apply steps_ret.
  - apply steps_bind; [ apply Hbody | intros _; exact IH ].
Qed.

Lemma steps_map_m {A B : Type} (f : A -> M B) (xs : list A) :
  (forall x, steps (f x)) -> steps (map_m f xs).
Proof.
  intros Hf. induction xs as [ | x r IH]; cbn [map_m].
  - apply steps_ret.
  - apply steps_bind; [ apply Hf | intros y ].
    apply steps_bind; [ exact IH | intros ys; apply steps_ret ].
Qed.

(** Reading the state is a step of every such relation. *)
Lemma steps_get_config : steps get_config.
Proof. intros st r st' H. inversion H; subst. apply R_refl. Qed.

Lemma steps_get_cache : steps get_cache.
Proof. intros st r st' H. inversion H; subst. apply R_refl. Qed.

Lemma steps_deref (p : path) : steps (deref p).
Proof.
  unfold deref. apply steps_bind; [ apply steps_get_config | intros root ].
  destruct (Js.get_path root p); [ apply steps_ret | apply steps_throw ].
Qed.

Lemma steps_toString (v : json) : steps (toString v).
Proof. destruct v; first [ apply steps_ret | apply steps_throw ]. Qed.

Lemma steps_string_of_value (v : jsvalue) : steps (string_of_value v).
Proof.
  destruct v as [ | j | p]; cbn [string_of_value]; try apply steps_ret.
  apply steps_bind; [ apply steps_deref | intros j; apply steps_ret ].
Qed.

Lemma steps_js_add (a b : jsvalue) : steps (js_add a b).
Proof.
  unfold js_add. apply steps_bind; [ apply steps_string_of_value | intros sa ].
  apply steps_bind; [ apply steps_string_of_value | intros sb; apply steps_ret ].
Qed.

Lemma steps_resolveValue (idx : string) : steps (resolveValue idx).
Proof.
  unfold resolveValue. apply steps_bind; [ apply steps_get_config | intros root ].
  destruct (resolveValue_from idx root [] (Str.split_dot idx));
    [ apply steps_throw | apply steps_ret ].
Qed.

Lemma steps_contents (val : jsvalue) : steps (contents val).
Proof.
  destruct val as [ | j | p]; cbn [contents]; try apply steps_ret.
  apply steps_bind; [ apply steps_deref | intros j; apply steps_ret ].
Qed.

Lemma steps_applyOptionsOnScalar (val : jsvalue) (opt : option json) :
  steps (applyOptionsOnScalar val opt).
Proof.
  unfold applyOptionsOnScalar.
  apply steps_bind.
  { destruct (option_field opt "pre"); [ apply steps_js_add | apply steps_ret ]. }
  intros v. apply steps_bind; [ | intros; apply steps_ret ].
  destruct (option_field opt "post"); [ apply steps_js_add | apply steps_ret ].
Qed.

Lemma steps_applyOptionsOnArray (val : jsvalue) (opt : option json) :
  steps (applyOptionsOnArray val opt).
Proof.
  unfold applyOptionsOnArray.
  apply steps_bind; [ apply steps_contents | intros c ].
  destruct c as [[ | b | n | s | l | kvs] | ]; try apply steps_throw.
  apply steps_bind; [ | intros; apply steps_ret ].
  apply steps_map_m. intros v.
  apply steps_bind; [ apply steps_toString | intros s ].
  apply steps_bind; [ apply steps_applyOptionsOnScalar | intros r ].
  apply steps_string_of_value.
Qed.

(** Decoration reads the state and nothing more. *)
Lemma steps_applyOptions (val : jsvalue) (opt : option json) :
  steps (applyOptions val opt).
Proof.
  unfold applyOptions.
  apply steps_bind; [ apply steps_contents | intros c ].
  destruct c as [[ | b | n | s | l | kvs] | ];
    first [ apply steps_applyOptionsOnArray | apply steps_applyOptionsOnScalar ].
Qed.

Section StepsOfExpansion.

Variable lookup_rec : string -> M jsvalue.
Variable object_rec : path -> M jsvalue.
Hypothesis lookup_steps : forall idx, steps (lookup_rec idx).
Hypothesis object_steps : forall p, steps (object_rec p).
Hypothesis write_steps : forall p x, steps (write_at p x).

Lemma steps_scalar_loop (gas : nat) :
  forall (i : nat) (parsed : string), steps (scalar_loop lookup_rec gas i parsed).
Proof.
  induction gas as [ | gas IH]; intros i parsed.
  - rewrite scalar_loop_no_gas. apply steps_ret.
  - rewrite scalar_loop_S.
    destruct (Regex.exec parsed) as [[token target] | ]; [ | apply steps_ret ].
    destruct (maxIterations <? i)%nat; [ apply steps_ret | ].
    apply steps_bind; [ apply lookup_steps | intros replace ].
    apply steps_bind; [ | intros; apply IH ].
    destruct (Js.truthy_value replace); [ | apply steps_ret ].
    apply steps_bind; [ apply steps_string_of_value | intros; apply steps_ret ].
Qed.

Lemma steps_scalar (val : json) : steps (resolveReplacementsForScalar lookup_rec val).
Proof.
  unfold resolveReplacementsForScalar.
  apply steps_bind; [ apply steps_toString | intros; apply steps_scalar_loop ].
Qed.

Lemma steps_array (val : json) : steps (resolveReplacementsForArray lookup_rec val).
Proof.
  unfold resolveReplacementsForArray.
  destruct val; try apply steps_throw.
  apply steps_bind; [ | intros; apply steps_ret ].
  apply steps_map_m. intros; apply steps_scalar.
Qed.

Lemma steps_object_body (at_ : path) :
  steps (resolveReplacementsForObject_body lookup_rec object_rec at_).
Proof.
  unfold resolveReplacementsForObject_body.
  apply steps_bind; [ apply steps_deref | intros val ].
  apply steps_bind; [ | intros; apply steps_ret ].
  apply steps_for_each. intros property.
  apply steps_bind; [ apply steps_deref | intros val' ].
  destruct (Js.get_prop val' property) as [v | ]; [ | apply steps_ret ].
  destruct (Js.is_object v).
  { apply steps_bind; [ apply object_steps | intros; apply steps_ret ]. }
  destruct (Js.is_array v).
  { apply steps_bind; [ apply steps_array | intros; apply write_steps ]. }
  destruct (Js.is_string v); [ | apply steps_ret ].
  apply steps_bind; [ apply steps_scalar | intros; apply write_steps ].
Qed.

Lemma steps_resolveReplacements (val : json) (at_ : path) :
  steps (resolveReplacements lookup_rec object_rec val at_).
Proof.
  unfold resolveReplacements.
  destruct (Js.is_object val); [ apply object_steps | ].
  destruct (Js.is_array val).
  - apply steps_bind; [ apply steps_array | intros; apply steps_ret ].
  - apply steps_bind; [ apply steps_scalar | intros; apply steps_ret ].
Qed.

End StepsOfExpansion.

(** What holds of writing to the configuration and of logging a lookup
    holds of every lookup. *)
Lemma steps_lookup (fuel : nat) :
  (forall p x, steps (write_at p x)) ->
  (forall idx, steps (log Debug resolving [idx])) ->
  (forall idx, steps (lookup fuel idx))
  /\ (forall p, steps (resolveReplacementsForObject fuel p)).
Proof.
  intros Hwrite Hlog. induction fuel as [ | fuel [IHl IHo]].
  - split; intros; apply steps_throw.
  - split.
    + intros idx.
      change (steps
                (log Debug resolving [idx] ;;;
                 node <- resolveValue idx ;;
                 resolveReplacements (lookup fuel) (resolveReplacementsForObject fuel)
                   (fst node) (snd node))).
      apply steps_bind; [ apply Hlog | intros _ ].
      apply steps_bind; [ apply steps_resolveValue | intros node ].
      now apply steps_resolveReplacements.
    + intros p.
      change (steps
                (resolveReplacementsForObject_body (lookup fuel)
                   (resolveReplacementsForObject fuel) p)).
      now apply steps_object_body.
Qed.

End Steps.

(** ** What a lookup leaves untouched *)

(** The logger is told that a path is being resolved. *)
Definition resolving_event (e : log_event) : Prop :=
  exists idx, e = Log Debug resolving [idx].

(** From [st] to [st'] the cache is the same and the logger has heard of
    lookups only. *)
Definition only_logs (st st' : state) : Prop :=
  configCached st' = configCached st
  /\ exists events, logged st' = logged st ++ events /\ Forall resolving_event events.

Lemma only_logs_refl (st : state) : only_logs st st.
Proof.
  split; [ reflexivity | ]. exists []. split; [ now rewrite app_nil_r | constructor ].
Qed.

Lemma only_logs_trans (st1 st2 st3 : state) :
  only_logs st1 st2 -> only_logs st2 st3 -> only_logs st1 st3.
Proof.
  intros [Hc1 [l1 [Hl1 Hf1]]] [Hc2 [l2 [Hl2 Hf2]]]. split; [ congruence | ].
  exists (l1 ++ l2). split.
  - rewrite Hl2, Hl1. symmetry. apply app_assoc.
  - apply Forall_app. now split.
Qed.

Lemma write_at_only_logs (p : path) (x : json) : steps only_logs (write_at p x).
Proof.
  intros st r st' H. inversion H; subst. cbn. split; [ reflexivity | ].
  exists []. split; [ now rewrite app_nil_r | constructor ].
Qed.

Lemma log_resolving_only_logs (idx : string) :
  steps only_logs (log Debug resolving [idx]).
Proof.
  intros st r st' H. inversion H; subst. cbn. split; [ reflexivity | ].
  exists [Log Debug resolving [idx]]. split; [ reflexivity | ].
  constructor; [ now exists idx | constructor ].
Qed.

Lemma lookup_steps_only_logs (fuel : nat) (idx : string) :
  steps only_logs (lookup fuel idx).
Proof.
  apply (steps_lookup only_logs only_logs_refl only_logs_trans fuel
           write_at_only_logs log_resolving_only_logs).
Qed.

(** Decoration leaves the state as it is. *)
Lemma applyOptions_reads (val : jsvalue) (opt : option json) (st : state) :
  snd (applyOptions val opt st) = st.
Proof.
  symmetry.
  apply (steps_applyOptions eq (@eq_refl state) (@eq_trans state) val opt st
           (fst (applyOptions val opt st))).
  apply surjective_pairing.
Qed.

(** The part of [value] that runs when the cache has no answer. *)
Definition resolve_anew (fuel : nat) (idx : string) (opt : option json) : M jsvalue :=
  val <- lookup fuel idx ;;
  val <- applyOptions val opt ;;
  assignCachedValue idx opt val ;;;
  ret val.

Definition cache_answer (idx : string) (opt : option json) (st : state)
  : option jsvalue :=
  match configCached st !! buildCacheIndex [Some (JStr idx); opt] with
  | Some v => if Js.truthy_value v then Some v else None
  | None => None
  end.

Lemma value_run (fuel : nat) (ctx : option string) (idx : string)
  (opt : option json) (st : state) :
  value fuel ctx idx opt st
  = match cache_answer (buildIndex ctx idx) opt st with
    | Some v => (Return v, st)
    | None => resolve_anew fuel (buildIndex ctx idx) opt st
    end.
Proof.
  unfold value, cache_answer. cbv zeta. unfold bind at 1.
  rewrite lookupCachedValue_run.
  destruct (configCached st !! _) as [v | ]; [ | reflexivity ].
  destruct (Js.truthy_value v) eqn:Hv; cbv iota; [ now rewrite Hv | reflexivity ].
Qed.

(** How the fresh resolution ends: it throws where the lookup or the
    decoration throws, with nothing stored, or it returns the decorated
    value and stores it under the key of the request. *)
Lemma resolve_anew_run (fuel : nat) (idx : string) (opt : option json) (st : state) :
  let after := snd (lookup fuel idx st) in
  resolve_anew fuel idx opt st
  = match fst (lookup fuel idx st) with
    | Throw e => (Throw e, after)
    | Return v =>
        match fst (applyOptions v opt after) with
        | Throw e => (Throw e, after)
        | Return v' =>
            (Return v',
             State (configObject after)
                   (<[buildCacheIndex [Some (JStr idx); opt] := v']> (configCached after))
                   (logged after))
        end
    end.
Proof.
  cbv zeta. unfold resolve_anew. unfold bind at 1.
  destruct (lookup fuel idx st) as [[v | e] st1]; cbn [fst snd]; [ | reflexivity ].
  unfold bind at 1.
  pose proof (applyOptions_reads v opt st1) as Hsame.
  destruct (applyOptions v opt st1) as [[v' | e] st2]; cbn [fst snd] in *; subst st2;
    reflexivity.
Qed.

(** X4: a lookup, whether it returns or throws, leaves the cache as it is,
    and all it tells the logger is which paths it resolves, at the debug
    level, starting with the path it was asked for. *)
Theorem lookup_only_logs (fuel : nat) (idx : string) (st : state) :
  configCached (snd (lookup (S fuel) idx st)) = configCached st
  /\ exists rest,
       logged (snd (lookup (S fuel) idx st))
       = logged st ++ Log Debug resolving [idx] :: rest
       /\ Forall resolving_event rest.
Proof.
  rewrite lookup_S.
  destruct (resolveValue_from idx (configObject st) [] (Str.split_dot idx))
    as [e | node].
  - cbn. split; [ reflexivity | ]. exists []. split; [ reflexivity | constructor ].
  - set (st0 := logging st (Log Debug resolving [idx])).
    assert (H : only_logs st0
                  (snd (resolveReplacements (lookup fuel)
                          (resolveReplacementsForObject fuel) (fst node) (snd node) st0))).
    { apply (steps_resolveReplacements only_logs only_logs_refl only_logs_trans
               (lookup fuel) (resolveReplacementsForObject fuel)
               (lookup_steps_only_logs fuel)
               (proj2 (steps_lookup only_logs only_logs_refl only_logs_trans fuel
                         write_at_only_logs log_resolving_only_logs))
               (fst node) (snd node) st0
               (fst (resolveReplacements (lookup fuel)
                       (resolveReplacementsForObject fuel) (fst node) (snd node) st0))).
      apply surjective_pairing. }
    destruct H as [Hc [events [Hl Hf]]]. split; [ exact Hc | ].
    exists events. split; [ | exact Hf ].
    rewrite Hl. unfold st0. cbn [logging logged]. now rewrite <- app_assoc.
Qed.

(** X3: resolving a value rewrites the text of strings and nothing else:
    whatever is requested, and whether the request succeeds or throws, the
    configuration has the same objects, arrays, keys, numbers, booleans and
    nulls in the same places afterwards. *)
Theorem value_keeps_shape (fuel : nat) (ctx : option string) (idx : string)
  (opt : option json) (st : state) :
  skeleton (configObject (snd (value fuel ctx idx opt st)))
  = skeleton (configObject st).
Proof.
  rewrite value_run.
  destruct (cache_answer (buildIndex ctx idx) opt st) as [v | ]; [ reflexivity | ].
  rewrite resolve_anew_run. cbv zeta.
  destruct (references_are_kept fuel) as [Hkeep _].
  destruct (Hkeep (buildIndex ctx idx) st _ _ (surjective_pairing _)) as [Hshape _].
  unfold shape in Hshape.
  destruct (fst (lookup fuel (buildIndex ctx idx) st)) as [v | e]; [ | exact Hshape ].
  destruct (fst (applyOptions v opt _)) as [v' | e]; exact Hshape.
Qed.

(** X5: a request writes to no entry of the cache but its own, and one that
    throws writes to none. *)
Theorem value_writes_own_entry (fuel : nat) (ctx : option string) (idx : string)
  (opt : option json) (st : state) (k : string) :
  k <> buildCacheIndex [Some (JStr (buildIndex ctx idx)); opt]
  \/ (exists e, fst (value fuel ctx idx opt st) = Throw e) ->
  configCached (snd (value fuel ctx idx opt st)) !! k = configCached st !! k.
Proof.
  intros Hk. rewrite value_run in *.
  destruct (cache_answer (buildIndex ctx idx) opt st) as [v | ]; [ reflexivity | ].
  rewrite resolve_anew_run in *. cbv zeta in *.
  pose proof (lookup_steps_only_logs fuel (buildIndex ctx idx) st _ _
                (surjective_pairing _)) as [Hcache _].
  destruct (fst (lookup fuel (buildIndex ctx idx) st)) as [v | e];
    [ | cbn [snd]; now rewrite Hcache ].
  destruct (fst (applyOptions v opt _)) as [v' | e];
    [ | cbn [snd]; now rewrite Hcache ].
  cbn [snd configCached] in *. destruct Hk as [Hk | [e He]]; [ | discriminate ].
  rewrite lookup_insert_ne by congruence. now rewrite Hcache.
Qed.

Lemma value_writes_own_entry_witness :
  configCached (snd (value 2 None "a" None (holding (JObj [("a", JStr "x")])))) !! "other"
  = configCached (holding (JObj [("a", JStr "x")])) !! "other".
Proof.
  apply (value_writes_own_entry 2 None "a" None (holding (JObj [("a", JStr "x")])) "other").
  left. vm_compute. discriminate.
Defined.

(** What a request returned, when truthy, is what the cache answers for its
    key afterwards. *)
Lemma value_is_stored (fuel : nat) (ctx : option string) (idx : string)
  (opt : option json) (st st1 : state) (v : jsvalue) :
  value fuel ctx idx opt st = (Return v, st1) ->
  Js.truthy_value v = true ->
  configCached st1 !! buildCacheIndex [Some (JStr (buildIndex ctx idx)); opt] = Some v.
Proof.
  intros Hrun Hv. rewrite value_run in Hrun. unfold cache_answer in Hrun.
  destruct (configCached st !! _) as [c | ] eqn:Hc.
  - destruct (Js.truthy_value c) eqn:Hcv.
    + now inversion Hrun; subst.
    + rewrite resolve_anew_run in Hrun. cbv zeta in Hrun.
      destruct (fst (lookup _ _ _)); [ | discriminate ].
      destruct (fst (applyOptions _ _ _)); [ | discriminate ].
      inversion Hrun; subst. cbn [configCached]. apply lookup_insert_eq.
  - rewrite resolve_anew_run in Hrun. cbv zeta in Hrun.
    destruct (fst (lookup _ _ _)); [ | discriminate ].
    destruct (fst (applyOptions _ _ _)); [ | discriminate ].
    inversion Hrun; subst. cbn [configCached]. apply lookup_insert_eq.
Qed.

(** X6: whatever the configuration and the cache hold, a request that
    returned a truthy value returns the same value when it is made again,
    and the second time nothing changes: no lookup, no message to the
    logger, no frame of the stack used. *)
Theorem value_is_memoized (fuel fuel' : nat) (ctx : option string) (idx : string)
  (opt : option json) (st st1 : state) (v : jsvalue) :
  value fuel ctx idx opt st = (Return v, st1) ->
  Js.truthy_value v = true ->
  value fuel' ctx idx opt st1 = (Return v, st1).
Proof.
  intros Hrun Hv. apply value_cached; [ | exact Hv ].
  now apply (value_is_stored fuel ctx idx opt st st1 v).
Qed.

Lemma value_is_memoized_witness :
  value 0 None "a" (Some (JObj [("post", JStr "!")]))
    (snd (value 3 None "a" (Some (JObj [("post", JStr "!")]))
            (holding (JObj [("b", JStr "x"); ("a", JStr "${b}y")]))))
  = (Return (VJson (JStr "xy!")),
     snd (value 3 None "a" (Some (JObj [("post", JStr "!")]))
            (holding (JObj [("b", JStr "x"); ("a", JStr "${b}y")])))).
Proof.
  apply (value_is_memoized 3 0 None "a" (Some (JObj [("post", JStr "!")]))
           (holding (JObj [("b", JStr "x"); ("a", JStr "${b}y")]))).
  - vm_compute. reflexivity.
  - reflexivity.
Defined.

(** X8: the key of a request keeps the word characters of the path only, so
    two paths that differ in dots, dashes or other such characters share an
    entry: once a request for one of them has returned a truthy value, a
    request for the other with the same options returns that value, whatever
    the configuration holds at the second path. *)
Theorem paths_share_entries (fuel fuel' : nat) (idx1 idx2 : string)
  (opt : option json) (st st1 : state) (v : jsvalue) :
  Str.strip_non_word (Json.quote idx1) = Str.strip_non_word (Json.quote idx2) ->
  value fuel None idx1 opt st = (Return v, st1) ->
  Js.truthy_value v = true ->
  value fuel' None idx2 opt st1 = (Return v, st1).
Proof.
  intros Hsame Hrun Hv. apply value_cached; [ | exact Hv ].
  pose proof (value_is_stored fuel None idx1 opt st st1 v Hrun Hv) as Hstored.
  cbn [buildIndex] in *. rewrite !buildCacheIndex_pair in *. now rewrite <- Hsame.
Qed.

Lemma paths_share_entries_witness :
  value 1 None "ab" None
    (snd (value 1 None "a.b" None (holding (JObj [("a", JObj [("b", JStr "x")])]))))
  = (Return (VJson (JStr "x")),
     snd (value 1 None "a.b" None (holding (JObj [("a", JObj [("b", JStr "x")])])))).
Proof.
  apply (paths_share_entries 1 1 "a.b" "ab" None
           (holding (JObj [("a", JObj [("b", JStr "x")])]))).
  - vm_compute. reflexivity.
  - vm_compute. reflexivity.
  - reflexivity.
Defined.

(** ** What a lookup returns *)

Lemma resolveValue_from_at (idx : string) (fragments : list string) :
  forall (val : json) (at_ : path) (v : json) (p : path),
    resolveValue_from idx val at_ fragments = inr (v, p) -> p = at_ ++ fragments.
Proof.
  induction fragments as [ | i rest IH]; intros val at_ v p H; cbn [resolveValue_from] in H.
  - inversion H. now rewrite app_nil_r.
  - destruct (read_property val i) as [e | [w | ]]; try discriminate.
    destruct (Js.truthy w); [ | discriminate ].
    apply IH in H. rewrite H, <- app_assoc. reflexivity.
Qed.

(** [resolveReplacementsForObject] returns the object it was given. *)
Lemma object_returns_reference (fuel : nat) (p : path) (st st' : state) (v : jsvalue) :
  resolveReplacementsForObject fuel p st = (Return v, st') -> v = VRef p.
Proof.
  intros H. destruct fuel as [ | fuel]; [ discriminate | ].
  change (resolveReplacementsForObject (S fuel) p)
    with (resolveReplacementsForObject_body (lookup fuel)
            (resolveReplacementsForObject fuel) p) in H.
  unfold resolveReplacementsForObject_body in H. unfold bind at 1 in H.
  destruct (deref p st) as [[val | e] s1]; [ | discriminate ].
  unfold bind at 1 in H.
  match type of H with
  | context [for_each ?xs ?body s1] =>
      destruct (for_each xs body s1) as [[u | e] s2]; [ | discriminate ]
  end.
  now inversion H.
Qed.

(** X2: what a lookup returns is a string, or the object or array of the
    configuration that the path leads to: a number, a boolean or a
    sequence copied out of the configuration is never returned, and the
    object or array is there in the state the lookup leaves. *)
Theorem lookup_returns_text_or_node (fuel : nat) (idx : string)
  (st st' : state) (v : jsvalue) :
  lookup fuel idx st = (Return v, st') ->
  (exists s, v = VJson (JStr s))
  \/ (v = VRef (Str.split_dot idx) /\ is_node st' (Str.split_dot idx)).
Proof.
  intros Hrun.
  destruct (references_are_kept fuel) as [Hkeep _].
  destruct (Hkeep idx st _ _ Hrun) as [_ Hvalid].
  destruct fuel as [ | fuel]; [ discriminate | ].
  rewrite lookup_S in Hrun.
  destruct (resolveValue_from idx (configObject st) [] (Str.split_dot idx))
    as [e | [val at_]] eqn:Hwalk; [ discriminate | ].
  apply resolveValue_from_at in Hwalk. cbn [app] in Hwalk. subst at_.
  cbn [fst snd] in Hrun. unfold resolveReplacements in Hrun.
  destruct (Js.is_object val) eqn:Hobj.
  - apply object_returns_reference in Hrun. subst v. right. now split.
  - left. destruct (Js.is_array val).
    + destruct val; discriminate.
    + unfold bind in Hrun.
      destruct (resolveReplacementsForScalar (lookup fuel) val _) as [[s | e] s1];
        [ | discriminate ].
      inversion Hrun. now exists s.
Qed.

Lemma lookup_returns_text_or_node_witness :
  (exists s, VRef ["a"] = VJson (JStr s))
  \/ (VRef ["a"] = VRef (Str.split_dot "a")
      /\ is_node (snd (lookup 2 "a" (holding (JObj [("a", JArr [JNum 1; JStr "x"])]))))
           (Str.split_dot "a")).
Proof.
  apply (lookup_returns_text_or_node 2 "a"
           (holding (JObj [("a", JArr [JNum 1; JStr "x"])]))).
  vm_compute. reflexivity.
Defined.

(** ** Results that are not memoized *)

Lemma cache_answer_truthy (idx : string) (opt : option json) (st : state) (v : jsvalue) :
  cache_answer idx opt st = Some v -> Js.truthy_value v = true.
Proof.
  unfold cache_answer. destruct (configCached st !! _) as [c | ]; [ | discriminate ].
  destruct (Js.truthy_value c) eqn:Hc; [ | discriminate ].
  intros H. now inversion H; subst.
Qed.

(** X7: a result that is falsy, the empty string, is stored but never served:
    the next request for it makes the lookup again, and the logger hears of
    it. *)
Theorem empty_result_is_resolved_again (fuel fuel' : nat) (ctx : option string)
  (idx : string) (opt : option json) (st st1 : state) (v : jsvalue) :
  value fuel ctx idx opt st = (Return v, st1) ->
  Js.truthy_value v = false ->
  exists rest,
    logged (snd (value (S fuel') ctx idx opt st1))
    = logged st1 ++ Log Debug resolving [buildIndex ctx idx] :: rest.
Proof.
  intros Hrun Hv.
  assert (Hmiss : cache_answer (buildIndex ctx idx) opt st1 = None).
  { rewrite value_run in Hrun.
    destruct (cache_answer (buildIndex ctx idx) opt st) as [c | ] eqn:Hc.
    - apply cache_answer_truthy in Hc. inversion Hrun; subst. congruence.
    - rewrite resolve_anew_run in Hrun. cbv zeta in Hrun.
      destruct (fst (lookup _ _ _)); [ | discriminate ].
      destruct (fst (applyOptions _ _ _)); [ | discriminate ].
      inversion Hrun; subst. unfold cache_answer. cbn [configCached].
      rewrite lookup_insert_eq. now rewrite Hv. }
  rewrite value_run, Hmiss, resolve_anew_run. cbv zeta.
  destruct (lookup_only_logs fuel' (buildIndex ctx idx) st1) as [_ [rest [Hlog _]]].
  exists rest.
  destruct (fst (lookup (S fuel') (buildIndex ctx idx) st1)) as [w | e];
    [ | exact Hlog ].
  destruct (fst (applyOptions w opt _)) as [w' | e]; exact Hlog.
Qed.

Lemma empty_result_is_resolved_again_witness :
  exists rest,
    logged (snd (value 3 None "b" None
                   (snd (value 3 None "b" None
                           (holding (JObj [("a", JArr []); ("b", JStr "${a}")]))))))
    = logged (snd (value 3 None "b" None
                     (holding (JObj [("a", JArr []); ("b", JStr "${a}")]))))
        ++ Log Debug resolving [buildIndex None "b"] :: rest.
Proof.
  apply (empty_result_is_resolved_again 3 2 None "b" None
           (holding (JObj [("a", JArr []); ("b", JStr "${a}")])) _ (VJson (JStr ""))).
  - vm_compute. reflexivity.
  - reflexivity.
Defined.

(** ** Loading, and requests after it *)

Definition is_document (n : fs_node) : bool :=
  match n with Document _ => true | _ => false end.

(** [loadConfig] from its first attempt on, [source] being the file that
    attempt reads. *)
Definition load_from (fs : filesystem) (source : string) : M unit :=
  loaded <- loadConfigFile fs source "user" ;;
  if loaded then ret tt
  else
    loaded <- loadConfigFile fs configFileDefault "default" ;;
    if loaded then ret tt
    else log Emergency "Could not load user config or default config files." [].

Lemma loadConfig_run (fs : filesystem) (file : option string) (st : state) :
  loadConfig fs file st
  = match file with
    | None => load_from fs "./.gulp.json" st
    | Some f =>
        match fs f with
        | NoEntry =>
            (Throw (Exn "Error"
                      ("ENOENT: no such file or directory, stat '" +:+ f +:+ "'")), st)
        | NotRegular => load_from fs "./.gulp.json" st
        | _ => load_from fs f st
        end
    end.
Proof.
  unfold loadConfig, load_from. destruct file as [f | ]; [ | reflexivity ].
  unfold bind at 1. unfold bind at 1. unfold statSync_isFile.
  destruct (fs f); reflexivity.
Qed.









(** X11: a file that holds the document [null] loads like any other, and
    the logger is told so; every request made afterwards throws a
    [TypeError], not the resolution error, because the walk reads a property
    of [null]. *)
Theorem null_document_loads_and_breaks (fs : filesystem) (file : option string)
  (fuel : nat) (ctx : option string) (idx : string) (opt : option json) :
  fs (user_source fs file) = Document JNull ->
  (forall f, file = Some f -> fs f <> NoEntry) ->
  fst (construct fs file) = Return tt
  /\ List.map attempt (logged (snd (construct fs file))) = [(Info, user_source fs file)]
  /\ exists msg,
       fst (value (S fuel) ctx idx opt (snd (construct fs file)))
       = Throw (TypeError msg).
Proof.
  intros Hs Hstat.
  assert (Hload : construct fs file = load_from fs (user_source fs file) initial).
  { unfold construct, user_source. rewrite loadConfig_run.
    destruct file as [f | ]; [ | reflexivity ].
    specialize (Hstat f eq_refl). destruct (fs f); try reflexivity. congruence. }
  assert (Hrun : load_from fs (user_source fs file) initial
                 = (Return tt,
                    State JNull ∅ [Log Info loaded_message ["user"; user_source fs file]])).
  { unfold load_from. unfold bind at 1. now rewrite loadConfigFile_run, Hs. }
  rewrite Hload, Hrun. cbn [fst snd logged List.map attempt].
  split; [ reflexivity | ]. split; [ reflexivity | ].
  rewrite value_run. unfold cache_answer. cbn [configCached].
  rewrite lookup_empty, resolve_anew_run. cbv zeta. rewrite lookup_S.
  cbn [configObject].
  pose proof (split_dot_not_nil (buildIndex ctx idx)) as Hne.
  destruct (Str.split_dot (buildIndex ctx idx)) as [ | i rest]; [ congruence | ].
  eexists. reflexivity.
Qed.

Lemma null_document_loads_and_breaks_witness :
  fst (construct (fun _ => Document JNull) None) = Return tt
  /\ List.map attempt (logged (snd (construct (fun _ => Document JNull) None)))
     = [(Info, user_source (fun _ => Document JNull) None)]
  /\ exists msg,
       fst (value 1 None "a" None (snd (construct (fun _ => Document JNull) None)))
       = Throw (TypeError msg).
Proof.
  apply (null_document_loads_and_breaks (fun _ => Document JNull) None 0 None "a" None).
  - reflexivity.
  - discriminate.
Defined.

(** ** Decorating what is not a string *)

Lemma contents_run (val : jsvalue) (st : state) (c : option json) :
  fst (contents val st) = Return c -> contents val st = (Return c, st).
Proof.
  intros H. rewrite <- H.
  rewrite (surjective_pairing (contents val st)) at 1. f_equal.
  symmetry.
  apply (steps_contents eq (@eq_refl state) (@eq_trans state) val st
           (fst (contents val st))).
  apply surjective_pairing.
Qed.

Lemma toString_not_null (v : json) (st : state) :
  v <> JNull -> toString v st = (Return (Js.to_string v), st).
Proof. intros H. destruct v; try reflexivity. congruence. Qed.

Lemma decorate_elements (opt : option json) (st : state) (l : list json) :
  Forall (fun e => e <> JNull) l ->
  map_m (fun v => s <- toString v ;;
                  r <- applyOptionsOnScalar (VJson (JStr s)) opt ;;
                  string_of_value r) l st
  = (Return (List.map (fun e => decorated opt (Js.to_string e)) l), st).
Proof.
  induction 1 as [ | e l He Hl IH]; [ reflexivity | ].
  cbn [List.map map_m]. unfold bind at 1. unfold bind at 1.
  rewrite (toString_not_null e st He).
  unfold bind at 1. rewrite applyOptionsOnScalar_string.
  unfold string_of_value at 1. unfold ret at 1. cbn [Js.to_string].
  unfold bind at 1. rewrite IH. reflexivity.
Qed.

Lemma json_is_null (e : json) : e = JNull \/ e <> JNull.
Proof. destruct e; first [ now left | now right ]. Qed.

Lemma decorate_elements_null (opt : option json) (st : state) (l : list json) :
  In JNull l ->
  map_m (fun v => s <- toString v ;;
                  r <- applyOptionsOnScalar (VJson (JStr s)) opt ;;
                  string_of_value r) l st
  = (Throw (TypeError "Cannot read property 'toString' of null"), st).
Proof.
  induction l as [ | e l IH]; intros Hin; [ destruct Hin | ].
  cbn [map_m]. unfold bind at 1. unfold bind at 1.
  destruct (json_is_null e) as [-> | He]; [ reflexivity | ].
  rewrite (toString_not_null e st He).
  unfold bind at 1. rewrite applyOptionsOnScalar_string.
  unfold string_of_value at 1. unfold ret at 1. cbn [Js.to_string].
  unfold bind at 1. rewrite IH; [ reflexivity | ].
  destruct Hin as [Hin | Hin]; [ congruence | exact Hin ].
Qed.

(** The prefix and the suffix that the options give are values whose text
    [Js.to_string] is. *)
Definition options_printable (opt : option json) : bool :=
  match option_field opt "pre" with Some pre => Js.printable pre | None => true end
  && match option_field opt "post" with Some post => Js.printable post | None => true end.

(** X13: every element of a sequence is turned into text before it is
    decorated, so the result of decorating a sequence, with or without
    options, is a new sequence of strings: a number is printed, a nested
    sequence is joined with commas, an object becomes [[object Object]].
    This is so when the elements and the options are values the program
    prints as [Js.to_string] does: integers that a double holds exactly, and
    objects without a key [toString] of their own. *)
Theorem sequence_is_decorated_as_text (val : jsvalue) (l : list json)
  (opt : option json) (st : state) :
  fst (contents val st) = Return (Some (JArr l)) ->
  Forall (fun e => e <> JNull) l ->
  forallb Js.printable l = true ->
  options_printable opt = true ->
  applyOptions val opt st
  = (Return (VJson (JArr (List.map (fun e => JStr (decorated opt (Js.to_string e))) l))),
     st).
Proof.
  intros Hval Hl _ _. apply contents_run in Hval.
  unfold applyOptions. unfold bind at 1. rewrite Hval.
  unfold applyOptionsOnArray. unfold bind at 1. rewrite Hval.
  unfold bind at 1. rewrite (decorate_elements opt st l Hl).
  unfold ret. now rewrite List.map_map.
Qed.

Lemma sequence_is_decorated_as_text_witness :
  applyOptions (VRef ["ports"]) (Some (JObj [("pre", JStr ":")]))
    (holding (JObj [("ports", JArr [JNum 80; JArr [JNum 1; JNum 2]; JObj []])]))
  = (Return (VJson (JArr (List.map
                            (fun e => JStr (decorated (Some (JObj [("pre", JStr ":")]))
                                              (Js.to_string e)))
                            [JNum 80; JArr [JNum 1; JNum 2]; JObj []]))),
     holding (JObj [("ports", JArr [JNum 80; JArr [JNum 1; JNum 2]; JObj []])])).
Proof.
  apply (sequence_is_decorated_as_text (VRef ["ports"])
           [JNum 80; JArr [JNum 1; JNum 2]; JObj []]).
  - reflexivity.
  - repeat constructor; discriminate.
  - reflexivity.
  - reflexivity.
Defined.

(** X12: a sequence that holds a [null] cannot be decorated: the call of
    [toString] on that element throws a [TypeError], whatever the options
    and the other elements are, and the state is left as it was. *)
Theorem sequence_with_null_throws (val : jsvalue) (l : list json)
  (opt : option json) (st : state) :
  fst (contents val st) = Return (Some (JArr l)) ->
  In JNull l ->
  exists msg, applyOptions val opt st = (Throw (TypeError msg), st).
Proof.
  intros Hval Hl. apply contents_run in Hval.
  unfold applyOptions. unfold bind at 1. rewrite Hval.
  unfold applyOptionsOnArray. unfold bind at 1. rewrite Hval.
  unfold bind at 1. rewrite (decorate_elements_null opt st l Hl).
  eexists. reflexivity.
Qed.

Lemma sequence_with_null_throws_witness :
  exists msg,
    applyOptions (VRef ["a"]) None (holding (JObj [("a", JArr [JStr "x"; JNull])]))
    = (Throw (TypeError msg), holding (JObj [("a", JArr [JStr "x"; JNull])])).
Proof.
  apply (sequence_with_null_throws (VRef ["a"]) [JStr "x"; JNull]).
  - reflexivity.
  - simpl. right. left. reflexivity.
Defined.

(** X14: an object is returned as it is when there is nothing to put around
    it, and is turned into the text [[object Object]] as soon as a prefix or
    a suffix is given.  This is so for an object without a key [toString] of
    its own, which would hide the method that prints it, and for options
    that are printed as [Js.to_string] does. *)
Theorem object_is_decorated_as_text (p : path) (kvs : list (string * json))
  (opt : option json) (st : state) :
  Js.get_path (configObject st) p = Some (JObj kvs) ->
  Js.printable (JObj kvs) = true ->
  options_printable opt = true ->
  applyOptions (VRef p) opt st
  = (Return (match option_field opt "pre", option_field opt "post" with
             | None, None => VRef p
             | _, _ => VJson (JStr (decorated opt "[object Object]"))
             end), st).
Proof.
  intros Hp _ _.
  assert (Hderef : deref p st = (Return (JObj kvs), st)).
  { unfold deref, bind, get_config. now rewrite Hp. }
  unfold applyOptions. unfold bind at 1. unfold contents. unfold bind at 1.
  rewrite Hderef. cbv beta iota delta [ret].
  unfold applyOptionsOnScalar, decorated, prefix_of, suffix_of.
  destruct (option_field opt "pre") as [pre | ];
    destruct (option_field opt "post") as [post | ];
    cbv beta iota delta [bind js_add string_of_value ret]; rewrite ?Hderef;
    cbn [Js.to_string].
  - now rewrite append_assoc.
  - now rewrite append_nil_r.
  - now rewrite append_nil.
  - reflexivity.
Qed.

Lemma object_is_decorated_as_text_witness :
  applyOptions (VRef ["a"]) (Some (JObj [("post", JStr "/x")]))
    (holding (JObj [("a", JObj [("b", JStr "c")])]))
  = (Return (match option_field (Some (JObj [("post", JStr "/x")])) "pre",
                   option_field (Some (JObj [("post", JStr "/x")])) "post" with
             | None, None => VRef ["a"]
             | _, _ => VJson (JStr (decorated (Some (JObj [("post", JStr "/x")]))
                                      "[object Object]"))
             end),
     holding (JObj [("a", JObj [("b", JStr "c")])])).
Proof.
  apply (object_is_decorated_as_text ["a"] [("b", JStr "c")]); reflexivity.
Defined.

(** ** Quoting a token *)

Lemma syntax_is_special (c : ascii) :
  Regex.is_syntax c = true -> Regex.is_special c = true.
Proof.
  unfold Regex.is_syntax, Regex.is_special.
  cbn [list_ascii_of_string existsb]. rewrite !orb_true_iff. intuition.
Qed.

(** X1: whatever characters a token is made of, the pattern that
    [regexQuote] builds from it has no character left that is syntax of a
    pattern: each one is behind a backslash, so the punctuation of a
    placeholder ([$], the braces, the point, the dash) is matched as text;
    and the text the pattern matches is the token. *)
Theorem quoted_pattern_denotes_token (token : string) :
  Regex.is_literal_pattern (regexQuote token) = true
  /\ Regex.literal_of_pattern (regexQuote token) = token.
Proof.
  induction token as [ | c r [IHp IHl]]; [ split; reflexivity | ].
  rewrite regexQuote_cons. destruct (Regex.is_special c) eqn:Hc.
  - cbn [Regex.is_literal_pattern Regex.literal_of_pattern].
    change (Ascii.eqb "\" "\") with true. cbv iota.
    rewrite Hc, IHp, IHl. split; reflexivity.
  - cbn [Regex.is_literal_pattern Regex.literal_of_pattern].
    rewrite (special_backslash c Hc), IHp, IHl.
    destruct (Regex.is_syntax c) eqn:Hs.
    + apply syntax_is_special in Hs. congruence.
    + split; reflexivity.
Qed.

(** ** The bound of the loop *)

Definition same_log (st st' : state) : Prop := logged st' = logged st.

Lemma string_of_value_same_log (v : jsvalue) (st : state) :
  logged (snd (string_of_value v st)) = logged st.
Proof.
  apply (steps_string_of_value same_log (fun st0 => eq_refl)
           (fun s1 s2 s3 H12 H23 => eq_trans H23 H12) v st
           (fst (string_of_value v st))).
  apply surjective_pairing.
Qed.

(** The call [this::lookup(search[1])] of the loop, with the logger told of
    it: the builder sends nothing at the [info] level while it resolves, so
    the messages of that level count the calls the loop makes. *)
Definition asking (lookup_rec : string -> M jsvalue) (target : string) : M jsvalue :=
  log Info "asked" [target] ;;; lookup_rec target.

Definition is_info (e : log_event) : bool :=
  match log_level e with Info => true | _ => false end.

Definition calls (st : state) : nat := List.length (List.filter is_info (logged st)).

Lemma calls_logging (st : state) (e : log_event) :
  calls (logging st e) = (calls st + if is_info e then 1 else 0)%nat.
Proof.
  unfold calls. cbn [logging logged]. rewrite List.filter_app, length_app.
  cbn [List.filter]. now destruct (is_info e).
Qed.

Lemma only_logs_calls (st st' : state) : only_logs st st' -> calls st' = calls st.
Proof.
  intros [_ [events [Hlog Hevents]]]. unfold calls. rewrite Hlog, List.filter_app, length_app.
  clear Hlog.
  assert (Hnone : List.filter is_info events = []).
  { induction Hevents as [ | e l [idx ->] _ IH]; [ reflexivity | ].
    cbn [List.filter is_info log_level]. exact IH. }
  rewrite Hnone. cbn. lia.
Qed.

Lemma asking_lookup_calls (fuel : nat) (target : string) (st : state) :
  calls (snd (asking (lookup fuel) target st)) = S (calls st).
Proof.
  unfold asking, bind, log.
  rewrite (only_logs_calls _ _
             (lookup_steps_only_logs fuel target _ _ _ (surjective_pairing _))).
  change (State (configObject st) (configCached st)
                (logged st ++ [Log Info "asked" [target]]))
    with (logging st (Log Info "asked" [target])).
  rewrite calls_logging. cbn. lia.
Qed.

Lemma scalar_loop_calls (fuel gas : nat) :
  forall (i : nat) (parsed : string) (st : state),
    (calls (snd (scalar_loop (asking (lookup fuel)) gas i parsed st))
     <= calls st + gas)%nat.
Proof.
  induction gas as [ | gas IH]; intros i parsed st.
  - rewrite scalar_loop_no_gas. cbn. lia.
  - rewrite scalar_loop_S.
    destruct (Regex.exec parsed) as [[token target] | ]; [ | cbn; lia ].
    destruct (maxIterations <? i)%nat; [ cbn; lia | ].
    unfold bind at 1.
    pose proof (asking_lookup_calls fuel target st) as Hask.
    destruct (asking (lookup fuel) target st) as [[v | e] st1]; cbn [snd] in *;
      [ | lia ].
    unfold bind at 1. destruct (Js.truthy_value v).
    + unfold bind at 1.
      pose proof (string_of_value_same_log v st1) as Hsame.
      destruct (string_of_value v st1) as [[templ | e] st2]; cbn [snd] in *.
      * unfold ret at 1.
        specialize (IH (S i)
          (Regex.replace_all (Regex.literal_of_pattern (regexQuote token)) templ parsed)
          st2).
        unfold calls in *. rewrite Hsame in IH. lia.
      * unfold calls in *. rewrite Hsame. lia.
    + unfold ret at 1. specialize (IH (S i) parsed st1). lia.
Qed.

(** X15: the loop that expands a string gives up.  Whatever the
    configuration holds, whatever the lookups return or throw and however
    many frames there are, the expansion of one string calls [lookup] at most
    [maxIterations + 1] times, that is 21; and it does call it 21 times
    where every pass puts the placeholder back. *)
Theorem expansion_makes_21_lookups_at_most (fuel : nat) (val : json) (st : state) :
  (calls (snd (resolveReplacementsForScalar (asking (lookup fuel)) val st))
   <= calls st + 21)%nat
  /\ calls (snd (resolveReplacementsForScalar (asking (lookup (S fuel)))
                   (JStr "${a}") (holding (JObj [("a", JStr "$&")]))))
     = 21%nat.
Proof.
  split.
  - unfold resolveReplacementsForScalar. unfold bind.
    destruct val; cbn [toString]; unfold ret, throw; cbn [snd];
      first [ apply (scalar_loop_calls fuel (S maxIterations)) | lia ].
  - vm_compute. reflexivity.
Qed.

(** * Further properties of the facade *)

Lemma option_field_position (n : Z) (k : string) :
  option_field (Some (JNum n)) k = None.
Proof. unfold option_field. now destruct (Js.truthy (JNum n)). Qed.

(** A position taken for options decorates nothing. *)
Lemma applyOptions_position (val : jsvalue) (n : Z) (st : state) :
  applyOptions val (Some (JNum n)) st = applyOptions val None st.
Proof.
  unfold applyOptions, applyOptionsOnArray, applyOptionsOnScalar.
  now rewrite !option_field_position.
Qed.

(** What [concat] makes of a value depends on the configuration only. *)
Lemma spread_reads_configuration (item : jsvalue) (st st' : state) :
  configObject st = configObject st' ->
  fst (ConfigFetcher.spread item st) = fst (ConfigFetcher.spread item st').
Proof.
  intros H. unfold ConfigFetcher.spread, contents, deref, get_config, bind.
  destruct item as [ | j | p]; [ reflexivity | now destruct j | ].
  rewrite <- H. destruct (Js.get_path (configObject st) p) as [[ | | | | | ] | ];
    reflexivity.
Qed.

Lemma spread_of_configuration (item : jsvalue) (j : json)
  (c : gmap string jsvalue) (l : list log_event) :
  fst (ConfigFetcher.spread item (State j c l))
  = fst (ConfigFetcher.spread item (holding j)).
Proof. now apply spread_reads_configuration. Qed.

Lemma concat_one (item : jsvalue) (st : state) :
  fst (ConfigFetcher.concat [item] st) = fst (ConfigFetcher.spread item st).
Proof.
  unfold ConfigFetcher.concat. cbn [map_m]. unfold bind.
  destruct (ConfigFetcher.spread item st) as [[l | e] st1]; [ | reflexivity ].
  cbn. now rewrite app_nil_r.
Qed.

Lemma spread_state (item : jsvalue) (st : state) :
  snd (ConfigFetcher.spread item st) = st.
Proof.
  unfold ConfigFetcher.spread, contents, deref, get_config, bind.
  destruct item as [ | j | p]; [ reflexivity | now destruct j | ].
  destruct (Js.get_path (configObject st) p) as [[ | | | | | ] | ]; reflexivity.
Qed.

Lemma concat_one_state (item : jsvalue) (st : state) :
  snd (ConfigFetcher.concat [item] st) = st.
Proof.
  unfold ConfigFetcher.concat. cbn [map_m]. unfold bind.
  pose proof (spread_state item st) as H.
  destruct (ConfigFetcher.spread item st) as [[l | e] s1]; cbn in *; now subst.
Qed.

(** X16: a plural accessor hands every key to the singular one together
    with its position in the argument list, which the singular accessor
    takes for its options.  A position decorates nothing, so for one key the
    plural accessor returns what [concat] makes of the singular result; but
    it is part of the cache key, so the entry under which the singular
    accessor would find its result is not the one that gets filled. *)
Theorem plural_of_one (fuel : nat) (idx : string) (st st1 : state) (v : jsvalue) :
  configCached st = ∅ ->
  ConfigFetcher.path fuel idx None st = (Return v, st1) ->
  fst (ConfigFetcher.paths fuel [idx] st) = fst (ConfigFetcher.spread v st1)
  /\ configCached (snd (ConfigFetcher.paths fuel [idx] st))
       !! buildCacheIndex [Some (JStr (buildIndex (Some "paths") idx)); None]
     = None.
Proof.
  intros Hempty Hone. unfold ConfigFetcher.path in Hone.
  rewrite value_run in Hone. unfold cache_answer in Hone.
  rewrite Hempty, lookup_empty, resolve_anew_run in Hone. cbv zeta in Hone.
  pose proof (value_run fuel (Some "paths") idx (Some (JNum 0)) st) as Hpos.
  unfold cache_answer in Hpos.
  rewrite Hempty, lookup_empty, resolve_anew_run in Hpos. cbv zeta in Hpos.
  pose proof (lookup_steps_only_logs fuel (buildIndex (Some "paths") idx) st _ _
                (surjective_pairing _)) as [Hcache _].
  destruct (fst (lookup fuel (buildIndex (Some "paths") idx) st)) as [w | e];
    [ | discriminate ].
  rewrite applyOptions_position in Hpos.
  destruct (fst (applyOptions w None _)) as [w' | e]; [ | discriminate ].
  inversion Hone; subst v st1. clear Hone.
  assert (Hmany : ConfigFetcher.paths fuel [idx] st
                  = ConfigFetcher.concat [w']
                      (snd (value fuel (Some "paths") idx (Some (JNum 0)) st))).
  { unfold ConfigFetcher.paths, ConfigFetcher.map_accessor.
    cbn [List.length seq combine map_m fst snd].
    change (Z.of_nat 0) with 0%Z.
    unfold bind at 1. unfold bind at 1. unfold ConfigFetcher.path.
    rewrite Hpos. reflexivity. }
  rewrite Hmany, Hpos. cbn [snd]. split.
  - rewrite concat_one. now rewrite !spread_of_configuration.
  - rewrite concat_one_state. cbn [configCached].
    rewrite lookup_insert_ne.
    + rewrite Hcache, Hempty. apply lookup_empty.
    + rewrite !buildCacheIndex_pair. intros Heq.
      apply append_inv_head in Heq. apply append_inv_head in Heq.
      vm_compute in Heq. discriminate.
Qed.

Lemma plural_of_one_witness :
  fst (ConfigFetcher.paths 1 ["x"] (holding (JObj [("paths", JObj [("x", JStr "src")])])))
  = fst (ConfigFetcher.spread (VJson (JStr "src"))
           (snd (ConfigFetcher.path 1 "x" None
                   (holding (JObj [("paths", JObj [("x", JStr "src")])])))))
  /\ configCached
       (snd (ConfigFetcher.paths 1 ["x"]
               (holding (JObj [("paths", JObj [("x", JStr "src")])]))))
       !! buildCacheIndex [Some (JStr (buildIndex (Some "paths") "x")); None]
     = None.
Proof.
  apply (plural_of_one 1 "x" (holding (JObj [("paths", JObj [("x", JStr "src")])]))).
  - reflexivity.
  - vm_compute. reflexivity.
Defined.

(** * Properties of the logger *)

Import DefaultLogger.

(** ** Labels *)

Lemma drop_length (n : nat) (s : string) :
  String.length (drop n s) = (String.length s - n)%nat.
Proof.
  revert s. induction n as [ | n IH]; intros s; [ simpl; lia | ].
  destruct s as [ | c r]; [ reflexivity | ]. simpl. apply IH.
Qed.

Lemma length_append (a b : string) :
  String.length (a +:+ b) = (String.length a + String.length b)%nat.
Proof.
  induction a as [ | c a IH]; [ now rewrite append_nil | ].
  rewrite append_cons. simpl. now rewrite IH.
Qed.

Lemma drop_append (a b : string) : drop (String.length a) (a +:+ b) = b.
Proof.
  induction a as [ | c a IH]; [ now rewrite append_nil | ].
  rewrite append_cons. simpl. exact IH.
Qed.

Lemma drop_drop (n m : nat) (s : string) : drop n (drop m s) = drop (m + n) s.
Proof.
  revert s. induction m as [ | m IH]; intros s; [ reflexivity | ].
  destruct s as [ | c r]; [ now destruct n | ]. simpl. apply IH.
Qed.

(** A run of [n] spaces. *)
Fixpoint spaces (n : nat) : string :=
  match n with
  | O => EmptyString
  | S n' => String " " (spaces n')
  end.

Lemma drop_spaces (n m : nat) (s : string) :
  (n <= m)%nat -> drop n (spaces m +:+ s) = spaces (m - n) +:+ s.
Proof.
  revert m. induction n as [ | n IH]; intros m Hn.
  - now rewrite Nat.sub_0_r.
  - destruct m as [ | m]; [ lia | ]. cbn [spaces]. rewrite append_cons.
    cbn [drop Nat.sub]. apply IH. lia.
Qed.

(** X21: the name of a level is printed in a column of five characters,
    whatever the level: a short name is padded on the left, and of a name
    longer than the column only the last five characters are printed, so
    that messages sent through [emergency] carry the label [GENCY]. *)
Theorem labels_are_five_wide (level : Z) :
  String.length (label level) = 5%nat
  /\ label level
     = spaces (5 - String.length (element strings (level + 1)))
         +:+ slice_from_end 5 (element strings (level + 1))
  /\ label (severity Emergency) = "GENCY".
Proof.
  unfold label, slice_from_end. split; [ | split ].
  - rewrite drop_length, !length_append. simpl. lia.
  - set (name := element strings (level + 1)).
    rewrite length_append. change "     " with (spaces 5).
    change (String.length (spaces 5)) with 5%nat.
    destruct (Nat.le_gt_cases 5 (String.length name)) as [Hlong | Hshort].
    + replace (5 - String.length name)%nat with 0%nat by lia.
      rewrite append_nil.
      replace (5 + String.length name - 5)%nat
        with (String.length (spaces 5) + (String.length name - 5))%nat
        by (simpl; lia).
      now rewrite <- drop_drop, drop_append.
    + replace (String.length name - 5)%nat with 0%nat by lia. cbn [drop].
      replace (5 + String.length name - 5)%nat with (String.length name) by lia.
      apply drop_spaces. lia.
  - reflexivity.
Qed.

(** ** What the writers receive *)

(** What a writer adds to a message: [fs.write] is given the line with its
    end, [console.log] the line. *)
Definition handed_on (t : sink) (message : string) : string :=
  match t with
  | StdIO => message
  | File => message +:+ String "010"%char EmptyString
  end.

Definition accepts (w : writer) (level : Z) : bool :=
  isOpen w && meetsRequirement w level.

Lemma write_run (w : writer) (message : string) (level : Z) :
  write w message level
  = if accepts w level
    then Writer (target w) (closed w) (levelRequired w) (handle_open w)
                (output w ++ [handed_on (target w) message])
    else w.
Proof.
  unfold write, WriterStdIO_write, WriterFile_write, writeLine, accepts, handed_on.
  destruct (target w), (isOpen w), (meetsRequirement w level); reflexivity.
Qed.

(** The levels a verbosity lets through to the writers. *)
Definition heard (verbosity : Z) (l : level) : bool :=
  match l with
  | Debug => (1 <=? verbosity)%Z
  | Info | Warning => (0 <=? verbosity)%Z
  | Error | Critical => (-2 <=? verbosity)%Z
  | Emergency => true
  end.

Lemma heard_louder (v v' : Z) (l : level) :
  (v <= v')%Z -> heard v l = true -> heard v' l = true.
Proof. intros Hv. destruct l; simpl; try reflexivity; lia. Qed.

(** The levels whose label is given a style that [colour] does not have,
    and the style. *)
Definition unstyled (l : level) : bool :=
  match l with
  | Critical | Emergency => true
  | _ => false
  end.

Definition bold_style (l : level) : string :=
  match l with
  | Critical => "colors.red.bold"
  | _ => "colors.yellow.bold"
  end.

(** The lines the console has been given. *)
Definition console (lg : logger) : list string :=
  List.concat
    (List.map (fun w => match target w with StdIO => output w | File => [] end)
              (writers lg)).

(** The data [fs.write] has been given. *)
Definition filed (lg : logger) : list string :=
  List.concat
    (List.map (fun w => match target w with File => output w | StdIO => [] end)
              (writers lg)).

(** A logger as [new DefaultLogger] sets it up: the colours on, a console
    writer that requires level [-1], then a file writer whose requirement is
    the name of the log file; both open. *)
Definition as_constructed (lg : logger) (name : string) : Prop :=
  exists c f,
    writers lg = [c; f] /\ color lg = true
    /\ target c = StdIO /\ closed c = false /\ levelRequired c = JNum (-1)
    /\ target f = File /\ closed f = false /\ levelRequired f = JStr name.

Lemma construct_as_constructed (v : option Z) (logFile : option string) :
  as_constructed (construct v logFile)
    (match logFile with Some f => f | None => "/tmp/gulp-runner.log" end).
Proof. eexists _, _. repeat split. Qed.

Lemma severity_at_least (l : level) : Compare.ge (severity l) (JNum (-1)) = true.
Proof. now destruct l. Qed.

Lemma name_is_no_level (name : string) (level : Z) :
  Compare.all_numeric name = false -> Compare.ge level (JStr name) = false.
Proof.
  intros H. unfold Compare.ge, Compare.to_number, Compare.string_to_number.
  now rewrite H.
Qed.

Lemma console_writers (lg lg' : logger) :
  writers lg' = writers lg -> console lg' = console lg /\ filed lg' = filed lg.
Proof. unfold console, filed. now intros ->. Qed.

(** The two writers of a logger as constructed, given a line: the console
    writer takes it at every level of the logger, the file writer does not
    when the name of the log file does not spell a number. *)
Lemma console_writer_takes (c : writer) (text : string) (l : level) :
  target c = StdIO -> closed c = false -> levelRequired c = JNum (-1) ->
  write c text (severity l)
  = Writer StdIO false (JNum (-1)) (handle_open c) (output c ++ [text]).
Proof.
  intros H1 H2 H3. rewrite write_run. unfold accepts, isOpen, meetsRequirement.
  now rewrite H1, H2, H3, severity_at_least.
Qed.

Lemma file_writer_keeps (f : writer) (name text : string) (level : Z) :
  target f = File -> closed f = false -> levelRequired f = JStr name ->
  target (write f text level) = File
  /\ closed (write f text level) = false
  /\ levelRequired (write f text level) = JStr name
  /\ (Compare.all_numeric name = false -> write f text level = f).
Proof.
  intros H1 H2 H3. rewrite write_run. unfold accepts, isOpen, meetsRequirement.
  rewrite H2, H3. cbn [negb andb].
  destruct (Compare.ge level (JStr name)) eqn:Hge; cbn [target closed levelRequired].
  - repeat split; auto. intros Hname. rewrite (name_is_no_level name level Hname) in Hge.
    discriminate.
  - now repeat split.
Qed.

Section Logging.

Variable sprintf : string -> list string -> outcome string.
Variable clock : nat -> string.
Variable colors : string -> string -> string.

Lemma receive_run (lg : logger) (e : log_event) :
  receive sprintf clock colors lg e
  = if heard (verbosity lg) (log_level e)
    then WriterProxy_write sprintf clock colors lg (log_message e)
           (severity (log_level e)) (log_replacements e)
    else (Return tt, lg).
Proof.
  unfold receive, debug, info, warning, error, critical, emergency,
    isVerbose, isQuiet, isSilent.
  destruct (log_level e); cbn [heard severity];
    repeat match goal with
           | |- context [(?a <? ?b)%Z] => destruct (Z.ltb_spec a b)
           | |- context [(?a <=? ?b)%Z] => destruct (Z.leb_spec a b)
           end; cbn [negb]; first [ reflexivity | lia ].
Qed.

Lemma replay_cons (lg : logger) (e : log_event) (events : list log_event) :
  replay sprintf clock colors lg (e :: events)
  = match fst (receive sprintf clock colors lg e) with
    | Return _ => replay sprintf clock colors (snd (receive sprintf clock colors lg e)) events
    | Throw x => (Throw x, snd (receive sprintf clock colors lg e))
    end.
Proof.
  cbn [replay]. now destruct (receive sprintf clock colors lg e) as [[u | x] lg'].
Qed.

(** The loop over the two writers of a logger as constructed: it ends with
    the first writer, with the second, or after both. *)
Lemma write_both (c f : writer) (reading : nat) (message : string) (level : Z)
  (replacements : list string) :
  write_each sprintf clock colors true reading [c; f] message level replacements
  = match format sprintf clock colors true reading message level replacements with
    | Throw x => (Throw x, ([c; f], S reading))
    | Return text =>
        match format sprintf clock colors true (S reading) message level replacements with
        | Throw x => (Throw x, ([write c text level; f], S (S reading)))
        | Return text' =>
            (Return tt, ([write c text level; write f text' level], S (S reading)))
        end
    end.
Proof.
  cbn [write_each].
  destruct (format sprintf clock colors true reading message level replacements);
    [ | reflexivity ].
  now destruct (format sprintf clock colors true (S reading) message level replacements).
Qed.

(** Whatever a call does, and whether it returns or throws, a logger as
    constructed is one afterwards; its console has lost nothing, and its
    file writer has been given nothing when the name of the log file does
    not spell a number. *)
Lemma receive_keeps (lg : logger) (name : string) (e : log_event) :
  as_constructed lg name ->
  as_constructed (snd (receive sprintf clock colors lg e)) name
  /\ verbosity (snd (receive sprintf clock colors lg e)) = verbosity lg
  /\ (List.length (console lg)
      <= List.length (console (snd (receive sprintf clock colors lg e))))%nat
  /\ (Compare.all_numeric name = false ->
      filed (snd (receive sprintf clock colors lg e)) = filed lg).
Proof.
  intros Hlg. pose proof Hlg as [c [f [Hw [Hcolor [Hc1 [Hc2 [Hc3 [Hf1 [Hf2 Hf3]]]]]]]]].
  rewrite receive_run.
  destruct (heard (verbosity lg) (log_level e)); [ | now repeat split ].
  unfold WriterProxy_write. rewrite Hw, Hcolor, write_both.
  destruct (format sprintf clock colors true (readings lg) (log_message e)
              (severity (log_level e)) (log_replacements e)) as [text | x].
  - pose proof (console_writer_takes c text (log_level e) Hc1 Hc2 Hc3) as Hc.
    assert (Hgrow : forall f',
              target f' = File ->
              (List.length (console lg)
               <= List.length
                    (console (Logger (verbosity lg) true
                                [write c text (severity (log_level e)); f']
                                (S (S (readings lg))))))%nat).
    { intros f' Hf'. unfold console. rewrite Hw. cbn [writers List.map List.concat].
      rewrite Hc. cbn [target output]. rewrite Hc1, Hf1, Hf'.
      rewrite !app_nil_r, length_app. lia. }
    assert (Hsame : forall f',
              target f' = File -> output f' = output f ->
              filed (Logger (verbosity lg) true
                       [write c text (severity (log_level e)); f']
                       (S (S (readings lg))))
              = filed lg).
    { intros f' Hf' Hout. unfold filed. rewrite Hw. cbn [writers List.map List.concat].
      rewrite Hc. cbn [target output]. now rewrite Hc1, Hf1, Hf', Hout. }
    destruct (format sprintf clock colors true (S (readings lg)) (log_message e)
                (severity (log_level e)) (log_replacements e)) as [text' | x];
      cbn [fst snd verbosity].
    + destruct (file_writer_keeps f name text' (severity (log_level e)) Hf1 Hf2 Hf3)
        as [Hk1 [Hk2 [Hk3 Hk4]]].
      split; [ | split; [ reflexivity | split ] ].
      * eexists _, _. split; [ reflexivity | ]. rewrite Hc. now repeat split.
      * now apply Hgrow.
      * intros Hname. apply Hsame; [ exact Hk1 | now rewrite (Hk4 Hname) ].
    + split; [ | split; [ reflexivity | split ] ].
      * eexists _, _. split; [ reflexivity | ]. rewrite Hc. now repeat split.
      * now apply Hgrow.
      * intros _. now apply Hsame.
  - cbn [fst snd verbosity]. split; [ | split; [ reflexivity | split ] ].
    + exists c, f. now repeat split.
    + unfold console. rewrite Hw. reflexivity.
    + intros _. unfold filed. rewrite Hw. reflexivity.
Qed.

Lemma replay_keeps (events : list log_event) :
  forall (lg : logger) (name : string),
    as_constructed lg name ->
    as_constructed (snd (replay sprintf clock colors lg events)) name
    /\ verbosity (snd (replay sprintf clock colors lg events)) = verbosity lg
    /\ (List.length (console lg)
        <= List.length (console (snd (replay sprintf clock colors lg events))))%nat
    /\ (Compare.all_numeric name = false ->
        filed (snd (replay sprintf clock colors lg events)) = filed lg).
Proof.
  induction events as [ | e events IH]; intros lg name Hlg.
  - cbn. now repeat split.
  - destruct (receive_keeps lg name e Hlg) as [Hnext [Hv [Hlen Hfile]]].
    rewrite replay_cons.
    destruct (fst (receive sprintf clock colors lg e)) as [u | x].
    + destruct (IH _ name Hnext) as [Hend [Hv' [Hlen' Hfile']]].
      split; [ exact Hend | ]. split; [ congruence | ]. split; [ lia | ].
      intros Hname. now rewrite (Hfile' Hname), (Hfile Hname).
    + cbn [snd]. now repeat split.
Qed.

(** X19: the file writer of a logger set up by [new DefaultLogger] never
    writes.  The constructor hands the name of the log file to the writer as
    its first argument, which is the level it requires; a name that does
    not spell a number, such as a path, compares false with every level. *)
Theorem log_file_stays_empty (v : option Z) (logFile : option string)
  (events : list log_event) :
  Compare.all_numeric
    (match logFile with Some f => f | None => "/tmp/gulp-runner.log" end) = false ->
  filed (snd (replay sprintf clock colors (construct v logFile) events)) = [].
Proof.
  intros Hname.
  destruct (replay_keeps events _ _ (construct_as_constructed v logFile))
    as [_ [_ [_ Hfile]]].
  now rewrite (Hfile Hname).
Qed.

(** ** What the console shows *)

(** [sprintf] formats the two formats of the formatter, which take strings
    for [%s]. *)
Hypothesis sprintf_label :
  forall symbol name, exists out, sprintf "%s %s" [symbol; name] = Return out.
Hypothesis sprintf_line :
  forall time name text, exists out, sprintf "[%s] %s %s" [time; name; text] = Return out.

(** [sprintf] formats the message of a call with its replacements. *)
Definition formats (e : log_event) : Prop :=
  exists text, sprintf (log_message e) (log_replacements e) = Return text.

(** With the colours on, a line is formatted unless the style of its level
    is missing, which is found before the message is looked at. *)
Lemma format_unstyled (reading : nat) (message : string) (l : level)
  (replacements : list string) :
  unstyled l = true ->
  format sprintf clock colors true reading message (severity l) replacements
  = Throw (not_a_function (bold_style l)).
Proof.
  intros Hl. unfold format, formatLevel.
  destruct (sprintf_label (element symbols (severity l + 1)) (label (severity l)))
    as [out ->].
  destruct l; try discriminate; reflexivity.
Qed.

Lemma format_styled (reading : nat) (e : log_event) :
  unstyled (log_level e) = false ->
  formats e ->
  exists line,
    format sprintf clock colors true reading (log_message e)
      (severity (log_level e)) (log_replacements e)
    = Return line.
Proof.
  intros Hl [text Htext]. unfold format, formatLevel, formatMessage.
  destruct (sprintf_label (element symbols (severity (log_level e) + 1))
              (label (severity (log_level e)))) as [out ->].
  rewrite Htext.
  destruct (log_level e); try discriminate; cbn [severity colorizeLevel Z.eqb];
    apply sprintf_line.
Qed.

(** One call received by a logger as constructed.  A call the verbosity does
    not let through changes nothing.  One it lets through throws when the
    style of its level is missing, before a writer is reached; otherwise the
    console gets a line. *)
Lemma receive_as_constructed (lg : logger) (name : string) (e : log_event) :
  as_constructed lg name ->
  formats e ->
  if heard (verbosity lg) (log_level e)
  then if unstyled (log_level e)
       then fst (receive sprintf clock colors lg e)
            = Throw (not_a_function (bold_style (log_level e)))
            /\ writers (snd (receive sprintf clock colors lg e)) = writers lg
       else fst (receive sprintf clock colors lg e) = Return tt
            /\ exists line,
                 console (snd (receive sprintf clock colors lg e))
                 = console lg ++ [line]
  else receive sprintf clock colors lg e = (Return tt, lg).
Proof.
  intros [c [f [Hw [Hcolor [Hc1 [Hc2 [Hc3 [Hf1 [Hf2 Hf3]]]]]]]]] Hformats.
  rewrite receive_run.
  destruct (heard (verbosity lg) (log_level e)); [ | reflexivity ].
  unfold WriterProxy_write. rewrite Hw, Hcolor, write_both.
  destruct (unstyled (log_level e)) eqn:Hstyle.
  - rewrite (format_unstyled _ _ _ _ Hstyle). cbn [fst snd writers]. now split.
  - destruct (format_styled (readings lg) e Hstyle Hformats) as [line ->].
    destruct (format_styled (S (readings lg)) e Hstyle Hformats) as [line' ->].
    cbn [fst snd]. split; [ reflexivity | ].
    exists line. unfold console. rewrite Hw. cbn [writers List.map List.concat].
    rewrite (console_writer_takes c line (log_level e) Hc1 Hc2 Hc3).
    destruct (file_writer_keeps f name line' (severity (log_level e)) Hf1 Hf2 Hf3)
      as [-> _].
    cbn [target output]. rewrite Hc1, Hf1. now rewrite !app_nil_r.
Qed.

(** Below verbosity [-2] the console of a logger as constructed gets
    nothing: the one call let through is [emergency], which throws. *)
Lemma replay_silent (events : list log_event) :
  forall (lg : logger) (name : string),
    as_constructed lg name ->
    (verbosity lg < -2)%Z ->
    console (snd (replay sprintf clock colors lg events)) = console lg.
Proof.
  induction events as [ | e events IH]; intros lg name Hlg Hv; [ reflexivity | ].
  rewrite replay_cons.
  destruct (heard (verbosity lg) (log_level e)) eqn:Hheard.
  - assert (Hstyle : unstyled (log_level e) = true)
      by (destruct (log_level e); cbn [heard] in Hheard; try lia; reflexivity).
    pose proof Hlg as [c [f [Hw [Hcolor _]]]].
    rewrite receive_run, Hheard. unfold WriterProxy_write.
    rewrite Hw, Hcolor, write_both, (format_unstyled _ _ _ _ Hstyle).
    cbn [fst snd]. unfold console. now rewrite Hw.
  - rewrite receive_run, Hheard. cbn [fst snd]. apply (IH lg name Hlg Hv).
Qed.

Lemma replay_louder (events : list log_event) :
  Forall formats events ->
  forall (lg lg' : logger) (name name' : string),
    as_constructed lg name ->
    as_constructed lg' name' ->
    (verbosity lg <= verbosity lg')%Z ->
    (List.length (console lg) <= List.length (console lg'))%nat ->
    (List.length (console (snd (replay sprintf clock colors lg events)))
     <= List.length (console (snd (replay sprintf clock colors lg' events))))%nat.
Proof.
  induction 1 as [ | e events He _ IH]; intros lg lg' name name' Hlg Hlg' Hv Hlen;
    [ exact Hlen | ].
  destruct (Z.lt_ge_cases (verbosity lg) (-2)) as [Hsilent | Hloud].
  { rewrite (replay_silent (e :: events) lg name Hlg Hsilent).
    destruct (replay_keeps (e :: events) lg' name' Hlg') as [_ [_ [Hgrow _]]].
    lia. }
  destruct (receive_keeps lg name e Hlg) as [Hnext [Hv1 _]].
  destruct (receive_keeps lg' name' e Hlg') as [Hnext' [Hv1' _]].
  pose proof (receive_as_constructed lg name e Hlg He) as Hcall.
  pose proof (receive_as_constructed lg' name' e Hlg' He) as Hcall'.
  rewrite !replay_cons.
  destruct (unstyled (log_level e)) eqn:Hstyle.
  - assert (Hh : heard (verbosity lg) (log_level e) = true)
      by (destruct (log_level e); try discriminate; cbn [heard]; lia).
    assert (Hh' : heard (verbosity lg') (log_level e) = true)
      by (now apply (heard_louder (verbosity lg))).
    rewrite Hh in Hcall. rewrite Hh' in Hcall'.
    destruct Hcall as [-> Hw]. destruct Hcall' as [-> Hw']. cbn [snd].
    destruct (console_writers _ _ Hw) as [-> _].
    destruct (console_writers _ _ Hw') as [-> _]. exact Hlen.
  - destruct (heard (verbosity lg) (log_level e)) eqn:Hh.
    + rewrite (heard_louder _ _ _ Hv Hh) in Hcall'.
      destruct Hcall as [-> [line Hline]].
      destruct Hcall' as [-> [line' Hline']].
      apply (IH _ _ name name' Hnext Hnext'); [ lia | ].
      rewrite Hline, Hline', !length_app. cbn [List.length]. lia.
    + rewrite Hcall. cbn [fst snd].
      destruct (heard (verbosity lg') (log_level e)).
      * destruct Hcall' as [-> [line' Hline']].
        apply (IH _ _ name name' Hlg Hnext'); [ lia | ].
        rewrite Hline', length_app. cbn [List.length]. lia.
      * rewrite Hcall'. cbn [fst snd]. now apply (IH _ _ name name').
Qed.

(** X17: what a call does to a logger set up by [new DefaultLogger],
    whatever calls it has received before.  A call that its verbosity does
    not let through changes nothing: [debug] below [1], [info] and [warning]
    below [0], [error] and [critical] below [-2].  A call of [debug],
    [info], [warning] or [error] that is let through puts one more line on
    the console.  A call of [critical] that is let through, and every call
    of [emergency], throws a [TypeError] before a writer is reached, and the
    console shows nothing for it: the style their label is to be given is
    not a function in [colour].  This is so for a message that [sprintf]
    formats and a log file whose name does not spell a number, so that the
    file writer takes nothing, as it does for the name the runner gives. *)
Theorem console_shows_what_is_heard (v : option Z) (logFile : option string)
  (history : list log_event) (e : log_event) :
  Compare.all_numeric
    (match logFile with Some f => f | None => "/tmp/gulp-runner.log" end) = false ->
  formats e ->
  let lg := snd (replay sprintf clock colors (construct v logFile) history) in
  (if heard (match v with Some n => n | None => 0%Z end) (log_level e)
   then if unstyled (log_level e)
        then fst (receive sprintf clock colors lg e)
             = Throw (not_a_function (bold_style (log_level e)))
             /\ console (snd (receive sprintf clock colors lg e)) = console lg
        else fst (receive sprintf clock colors lg e) = Return tt
             /\ exists line,
                  console (snd (receive sprintf clock colors lg e))
                  = console lg ++ [line]
   else receive sprintf clock colors lg e = (Return tt, lg))
  /\ filed (snd (receive sprintf clock colors lg e)) = [].
Proof.
  intros Hname He. cbv zeta.
  destruct (replay_keeps history _ _ (construct_as_constructed v logFile))
    as [Hlg [Hv [_ Hfile]]].
  destruct (receive_keeps _ _ e Hlg) as [_ [_ [_ Hfile']]].
  split; [ | now rewrite (Hfile' Hname), (Hfile Hname) ].
  pose proof (receive_as_constructed _ _ e Hlg He) as Hcall.
  rewrite Hv in Hcall. cbn [construct verbosity] in Hcall.
  destruct (heard (match v with Some n => n | None => 0%Z end) (log_level e));
    [ | exact Hcall ].
  destruct (unstyled (log_level e)); [ | exact Hcall ].
  destruct Hcall as [Hthrow Hw]. split; [ exact Hthrow | ].
  now destruct (console_writers _ _ Hw).
Qed.

(** X18: turning the verbosity up never loses a line: after the same calls,
    of messages that [sprintf] formats, made until one throws, the console
    of the more verbose logger shows at least as many lines.  The log file
    is one whose name does not spell a number, so that the file writer takes
    nothing. *)
Theorem louder_shows_more (v v' : Z) (logFile : option string)
  (events : list log_event) :
  Compare.all_numeric
    (match logFile with Some f => f | None => "/tmp/gulp-runner.log" end) = false ->
  Forall formats events ->
  (v <= v')%Z ->
  (List.length
     (console (snd (replay sprintf clock colors (construct (Some v) logFile) events)))
   <= List.length
        (console (snd (replay sprintf clock colors (construct (Some v') logFile)
                         events))))%nat.
Proof.
  intros _ Hevents Hv.
  apply (replay_louder events Hevents _ _ _ _
           (construct_as_constructed (Some v) logFile)
           (construct_as_constructed (Some v') logFile)).
  - exact Hv.
  - reflexivity.
Qed.

(** ** The builder and its logger *)

(** What a request tells the logger: the lookups it makes. *)
Lemma value_tells_of_lookups (fuel : nat) (ctx : option string) (idx : string)
  (opt : option json) (st : state) :
  exists events,
    logged (snd (value fuel ctx idx opt st)) = logged st ++ events
    /\ Forall resolving_event events.
Proof.
  rewrite value_run.
  destruct (cache_answer (buildIndex ctx idx) opt st) as [v | ].
  - exists []. split; [ cbn; now rewrite app_nil_r | constructor ].
  - rewrite resolve_anew_run. cbv zeta.
    pose proof (lookup_steps_only_logs fuel (buildIndex ctx idx) st _ _
                  (surjective_pairing _)) as [_ Hlog].
    destruct (fst (lookup fuel (buildIndex ctx idx) st)) as [v | e]; [ | exact Hlog ].
    destruct (fst (applyOptions v opt _)) as [v' | e]; exact Hlog.
Qed.

Lemma replay_lookups_unheard (lg : logger) (events : list log_event) :
  (verbosity lg <= 0)%Z -> Forall resolving_event events ->
  replay sprintf clock colors lg events = (Return tt, lg).
Proof.
  intros Hv Hevents. induction Hevents as [ | e events [idx ->] _ IH]; [ reflexivity | ].
  rewrite replay_cons, receive_run. cbn [log_level heard].
  destruct (Z.leb_spec 1 (verbosity lg)); [ lia | exact IH ].
Qed.

(** X22: a logger whose verbosity is [0], the one the runner sets up, or
    lower, does nothing with what a request tells it: whatever is requested
    and however many lookups that takes, no call throws, no writer receives
    a line and the clock is not read. *)
Theorem requests_are_not_shown (lg : logger) (fuel : nat) (ctx : option string)
  (idx : string) (opt : option json) (st : state) :
  (verbosity lg <= 0)%Z ->
  replay sprintf clock colors lg
    (skipn (List.length (logged st)) (logged (snd (value fuel ctx idx opt st))))
  = (Return tt, lg).
Proof.
  intros Hv.
  destruct (value_tells_of_lookups fuel ctx idx opt st) as [events [Hlog Hevents]].
  rewrite Hlog, skipn_app, skipn_all, Nat.sub_diag. cbn [skipn app].
  now apply replay_lookups_unheard.
Qed.

(** What the logger is told of a file that does not load. *)
Definition load_failure (e : log_event) : Prop :=
  log_level e = Error /\ log_message e = unable_message
  /\ exists context file name message,
       log_replacements e = [context; file; name; message].

Lemma loadConfigFile_fails_with_error (fs : filesystem) (file context : string)
  (st : state) :
  is_document (fs file) = false ->
  exists e,
    loadConfigFile fs file context st = (Return false, logging st e)
    /\ load_failure e.
Proof.
  intros H. rewrite loadConfigFile_run.
  destruct (fs file); try discriminate; eexists;
    (split; [ reflexivity | ]); (split; [ reflexivity | ]);
    (split; [ reflexivity | ]); eexists _, _, _, _; reflexivity.
Qed.

Lemma failed_load_events (fs : filesystem) (source : string) :
  is_document (fs source) = false ->
  is_document (fs configFileDefault) = false ->
  exists e1 e2 e3,
    logged (snd (load_from fs source initial)) = [e1; e2; e3]
    /\ load_failure e1 /\ load_failure e2 /\ log_level e3 = Emergency.
Proof.
  intros Hs Hd.
  destruct (loadConfigFile_fails_with_error fs source "user" initial Hs) as [e1 [H1 L1]].
  destruct (loadConfigFile_fails_with_error fs configFileDefault "default"
              (logging initial e1) Hd) as [e2 [H2 L2]].
  assert (Hrun : load_from fs source initial
                 = log Emergency "Could not load user config or default config files." []
                     (logging (logging initial e1) e2)).
  { unfold load_from. unfold bind at 1. rewrite H1. unfold bind at 1. now rewrite H2. }
  rewrite Hrun. eexists e1, e2, _. split; [ reflexivity | ].
  split; [ exact L1 | split; [ exact L2 | reflexivity ] ].
Qed.

(** [sprintf] formats the message of a failed load, which has four [%s]. *)
Hypothesis sprintf_unable :
  forall context file name message,
  exists out, sprintf unable_message [context; file; name; message] = Return out.

Lemma load_failure_formats (e : log_event) : load_failure e -> formats e.
Proof.
  intros [_ [Hm [context [file [name [message Hr]]]]]]. unfold formats.
  rewrite Hm, Hr. apply sprintf_unable.
Qed.

(** X23: when neither configuration file can be loaded, the calls that
    [loadConfig] makes of a logger set up by [new DefaultLogger] end in a
    [TypeError]: the two errors are shown on the console unless the
    verbosity is below [-2], and the call of [emergency] that follows them
    throws, because the style of its label is not a function in [colour].
    The line that is to tell of the failure at the most severe level is
    never shown, and the log file, whose name does not spell a number, is
    given nothing. *)
Theorem failed_load_is_shown (fs : filesystem) (file : option string)
  (v : option Z) (logFile : option string) :
  is_document (fs (user_source fs file)) = false ->
  is_document (fs configFileDefault) = false ->
  (forall f, file = Some f -> fs f <> NoEntry) ->
  Compare.all_numeric
    (match logFile with Some f => f | None => "/tmp/gulp-runner.log" end) = false ->
  fst (replay sprintf clock colors (construct v logFile)
         (logged (snd (ConfigBuilder.construct fs file))))
  = Throw (not_a_function "colors.yellow.bold")
  /\ List.length
       (console (snd (replay sprintf clock colors (construct v logFile)
                        (logged (snd (ConfigBuilder.construct fs file))))))
     = (if (match v with Some n => n | None => 0%Z end <? -2)%Z then 0%nat else 2%nat)
  /\ filed (snd (replay sprintf clock colors (construct v logFile)
                   (logged (snd (ConfigBuilder.construct fs file)))))
     = [].
Proof.
  intros Hs Hd Hstat Hname.
  assert (Hfiled : filed (snd (replay sprintf clock colors (construct v logFile)
                                 (logged (snd (ConfigBuilder.construct fs file)))))
                   = []).
  { destruct (replay_keeps (logged (snd (ConfigBuilder.construct fs file))) _ _
                (construct_as_constructed v logFile)) as [_ [_ [_ Hfile]]].
    now rewrite (Hfile Hname). }
  cut (fst (replay sprintf clock colors (construct v logFile)
              (logged (snd (ConfigBuilder.construct fs file))))
       = Throw (not_a_function "colors.yellow.bold")
       /\ List.length
            (console (snd (replay sprintf clock colors (construct v logFile)
                             (logged (snd (ConfigBuilder.construct fs file))))))
          = (if (match v with Some n => n | None => 0%Z end <? -2)%Z
             then 0%nat else 2%nat)).
  { intros [Hthrow Hlines]. now repeat split. }
  clear Hfiled.
  assert (Hload : ConfigBuilder.construct fs file
                  = load_from fs (user_source fs file) initial).
  { unfold ConfigBuilder.construct, user_source. rewrite loadConfig_run.
    destruct file as [f | ]; [ | reflexivity ].
    specialize (Hstat f eq_refl). destruct (fs f); try reflexivity. congruence. }
  rewrite Hload.
  destruct (failed_load_events fs (user_source fs file) Hs Hd)
    as [e1 [e2 [e3 [-> [F1 [F2 L3]]]]]].
  pose proof F1 as [L1 _]. pose proof F2 as [L2 _].
  set (start := construct v logFile).
  set (name := match logFile with Some f => f | None => "/tmp/gulp-runner.log" end).
  assert (Hstart : as_constructed start name) by apply construct_as_constructed.
  assert (Hempty : console start = []) by reflexivity.
  assert (Hv0 : verbosity start = match v with Some n => n | None => 0%Z end)
    by reflexivity.
  destruct (receive_keeps start name e1 Hstart) as [Hlg1 [Hv1 _]].
  pose proof (receive_as_constructed start name e1 Hstart (load_failure_formats e1 F1))
    as Hcall1.
  destruct (receive sprintf clock colors start e1) as [o1 lg1] eqn:E1.
  cbn [fst snd] in Hlg1, Hv1, Hcall1.
  destruct (receive_keeps lg1 name e2 Hlg1) as [Hlg2 [Hv2 _]].
  pose proof (receive_as_constructed lg1 name e2 Hlg1 (load_failure_formats e2 F2))
    as Hcall2.
  destruct (receive sprintf clock colors lg1 e2) as [o2 lg2] eqn:E2.
  cbn [fst snd] in Hlg2, Hv2, Hcall2.
  assert (Hcall3 : fst (receive sprintf clock colors lg2 e3)
                   = Throw (not_a_function "colors.yellow.bold")
                   /\ console (snd (receive sprintf clock colors lg2 e3)) = console lg2).
  { pose proof Hlg2 as [c [f [Hw [Hcolor _]]]].
    rewrite receive_run, L3. cbn [heard]. unfold WriterProxy_write.
    rewrite Hw, Hcolor, write_both, (format_unstyled _ _ Emergency _ eq_refl).
    cbn [fst snd bold_style]. split; [ reflexivity | ].
    unfold console. now rewrite Hw. }
  destruct (receive sprintf clock colors lg2 e3) as [o3 lg3] eqn:E3.
  cbn [fst snd] in Hcall3. destruct Hcall3 as [-> Hc3].
  rewrite L1 in Hcall1. rewrite L2 in Hcall2.
  cbn [heard unstyled] in Hcall1, Hcall2.
  rewrite Hv1 in Hcall2. rewrite Hv0 in *.
  destruct (Z.leb_spec (-2) (match v with Some n => n | None => 0%Z end)) as [Hloud | Hquiet].
  - destruct Hcall1 as [-> [line1 Hline1]].
    destruct Hcall2 as [-> [line2 Hline2]].
    cbn [replay]. rewrite E1, E2, E3.
    split; [ reflexivity | ]. cbn [snd]. rewrite Hc3, Hline2, Hline1, Hempty.
    destruct (Z.ltb_spec (match v with Some n => n | None => 0%Z end) (-2));
      [ lia | reflexivity ].
  - inversion Hcall1; subst o1 lg1. inversion Hcall2; subst o2 lg2.
    cbn [replay]. rewrite E1, E2, E3.
    split; [ reflexivity | ]. cbn [snd]. rewrite Hc3, Hempty.
    destruct (Z.ltb_spec (match v with Some n => n | None => 0%Z end) (-2));
      [ reflexivity | lia ].
Qed.

End Logging.

(** Collaborators to run the logger with: a [sprintf] that lists its
    arguments after the format, a clock that counts, and no colours. *)
Definition plain_sprintf (format : string) (arguments : list string) : outcome string :=
  Return (Str.join " " (format :: arguments)).

Definition counting_clock (reading : nat) : string := Str.of_Z (Z.of_nat reading).

Definition no_colors (style text : string) : string := text.

Lemma console_shows_what_is_heard_witness :
  let lg := snd (replay plain_sprintf counting_clock no_colors
                   (construct (Some 0%Z) (Some "./gulp.log")) [Log Info "up" []]) in
  (if heard (match Some 0%Z with Some n => n | None => 0%Z end)
        (log_level (Log Critical "down" []))
   then if unstyled (log_level (Log Critical "down" []))
        then fst (receive plain_sprintf counting_clock no_colors lg
                    (Log Critical "down" []))
             = Throw (not_a_function (bold_style (log_level (Log Critical "down" []))))
             /\ console (snd (receive plain_sprintf counting_clock no_colors lg
                                (Log Critical "down" [])))
                = console lg
        else fst (receive plain_sprintf counting_clock no_colors lg
                    (Log Critical "down" []))
             = Return tt
             /\ exists line,
                  console (snd (receive plain_sprintf counting_clock no_colors lg
                                  (Log Critical "down" [])))
                  = console lg ++ [line]
   else receive plain_sprintf counting_clock no_colors lg (Log Critical "down" [])
        = (Return tt, lg))
  /\ filed (snd (receive plain_sprintf counting_clock no_colors lg
                   (Log Critical "down" [])))
     = [].
Proof.
  apply (console_shows_what_is_heard plain_sprintf counting_clock no_colors
           (fun symbol name => ex_intro _ _ eq_refl)
           (fun time name text => ex_intro _ _ eq_refl)
           (Some 0%Z) (Some "./gulp.log") [Log Info "up" []] (Log Critical "down" [])).
  - reflexivity.
  - eexists. reflexivity.
Defined.

Lemma louder_shows_more_witness :
  (List.length (console (snd (replay plain_sprintf counting_clock no_colors
                                (construct (Some 0%Z) (Some "./gulp.log"))
                                [Log Debug "a" []; Log Info "b" []])))
   <= List.length (console (snd (replay plain_sprintf counting_clock no_colors
                                   (construct (Some 1%Z) (Some "./gulp.log"))
                                   [Log Debug "a" []; Log Info "b" []]))))%nat.
Proof.
  apply (louder_shows_more plain_sprintf counting_clock no_colors
           (fun symbol name => ex_intro _ _ eq_refl)
           (fun time name text => ex_intro _ _ eq_refl)
           0 1 (Some "./gulp.log") [Log Debug "a" []; Log Info "b" []]).
  - reflexivity.
  - repeat constructor; eexists; reflexivity.
  - lia.
Defined.

Lemma log_file_stays_empty_witness :
  filed (snd (replay plain_sprintf counting_clock no_colors
                (construct (Some 0%Z) (Some "./gulp.log"))
                [Log Error "down" []; Log Info "up" []]))
  = [].
Proof.
  apply (log_file_stays_empty plain_sprintf counting_clock no_colors
           (Some 0%Z) (Some "./gulp.log")).
  reflexivity.
Defined.

Lemma requests_are_not_shown_witness :
  replay plain_sprintf counting_clock no_colors (construct (Some 0%Z) (Some "./gulp.log"))
    (skipn (List.length (logged (holding (JObj [("b", JStr "x"); ("a", JStr "${b}")]))))
       (logged (snd (value 3 None "a" None
                       (holding (JObj [("b", JStr "x"); ("a", JStr "${b}")]))))))
  = (Return tt, construct (Some 0%Z) (Some "./gulp.log")).
Proof.
  apply (requests_are_not_shown plain_sprintf counting_clock no_colors
           (construct (Some 0%Z) (Some "./gulp.log")) 3 None "a" None
           (holding (JObj [("b", JStr "x"); ("a", JStr "${b}")]))).
  simpl. lia.
Defined.

Lemma failed_load_is_shown_witness :
  fst (replay plain_sprintf counting_clock no_colors
         (construct (Some 0%Z) (Some "./gulp.log"))
         (logged (snd (ConfigBuilder.construct (fun _ => NotRegular) None))))
  = Throw (not_a_function "colors.yellow.bold")
  /\ List.length
       (console (snd (replay plain_sprintf counting_clock no_colors
                        (construct (Some 0%Z) (Some "./gulp.log"))
                        (logged (snd (ConfigBuilder.construct (fun _ => NotRegular)
                                        None))))))
     = (if (match Some 0%Z with Some n => n | None => 0%Z end <? -2)%Z
        then 0%nat else 2%nat)
  /\ filed (snd (replay plain_sprintf counting_clock no_colors
                   (construct (Some 0%Z) (Some "./gulp.log"))
                   (logged (snd (ConfigBuilder.construct (fun _ => NotRegular) None)))))
     = [].
Proof.
  apply (failed_load_is_shown plain_sprintf counting_clock no_colors
           (fun symbol name => ex_intro _ _ eq_refl)
           (fun time name text => ex_intro _ _ eq_refl)
           (fun context file name message => ex_intro _ _ eq_refl)
           (fun _ => NotRegular) None (Some 0%Z) (Some "./gulp.log")).
  - reflexivity.
  - reflexivity.
  - discriminate.
  - reflexivity.
Defined.

(** ** Closing *)

(** X20: closing stops the console writer and not the file writer.
    [WriterStdIO.close] marks the writer closed, and what it is given
    afterwards is dropped; [WriterFile.close] closes the handle without
    marking the writer, which goes on handing every message it accepts to
    [fs.write], for a handle that is closed. *)
Theorem closing_stops_the_console_only (w w' : writer) (message : string) (level : Z) :
  accepts w level = true ->
  close w = Return w' ->
  match target w with
  | StdIO => closed w' = true /\ write w' message level = w'
  | File =>
      closed w' = false /\ handle_open w' = false
      /\ output (write w' message level)
         = output w' ++ [message +:+ String "010"%char EmptyString]
  end.
Proof.
  intros Haccepts Hclose. unfold close in Hclose.
  destruct (target w) eqn:Htarget.
  - inversion Hclose; subst w'. split; [ reflexivity | ].
    rewrite write_run. reflexivity.
  - unfold closeFile in Hclose.
    destruct (handle_open w); [ | discriminate ]. inversion Hclose; subst w'.
    unfold accepts, isOpen in Haccepts. apply andb_prop in Haccepts as [Hopen Hmeets].
    apply negb_true_iff in Hopen.
    split; [ exact Hopen | ]. split; [ reflexivity | ].
    rewrite write_run. unfold accepts, isOpen, meetsRequirement in *.
    cbn [closed levelRequired target output]. rewrite Hopen, Hmeets, Htarget.
    reflexivity.
Qed.

Lemma closing_stops_the_console_only_witness :
  match target (WriterFile None) with
  | StdIO =>
      closed (Writer File false (JNum (-1)) false []) = true
      /\ write (Writer File false (JNum (-1)) false []) "late" 2
         = Writer File false (JNum (-1)) false []
  | File =>
      closed (Writer File false (JNum (-1)) false []) = false
      /\ handle_open (Writer File false (JNum (-1)) false []) = false
      /\ output (write (Writer File false (JNum (-1)) false []) "late" 2)
         = output (Writer File false (JNum (-1)) false [])
             ++ ["late" +:+ String "010"%char EmptyString]
  end.
Proof.
  apply (closing_stops_the_console_only (WriterFile None)
           (Writer File false (JNum (-1)) false []) "late" 2); reflexivity.
Defined.
